(** * Backtester metrics and trade analytics: a shallow embedding

    The development follows [src/infrastructure/backtester/engine.py] and
    [src/infrastructure/backtester/performance_metrics.py].

    Numbers.  The Python code computes on IEEE binary64 values held in pandas
    columns.  They are embedded as exact rationals extended with the three
    special values that the code can observe ([NaN], used by pandas as the
    missing value, and the two infinities).  Rounding is not modelled; the
    propagation of [NaN] and of the infinities, the comparisons that are all
    false on [NaN], and division by zero are.  Every finite result is kept in
    lowest terms ([Qred]) so that equal values are equal terms. *)

From Stdlib Require Import QArith Qabs Qreduction ZArith List Bool String Lia Lqa.
Import ListNotations.

Set Implicit Arguments.

(** ** Extended rationals standing for float64 *)

Module Float.

Inductive float : Type :=
| Fin (q : Q)
| PInf
| NInf
| NaN.

Declare Scope float_scope.
Delimit Scope float_scope with F.
Bind Scope float_scope with float.

Definition of_Z (z : Z) : float := Fin (inject_Z z).

Definition is_nan (x : float) : bool :=
  match x with NaN => true | _ => false end.

Definition is_finite (x : float) : bool :=
  match x with Fin _ => true | _ => false end.

Definition fopp (x : float) : float :=
  match x with
  | Fin q => Fin (Qred (- q))
  | PInf => NInf
  | NInf => PInf
  | NaN => NaN
  end.

Definition fabs (x : float) : float :=
  match x with
  | Fin q => Fin (Qred (Qabs q))
  | PInf | NInf => PInf
  | NaN => NaN
  end.

Definition fadd (x y : float) : float :=
  match x, y with
  | NaN, _ | _, NaN => NaN
  | Fin a, Fin b => Fin (Qred (a + b))
  | PInf, NInf | NInf, PInf => NaN
  | PInf, _ | _, PInf => PInf
  | NInf, _ | _, NInf => NInf
  end.

Definition fsub (x y : float) : float :=
  match x, y with
  | NaN, _ | _, NaN => NaN
  | Fin a, Fin b => Fin (Qred (a - b))
  | PInf, PInf | NInf, NInf => NaN
  | PInf, _ | _, NInf => PInf
  | NInf, _ | _, PInf => NInf
  end.

(** An infinity of the sign given by the product of two signs; [NaN] when one
    factor is zero. *)
Definition inf_of_signs (s t : comparison) : float :=
  match s, t with
  | Eq, _ | _, Eq => NaN
  | Gt, Gt | Lt, Lt => PInf
  | Gt, Lt | Lt, Gt => NInf
  end.

Definition fmul (x y : float) : float :=
  match x, y with
  | NaN, _ | _, NaN => NaN
  | Fin a, Fin b => Fin (Qred (a * b))
  | Fin a, PInf | PInf, Fin a => inf_of_signs (a ?= 0)%Q Gt
  | Fin a, NInf | NInf, Fin a => inf_of_signs (a ?= 0)%Q Lt
  | PInf, PInf | NInf, NInf => PInf
  | PInf, NInf | NInf, PInf => NInf
  end.

(** Division never raises on float64: a zero divisor gives an infinity of the
    sign of the dividend, and [NaN] for [0/0].  The sign of a zero divisor is
    not tracked. *)
Definition fdiv (x y : float) : float :=
  match x, y with
  | NaN, _ | _, NaN => NaN
  | Fin a, Fin b =>
      if Qeq_bool b 0
      then match (a ?= 0)%Q with Eq => NaN | Gt => PInf | Lt => NInf end
      else Fin (Qred (a / b))
  | Fin _, (PInf | NInf) => Fin 0
  | PInf, Fin b => match (b ?= 0)%Q with Lt => NInf | _ => PInf end
  | NInf, Fin b => match (b ?= 0)%Q with Lt => PInf | _ => NInf end
  | (PInf | NInf), (PInf | NInf) => NaN
  end.

(** Comparisons: every comparison with [NaN] is false, so [!=] is true. *)
Definition feqb (x y : float) : bool :=
  match x, y with
  | Fin a, Fin b => Qeq_bool a b
  | PInf, PInf | NInf, NInf => true
  | _, _ => false
  end.

Definition fneb (x y : float) : bool := negb (feqb x y).

Definition fltb (x y : float) : bool :=
  match x, y with
  | NaN, _ | _, NaN => false
  | Fin a, Fin b => negb (Qle_bool b a)
  | NInf, (Fin _ | PInf) | Fin _, PInf => true
  | _, _ => false
  end.

Definition fgtb (x y : float) : bool := fltb y x.


Definition fmax (x y : float) : float := if fltb x y then y else x.
Definition fmin (x y : float) : float := if fltb y x then y else x.

Notation "x + y" := (fadd x y) : float_scope.
Notation "x - y" := (fsub x y) : float_scope.
Notation "x * y" := (fmul x y) : float_scope.
Notation "x / y" := (fdiv x y) : float_scope.
Notation "- x" := (fopp x) : float_scope.
Notation "x == y" := (feqb x y) (at level 70, no associativity) : float_scope.
Notation "x != y" := (fneb x y) (at level 70, no associativity) : float_scope.
Notation "x <? y" := (fltb x y) : float_scope.
Notation "x >? y" := (fgtb x y) : float_scope.

End Float.
Export Float.

(** ** Python exceptions and results *)

Inductive exn : Type :=
| ValueError (msg : string)
| IndexError
| KeyError.

Inductive result (A : Type) : Type :=
| Ok (a : A)
| Raise (e : exn).
Arguments Ok {A} a.
Arguments Raise {A} e.

Definition bind {A B : Type} (r : result A) (k : A -> result B) : result B :=
  match r with
  | Ok a => k a
  | Raise e => Raise e
  end.

Notation "x <- r ;; k" := (bind r (fun x => k))
  (at level 61, r at next level, right associativity).

(** ** Timestamps

    The index of the frame is a pandas [DatetimeIndex].  A timestamp is the
    number of seconds since the Unix epoch; [year] is the proleptic Gregorian
    calendar year that pandas reports as [index.year]. *)

Definition Timestamp : Type := Z.

Definition year_of_days (d : Z) : Z :=
  let z := (d + 719468)%Z in
  let era := (z / 146097)%Z in
  let doe := (z - era * 146097)%Z in
  let yoe := ((doe - doe / 1460 + doe / 36524 - doe / 146096) / 365)%Z in
  let y := (yoe + era * 400)%Z in
  let doy := (doe - (365 * yoe + yoe / 4 - yoe / 100))%Z in
  let mp := ((5 * doy + 2) / 153)%Z in
  if (mp <? 10)%Z then y else (y + 1)%Z.

Definition year (t : Timestamp) : Z := year_of_days (t / 86400)%Z.

(** ** pandas Series operations used by the engine *)

Module Series.

Definition Series : Type := list float.

Fixpoint map2 {A B C : Type} (f : A -> B -> C) (l : list A) (m : list B) : list C :=
  match l, m with
  | a :: l', b :: m' => f a b :: map2 f l' m'
  | _, _ => []
  end.

(** [s.shift(1)]: every value moves one slot down, the first slot is missing. *)
Definition shift (s : Series) : Series :=
  match s with
  | [] => []
  | _ :: _ => NaN :: removelast s
  end.

(** [s.pct_change()]: [s / s.shift(1) - 1].  Missing prices are not filled
    forward; on a price column without missing values this plays no role. *)
Definition pct_change (s : Series) : Series :=
  map2 (fun cur prev => cur / prev - Fin 1)%F s (shift s).

(** [s.diff()]: [s - s.shift(1)]. *)
Definition diff (s : Series) : Series :=
  map2 (fun cur prev => cur - prev)%F s (shift s).

Definition abs (s : Series) : Series := map fabs s.

Definition mul (s t : Series) : Series := map2 fmul s t.
Definition sub (s t : Series) : Series := map2 fsub s t.
Definition div (s t : Series) : Series := map2 fdiv s t.
Definition scale (s : Series) (c : float) : Series := map (fun x => x * c)%F s.

Definition dropna (s : Series) : Series := filter (fun x => negb (is_nan x)) s.

Definition fillna (v : float) (s : Series) : Series :=
  map (fun x => if is_nan x then v else x) s.

(** [s.cumprod()] with the default [skipna=True]: a missing value counts as 1
    in the running product and stays missing in the output. *)
Fixpoint cumprod_from (acc : float) (s : Series) : Series :=
  match s with
  | [] => []
  | x :: r =>
      if is_nan x
      then NaN :: cumprod_from (acc * Fin 1)%F r
      else (acc * x)%F :: cumprod_from (acc * x)%F r
  end.

Definition cumprod (s : Series) : Series :=
  match s with
  | [] => []
  | x :: r =>
      if is_nan x
      then NaN :: cumprod_from (Fin 1) r
      else x :: cumprod_from x r
  end.

(** [s.cummax()] with the default [skipna=True]. *)
Fixpoint cummax_from (mx : float) (s : Series) : Series :=
  match s with
  | [] => []
  | x :: r =>
      if is_nan x
      then NaN :: cummax_from mx r
      else fmax mx x :: cummax_from (fmax mx x) r
  end.

Definition cummax (s : Series) : Series := cummax_from NInf s.

(** [s.sum()], [s.min()], [s.mean()] skip missing values. *)
Definition sum (s : Series) : float := fold_left fadd (dropna s) (Fin 0).

Definition count (s : Series) : nat := List.length (dropna s).

Definition min (s : Series) : float :=
  match dropna s with
  | [] => NaN
  | x :: r => fold_left fmin r x
  end.

Definition mean (s : Series) : float :=
  (sum s / of_Z (Z.of_nat (count s)))%F.

(** [s.var()] with [ddof=1]: missing when fewer than two values are present.
    The squared deviations of the present values are added up as they are (a
    missing value counts for 0), so a deviation that is itself not a number,
    as that of an infinite value, makes the variance not a number. *)
Definition var (s : Series) : float :=
  if (count s <=? 1)%nat then NaN
  else
    let avg := mean s in
    let sqr := map (fun x => if is_nan x then Fin 0
                             else ((avg - x) * (avg - x))%F) s in
    (fold_left fadd sqr (Fin 0) / of_Z (Z.of_nat (count s) - 1))%F.

(** [s.iloc[0]] and [s.iloc[-1]] raise [IndexError] on an empty series. *)
Definition iloc_first (s : Series) : result float :=
  match s with
  | [] => Raise IndexError
  | x :: _ => Ok x
  end.

Definition iloc_last (s : Series) : result float :=
  match s with
  | [] => Raise IndexError
  | x :: r => Ok (last r x)
  end.

End Series.

Import Series.

(** ** The input table and the frame derived by [backtest] (engine.py) *)

(** The caller's [data]: a time index and named columns.  [Close] and
    [position] are required by [backtest], [position_size] is optional; a
    column that the caller did not supply is [None].  pandas keeps every
    column as long as the index ([well_formed]). *)
Record DataFrame : Type := {
  index : list Timestamp;
  Close : option Series;
  position : option Series;
  position_size : option Series
}.

Definition column_fits (idx : list Timestamp) (c : option Series) : Prop :=
  match c with
  | Some s => List.length s = List.length idx
  | None => True
  end.

Definition well_formed (data : DataFrame) : Prop :=
  column_fits (index data) (Close data) /\
  column_fits (index data) (position data) /\
  column_fits (index data) (position_size data).

(** [df] after lines 35-49 of engine.py: the copied input columns and the six
    columns that [backtest] adds. *)
Record Frame : Type := {
  df_index : list Timestamp;
  df_Close : Series;
  df_position : Series;
  returns : Series;
  effective_position : Series;
  strategy_returns : Series;
  position_change : Series;
  trade_cost : Series;
  net_returns : Series
}.

Definition derive_columns (idx : list Timestamp) (close pos : Series)
    (size : option Series) (cost : float) : Frame :=
  let returns := pct_change close in
  let effective_position :=
    match size with
    | Some sz => shift (Series.mul pos sz)
    | None => shift pos
    end in
  let strategy_returns := Series.mul effective_position returns in
  let position_change := Series.abs (diff pos) in
  let trade_cost := scale position_change cost in
  let net_returns := Series.sub strategy_returns trade_cost in
  {| df_index := idx;
     df_Close := close;
     df_position := pos;
     returns := returns;
     effective_position := effective_position;
     strategy_returns := strategy_returns;
     position_change := position_change;
     trade_cost := trade_cost;
     net_returns := net_returns |}.

(** ** performance_metrics.py *)

(** *** Frequency *)

Fixpoint insert_sorted (x : Z) (l : list Z) : list Z :=
  match l with
  | [] => [x]
  | y :: r => if (x <=? y)%Z then x :: l else y :: insert_sorted x r
  end.

Definition sort (l : list Z) : list Z := fold_right insert_sorted [] l.

Fixpoint time_diffs (idx : list Timestamp) : list Z :=
  match idx with
  | a :: (b :: _) as r => (b - a)%Z :: time_diffs r
  | _ => []
  end.

(** Median of a non-empty list of time differences, in seconds. *)
Definition median (l : list Z) : Q :=
  let s := sort l in
  let n := List.length s in
  if Nat.even n
  then (inject_Z (nth (n / 2 - 1) s 0%Z) + inject_Z (nth (n / 2) s 0%Z)) / 2
  else inject_Z (nth (n / 2) s 0%Z).

Definition infer_frequency (idx : list Timestamp) : Z :=
  if (List.length idx <? 2)%nat then 365%Z
  else
    let hours := median (time_diffs idx) / 3600 in
    if Qle_bool hours 1 then 8760%Z
    else if Qle_bool hours 4 then 2190%Z
    else if Qle_bool hours 24 then 365%Z
    else if Qle_bool hours 168 then 52%Z
    else 12%Z.

(** *** Scalar metrics over the equity curve *)

Definition calculate_total_return (equity_curve : Series) : result float :=
  last_value <- iloc_last equity_curve ;;
  Ok (last_value - Fin 1)%F.

Definition drawdown_series (equity_curve : Series) : Series :=
  let running_max := cummax equity_curve in
  Series.div (Series.sub equity_curve running_max) running_max.

Definition calculate_max_drawdown (equity_curve : Series) : float :=
  Series.min (drawdown_series equity_curve).

Definition calculate_calmar_ratio (total_return max_drawdown : float) : float :=
  if (max_drawdown == Fin 0)%F then Fin 0
  else (total_return / fabs max_drawdown)%F.

(** *** Trades *)

Inductive Direction : Type := Long | Short.

Record Trade : Type := {
  entry_time : Timestamp;
  exit_time : Timestamp;
  entry_price : float;
  exit_price : float;
  direction : Direction;
  pnl : float
}.

(** One row as [data.iterrows()] yields it: the index label and the columns
    that [identify_trades] reads. *)
Record Row : Type := {
  row_idx : Timestamp;
  row_Close : float;
  row_position : float
}.

Definition iterrows (data : Frame) : list Row :=
  map2 (fun i cp => {| row_idx := i; row_Close := fst cp; row_position := snd cp |})
       (df_index data) (map2 pair (df_Close data) (df_position data)).

(** The loop variables [entry_price], [entry_direction] and [entry_time] are
    read only while [in_position] is true, and are all three assigned whenever
    it becomes true; the state is [Some] of them when [in_position] holds and
    [None] otherwise. *)
Record Entry : Type := {
  at_price : float;
  at_direction : float;
  at_time : Timestamp
}.

Definition LoopState : Type := (option Entry * list Trade)%type.

Definition enter (row : Row) : Entry :=
  {| at_price := row_Close row;
     at_direction := row_position row;
     at_time := row_idx row |}.

Definition close_trade (e : Entry) (row : Row) : Trade :=
  let exit_price := row_Close row in
  let pnl :=
    if (at_direction e == Fin 1)%F
    then ((exit_price - at_price e) / at_price e)%F
    else ((at_price e - exit_price) / at_price e)%F in
  {| entry_time := at_time e;
     exit_time := row_idx row;
     entry_price := at_price e;
     exit_price := exit_price;
     direction := if (at_direction e == Fin 1)%F then Long else Short;
     pnl := pnl |}.

Definition exits (e : Entry) (current_position : float) : bool :=
  (current_position == Fin 0)%F
  || ((current_position != Fin 0)%F && (current_position != at_direction e)%F).

Definition step (st : LoopState) (row : Row) : LoopState :=
  let current_position := row_position row in
  match fst st with
  | None =>
      if (current_position != Fin 0)%F
      then (Some (enter row), snd st)
      else st
  | Some e =>
      if exits e current_position
      then
        let trades := snd st ++ [close_trade e row] in
        if (current_position != Fin 0)%F
        then (Some (enter row), trades)
        else (None, trades)
      else st
  end.

Definition scan (rows : list Row) : LoopState := fold_left step rows (None, []).

Definition change_points (data : Frame) : Series :=
  filter (fun c => c >? Fin 0)%F (position_change data).

Definition identify_trades (data : Frame) : list Trade :=
  if (List.length (change_points data) =? 0)%nat then []
  else snd (scan (iterrows data)).

(** *** Metrics over the trade log *)

Definition pnls (trades_df : list Trade) : Series := map pnl trades_df.

Definition winning (trades_df : list Trade) : Series :=
  filter (fun p => p >? Fin 0)%F (pnls trades_df).

Definition losing (trades_df : list Trade) : Series :=
  filter (fun p => p <? Fin 0)%F (pnls trades_df).

Definition of_nat (n : nat) : float := of_Z (Z.of_nat n).

Definition calculate_win_rate (trades_df : list Trade) : float :=
  if (List.length trades_df =? 0)%nat then Fin 0
  else (of_nat (List.length (winning trades_df)) / of_nat (List.length trades_df))%F.

Definition calculate_num_trades (trades_df : list Trade) : nat :=
  List.length trades_df.

Definition calculate_avg_win_loss_ratio (trades_df : list Trade) : float :=
  if (List.length trades_df =? 0)%nat then Fin 0
  else
    let winning_trades := winning trades_df in
    let losing_trades := losing trades_df in
    if (List.length winning_trades =? 0)%nat || (List.length losing_trades =? 0)%nat
    then Fin 0
    else
      let avg_win := mean winning_trades in
      let avg_loss := fabs (mean losing_trades) in
      (avg_win / avg_loss)%F.

Definition calculate_profit_factor (trades_df : list Trade) : float :=
  if (List.length trades_df =? 0)%nat then Fin 0
  else
    let gross_profit := Series.sum (winning trades_df) in
    let gross_loss := fabs (Series.sum (losing trades_df)) in
    if (gross_loss == Fin 0)%F
    then (if (gross_profit >? Fin 0)%F then PInf else Fin 0)
    else (gross_profit / gross_loss)%F.

(** *** Metrics that take a square root

    [numpy.sqrt] has no exact rational counterpart: its value on a finite
    non-negative argument is the parameter [qsqrt]; its behaviour on the
    special values and on negative arguments is fixed. *)

Section Sqrt.

Variable qsqrt : Q -> Q.

Definition np_sqrt (x : float) : float :=
  match x with
  | Fin q => if Qle_bool 0 q then Fin (Qred (qsqrt q)) else NaN
  | PInf => PInf
  | NInf | NaN => NaN
  end.

(** [s.std()]: the square root of the sample variance. *)
Definition std (s : Series) : float := np_sqrt (var s).

Definition calculate_sharpe_ratio (returns : Series) (periods_per_year : Z) : float :=
  if (List.length returns <? 2)%nat then Fin 0
  else
    let mean_return := mean returns in
    let std_return := std returns in
    if (std_return == Fin 0)%F then Fin 0
    else ((mean_return / std_return) * np_sqrt (of_Z periods_per_year))%F.

(** A series together with its time index, as the yearly grouping needs it. *)
Definition TimeSeries : Type := list (Timestamp * float).

Fixpoint insert_key (y : Z) (l : list Z) : list Z :=
  match l with
  | [] => [y]
  | z :: r =>
      if (y <? z)%Z then y :: l
      else if (y =? z)%Z then l
      else z :: insert_key y r
  end.

(** Keys of [s.groupby(s.index.year)]: the distinct years, ascending. *)
Definition group_keys (s : TimeSeries) : list Z :=
  fold_right insert_key [] (map (fun p => year (fst p)) s).

Definition year_slice (s : TimeSeries) (y : Z) : Series :=
  map snd (filter (fun p => (year (fst p) =? y)%Z) s).

(** [grouped.get_group(y)] of [s.groupby(s.index.year)].  The grouping key
    [s.index.year] has one entry per row; when it has exactly one entry,
    pandas takes it for a one-element list of keys and refuses the bare year
    with [KeyError].  Otherwise [KeyError] is raised when no row falls in
    year [y]. *)
Definition get_group (s : TimeSeries) (y : Z) : result Series :=
  if (List.length s =? 1)%nat then Raise KeyError
  else
    match year_slice s y with
    | [] => Raise KeyError
    | g => Ok g
    end.

Record YearlyStat : Type := {
  yearly_return : float;
  yearly_sharpe_of : float;
  yearly_max_dd : float
}.

Definition year_stat (year_returns year_equity : Series) (periods_per_year : Z)
    : result YearlyStat :=
  start_value <- iloc_first year_equity ;;
  end_value <- iloc_last year_equity ;;
  let yearly_return := ((end_value - start_value) / start_value)%F in
  let mean_ret := mean year_returns in
  let std_ret := std year_returns in
  let sharpe :=
    if (std_ret >? Fin 0)%F
    then ((mean_ret / std_ret) * np_sqrt (of_Z periods_per_year))%F
    else Fin 0 in
  let running_max := cummax year_equity in
  let drawdown := Series.div (Series.sub year_equity running_max) running_max in
  Ok {| yearly_return := yearly_return;
        yearly_sharpe_of := sharpe;
        yearly_max_dd := Series.min drawdown |}.

Record YearlyMetrics : Type := {
  yearly_returns : list (Z * float);
  yearly_sharpe : list (Z * float);
  yearly_max_drawdown : list (Z * float)
}.

Definition no_years : YearlyMetrics :=
  {| yearly_returns := []; yearly_sharpe := []; yearly_max_drawdown := [] |}.

Definition record_year (y : Z) (st : YearlyStat) (m : YearlyMetrics) : YearlyMetrics :=
  {| yearly_returns := (y, yearly_return st) :: yearly_returns m;
     yearly_sharpe := (y, yearly_sharpe_of st) :: yearly_sharpe m;
     yearly_max_drawdown := (y, yearly_max_dd st) :: yearly_max_drawdown m |}.

Fixpoint yearly_loop (years : list Z) (returns equity_curve : TimeSeries)
    (periods_per_year : Z) : result YearlyMetrics :=
  match years with
  | [] => Ok no_years
  | y :: later =>
      year_returns <- get_group returns y ;;
      year_equity <- get_group equity_curve y ;;
      st <- year_stat year_returns year_equity periods_per_year ;;
      rest <- yearly_loop later returns equity_curve periods_per_year ;;
      Ok (record_year y st rest)
  end.

Definition calculate_yearly_metrics (returns equity_curve : TimeSeries)
    (periods_per_year : Z) : result YearlyMetrics :=
  yearly_loop (group_keys returns) returns equity_curve periods_per_year.

(** *** The report *)

Record Metrics : Type := {
  total_return : float;
  sharpe_ratio : float;
  max_drawdown : float;
  win_rate : float;
  num_trades : nat;
  avg_win_loss_ratio : float;
  profit_factor : float;
  calmar_ratio : float;
  yearly : YearlyMetrics;
  cost_percent : float;
  equity_curve : Series;
  trades : list Trade
}.

(** Lines 216-217: the equity curve. *)
Definition build_equity (net_returns : Series) : Series :=
  fillna (Fin 1) (cumprod (map (fun r => Fin 1 + r)%F net_returns)).

Definition calculate_all_metrics (data : Frame) (net_returns : Series) (cost : float)
    : result Metrics :=
  let equity_curve := build_equity net_returns in
  let periods_per_year := infer_frequency (df_index data) in
  let trades_df := identify_trades data in
  total_return <- calculate_total_return equity_curve ;;
  let sharpe_ratio := calculate_sharpe_ratio net_returns periods_per_year in
  let max_drawdown := calculate_max_drawdown equity_curve in
  let win_rate := calculate_win_rate trades_df in
  let num_trades := calculate_num_trades trades_df in
  let avg_win_loss := calculate_avg_win_loss_ratio trades_df in
  let profit_factor := calculate_profit_factor trades_df in
  let calmar_ratio := calculate_calmar_ratio total_return max_drawdown in
  yearly_metrics <- calculate_yearly_metrics
                      (combine (df_index data) net_returns)
                      (combine (df_index data) equity_curve)
                      periods_per_year ;;
  Ok {| total_return := total_return;
        sharpe_ratio := sharpe_ratio;
        max_drawdown := max_drawdown;
        win_rate := win_rate;
        num_trades := num_trades;
        avg_win_loss_ratio := avg_win_loss;
        profit_factor := profit_factor;
        calmar_ratio := calmar_ratio;
        yearly := yearly_metrics;
        cost_percent := cost;
        equity_curve := equity_curve;
        trades := trades_df |}.

(** ** engine.py: [backtest]

    The plotting calls at the end of [backtest] read the report and do not
    change it; they are left out. *)
Definition backtest (data : DataFrame) (cost : float) : result Metrics :=
  match Close data with
  | None => Raise (ValueError "Data must have 'Close' column")
  | Some close =>
      match position data with
      | None =>
          Raise (ValueError
                   "Data must have 'position' column (1=long, 0=flat, -1=short)")
      | Some pos =>
          let df := derive_columns (index data) close pos (position_size data) cost in
          calculate_all_metrics df (net_returns df) cost
      end
  end.

End Sqrt.

(** ** visualizer.py: what [plot_results] computes before drawing

    Lines 149-152: the equity of holding the benchmark, from its [Close]
    column.  The drawdown that [plot_drawdown] and [plot_results] draw is
    [drawdown_series] of the equity curve. *)
Definition benchmark_equity (benchmark_close : Series) : Series :=
  fillna (Fin 1) (cumprod (map (fun r => Fin 1 + r)%F (pct_change benchmark_close))).

(** * Vocabulary of the specification *)

(** Bar [n] of a daily series starting at the epoch. *)
Definition day (n : Z) : Timestamp := (n * 86400)%Z.

(** The scenario of the specification: prices 100, 110, 99, 99 and positions
    0, 1, 1, 0 on four consecutive days, no size column, cost 0. *)
Definition scenario_frame : Frame :=
  derive_columns [day 0; day 1; day 2; day 3]
                 [Fin 100; Fin 110; Fin 99; Fin 99]
                 [Fin 0; Fin 1; Fin 1; Fin 0] None (Fin 0).

(** [x] is within [tol] of the rational [q]. *)
Definition near (x : float) (q tol : Q) : Prop :=
  match x with
  | Fin v => Qabs (v - q) <= tol
  | _ => False
  end.

(** The trade that the specification expects from the scenario. *)
Definition expected_scenario_trade (t : Trade) : Prop :=
  direction t = Long /\
  entry_price t = Fin 100 /\ entry_time t = day 1 /\
  exit_price t = Fin 99 /\ exit_time t = day 3 /\
  near (pnl t) (-1 # 100) (1 # 1000).

(** The optional size column is as long as the position column. *)
Definition sizes_fit (pos : Series) (size : option Series) : Prop :=
  match size with
  | Some sz => List.length sz = List.length pos
  | None => True
  end.

(** Exposure decided at bar [i]: [position[i] * size[i]], or [position[i]]
    alone when the table has no size column. *)
Definition exposure (pos : Series) (size : option Series) (i : nat) : option float :=
  match size with
  | Some sz =>
      match nth_error pos i, nth_error sz i with
      | Some p, Some s => Some (p * s)%F
      | _, _ => None
      end
  | None => nth_error pos i
  end.

(** Inputs that the specification wants rejected. *)
Fixpoint strictly_increasing (idx : list Timestamp) : bool :=
  match idx with
  | a :: (b :: _) as r => (a <? b)%Z && strictly_increasing r
  | _ => true
  end.







(** The data model of the specification: positive finite prices, positions
    in {-1, 0, 1}, sizes in (0, 1], strictly increasing timestamps. *)
Definition positive_price (x : float) : Prop :=
  match x with Fin q => 0 < q | _ => False end.

Definition valid_position (p : float) : Prop :=
  p = Fin 1 \/ p = Fin 0 \/ p = Fin (-1).

Definition valid_size (s : float) : Prop :=
  match s with Fin q => 0 < q /\ q <= 1 | _ => False end.

Record valid_input (data : DataFrame) (close pos : Series) : Prop := {
  valid_shape : well_formed data;
  valid_times : strictly_increasing (index data) = true;
  valid_Close : Close data = Some close /\ Forall positive_price close;
  valid_positions : position data = Some pos /\ Forall valid_position pos;
  valid_sizes : forall sz, position_size data = Some sz -> Forall valid_size sz
}.

Definition finite (x : float) : Prop := is_finite x = true.

(** Product of a list of factors, starting from 1. *)
Definition product (factors : Series) : float := fold_left fmul factors (Fin 1).

(** The years that occur in the index of a series. *)
Definition years_of (s : list (Timestamp * float)) : list Z :=
  map (fun p => year (fst p)) s.

(** The position column scaled by the size column, when there is one. *)
Definition exposures (pos : Series) (size : option Series) : Series :=
  match size with
  | Some sz => Series.mul pos sz
  | None => pos
  end.

(** The scenario as a caller's table. *)
Definition scenario_input : DataFrame :=
  {| index := [day 0; day 1; day 2; day 3];
     Close := Some [Fin 100; Fin 110; Fin 99; Fin 99];
     position := Some [Fin 0; Fin 1; Fin 1; Fin 0];
     position_size := None |}.

(** A bar closes a position when the previous position was not flat and the
    new one is flat or is a different non-zero position. *)
Definition closes_position (prev cur : float) : bool :=
  (prev != Fin 0)%F
  && ((cur == Fin 0)%F || ((cur != Fin 0)%F && (cur != prev)%F)).

Fixpoint closing_transitions (pos : Series) : nat :=
  match pos with
  | a :: (b :: _) as r =>
      (if closes_position a b then 1 else 0) + closing_transitions r
  | _ => 0%nat
  end.

(** A flip: long directly to short, or short directly to long. *)
Definition flip (prev cur : float) : Prop :=
  (prev = Fin 1 /\ cur = Fin (-1)) \/ (prev = Fin (-1) /\ cur = Fin 1).

Definition side (p : float) : Direction :=
  if (p == Fin 1)%F then Long else Short.

(** The pnl of a trade is the price move relative to the entry price. *)
Definition bare_price_ratio (t : Trade) : Prop :=
  pnl t =
  match direction t with
  | Long => ((exit_price t - entry_price t) / entry_price t)%F
  | Short => ((entry_price t - exit_price t) / entry_price t)%F
  end.

(** The loop state agrees with the position [p] of the last bar seen. *)
Definition tracks (st : LoopState) (p : float) : Prop :=
  match fst st with
  | None => p = Fin 0
  | Some e => at_direction e = p /\ p <> Fin 0
  end.

(** The flip scenario: long for two bars, then short, at a flat price of 100. *)
Definition flip_frame : Frame :=
  derive_columns [day 0; day 1; day 2; day 3]
                 [Fin 100; Fin 100; Fin 100; Fin 100]
                 [Fin 1; Fin 1; Fin (-1); Fin (-1)] None (Fin 0).

(** Two tables that differ at most in their size column. *)
Definition same_but_size (d1 d2 : DataFrame) : Prop :=
  index d1 = index d2 /\ Close d1 = Close d2 /\ position d1 = position d2.

Definition half_sized_input : DataFrame :=
  {| index := [day 0; day 1; day 2; day 3];
     Close := Some [Fin 100; Fin 110; Fin 99; Fin 99];
     position := Some [Fin 0; Fin 1; Fin 1; Fin 0];
     position_size := Some [Fin (1 # 2); Fin (1 # 2); Fin (1 # 4); Fin 1] |}.

(** Strictly positive and strictly negative values (an infinity included). *)
Definition positive (x : float) : Prop := (x >? Fin 0)%F = true.
Definition negative (x : float) : Prop := (x <? Fin 0)%F = true.

(** A trade log given by its pnl values only. *)
Definition trade_with_pnl (p : float) : Trade :=
  {| entry_time := day 0; exit_time := day 1;
     entry_price := Fin 100; exit_price := Fin 100;
     direction := Long; pnl := p |}.

Definition sample_log : list Trade :=
  map trade_with_pnl [Fin (1 # 10); Fin (-1 # 20); Fin 0; Fin (1 # 20)].

(** A square root that is exact on ratios of perfect squares, for evaluating
    the metrics on concrete inputs. *)
Definition sqrt_of_squares (q : Q) : Q := Z.sqrt (Qnum q) # Pos.sqrt (Qden q).

(** Reading a year-keyed result. *)
Definition lookup_year (y : Z) (d : list (Z * float)) : option float :=
  option_map snd (find (fun p => (fst p =? y)%Z) d).

(** Drawdown of a slice against its own running peak: at position [i] the
    peak is the highest value among the first [i + 1] values of the slice. *)
Definition peak_within (slice : Series) (i : nat) : float :=
  fold_left fmax (dropna (firstn (S i) slice)) NInf.

Definition drawdown_within (slice : Series) (i : nat) : float :=
  ((nth i slice NaN - peak_within slice i) / peak_within slice i)%F.

Definition slice_max_drawdown (slice : Series) : float :=
  Series.min (map (drawdown_within slice) (seq 0 (List.length slice))).

(** No value of the slice lies below a value that comes before it. *)
Fixpoint never_declines (slice : Series) : Prop :=
  match slice with
  | [] => True
  | a :: r => Forall (fun b => (b <? a)%F = false) r /\ never_declines r
  end.

(** No value of the slice lies below the first one. *)
Definition never_below_start (slice : Series) : Prop :=
  Forall (fun b => (b <? hd NaN slice)%F = false) slice.

(** One calendar year in which the equity rises from 1 to 2 and falls to 1.5. *)
Definition rise_then_fall : list (Timestamp * float) :=
  [(day 0, Fin 1); (day 1, Fin 2); (day 2, Fin (3 # 2))].

Definition rise_then_fall_returns : list (Timestamp * float) :=
  [(day 0, NaN); (day 1, Fin 1); (day 2, Fin (-1 # 4))].

(** Two calendar years: a flat first year, then a second year that opens
    after a loss of 10% and stays there. *)
Definition two_years : list (Timestamp * float) :=
  [(day 0, Fin 1); (day 1, Fin 1); (day 365, Fin (9 # 10)); (day 366, Fin (9 # 10))].

Definition two_years_returns : list (Timestamp * float) :=
  [(day 0, NaN); (day 1, Fin 0); (day 365, Fin (-1 # 10)); (day 366, Fin 0)].

(** A finite value together with a condition on it. *)
Definition finite_with (P : Q -> Prop) (x : float) : Prop :=
  exists q, x = Fin q /\ P q.

(** A trade log with two winners and two losers. *)
Definition mixed_log : list Trade :=
  map trade_with_pnl [Fin (3 # 10); Fin (-1 # 10); Fin (1 # 10); Fin (-3 # 10)].

(** A drawdown value: finite, at most 0 and not below -1. *)
Definition drawdown_value (x : float) : Prop :=
  finite_with (fun q => -1 <= q <= 0) x.

(** An index of [n] timestamps, [step] seconds apart. *)
Fixpoint regular_index (start step : Z) (n : nat) : list Timestamp :=
  match n with
  | O => []
  | S k => start :: regular_index (start + step) step k
  end.

(** The annualization factor that belongs to a sampling step in seconds. *)
Definition factor_of_step (step : Z) : Z :=
  if (step <=? 3600)%Z then 8760%Z
  else if (step <=? 14400)%Z then 2190%Z
  else if (step <=? 86400)%Z then 365%Z
  else if (step <=? 604800)%Z then 52%Z
  else 12%Z.

(** A table of two bars. *)
Definition two_bar_input : DataFrame :=
  {| index := [day 0; day 1];
     Close := Some [Fin 100; Fin 110];
     position := Some [Fin 1; Fin 1];
     position_size := None |}.

(** A table with both required columns and no row, and one with a single row. *)
Definition empty_input : DataFrame :=
  {| index := []; Close := Some []; position := Some []; position_size := None |}.

Definition one_bar_input : DataFrame :=
  {| index := [day 0];
     Close := Some [Fin 100];
     position := Some [Fin 1];
     position_size := None |}.

(** Every entry of a series is the value [v]. *)
Definition constant (v : float) (s : Series) : Prop := Forall (eq v) s.

(** A table that is long on every bar, and one that is flat on every bar. *)
Definition always_long_input : DataFrame :=
  {| index := [day 0; day 1; day 2];
     Close := Some [Fin 100; Fin 110; Fin 99];
     position := Some [Fin 1; Fin 1; Fin 1];
     position_size := None |}.

Definition always_flat_input : DataFrame :=
  {| index := [day 0; day 1; day 2];
     Close := Some [Fin 100; Fin 110; Fin 99];
     position := Some [Fin 0; Fin 0; Fin 0];
     position_size := Some [Fin (1 # 2); Fin 1; Fin 1] |}.

(** A trade log in which every trade is entered no earlier than the one
    before it was exited. *)
Fixpoint chronological (log : list Trade) : Prop :=
  match log with
  | a :: (b :: _) as r => (exit_time a <= entry_time b)%Z /\ chronological r
  | _ => True
  end.

(** The loop state when every bar before time [t] has been read: the trades
    were closed before [t], each after it was entered and in order, and an
    open entry was made before [t] and not before any exit. *)
Definition ordered_before (t : Z) (st : LoopState) : Prop :=
  Forall (fun tr => (entry_time tr < exit_time tr)%Z /\ (exit_time tr < t)%Z) (snd st) /\
  chronological (snd st) /\
  match fst st with
  | Some e => (at_time e < t)%Z /\
              Forall (fun tr => (exit_time tr <= at_time e)%Z) (snd st)
  | None => True
  end.

(** A trade between two prices of the [Close] column, its pnl being the
    price move over the entry price.  A long trade wins exactly when it exits
    above its entry price and loses exactly when it exits below it, and its
    pnl is not below -1; a short trade wins exactly when it exits below its
    entry price and loses exactly when it exits above it, and its pnl is not
    above 1. *)
Definition priced_from (close : Series) (t : Trade) : Prop :=
  In (entry_price t) close /\ In (exit_price t) close /\
  bare_price_ratio t /\
  exists en ex,
    entry_price t = Fin en /\ exit_price t = Fin ex /\
    match direction t with
    | Long => (positive (pnl t) <-> en < ex) /\
              (negative (pnl t) <-> ex < en) /\
              (pnl t <? Fin (-1))%F = false
    | Short => (positive (pnl t) <-> ex < en) /\
               (negative (pnl t) <-> en < ex) /\
               (Fin 1 <? pnl t)%F = false
    end.

(** The scenario with a size column that is 1 on every bar. *)
Definition full_sized_input : DataFrame :=
  {| index := [day 0; day 1; day 2; day 3];
     Close := Some [Fin 100; Fin 110; Fin 99; Fin 99];
     position := Some [Fin 0; Fin 1; Fin 1; Fin 0];
     position_size := Some [Fin 1; Fin 1; Fin 1; Fin 1] |}.

(** * Properties *)

(** ** Lists and series *)

Section ListFacts.

Context {A B C : Type}.

Lemma map2_length (f : A -> B -> C) (l : list A) (m : list B) :
  List.length (map2 f l m) = Nat.min (List.length l) (List.length m).
Proof.
  revert m; induction l as [|a l IH]; intros [|b m]; simpl; auto.
Qed.

Lemma map2_nth_error (f : A -> B -> C) (l : list A) (m : list B) (i : nat) :
  nth_error (map2 f l m) i =
  match nth_error l i, nth_error m i with
  | Some a, Some b => Some (f a b)
  | _, _ => None
  end.
Proof.
  revert m i; induction l as [|a l IH]; intros [|b m] [|i]; simpl; auto.
  destruct (nth_error l i); reflexivity.
Qed.

Lemma removelast_length (l : list A) :
  List.length (removelast l) = pred (List.length l).
Proof.
  induction l as [|a [|b l] IH]; simpl in *; auto.
Qed.

Lemma removelast_nth_error (l : list A) (i : nat) :
  (S i < List.length l)%nat -> nth_error (removelast l) i = nth_error l i.
Proof.
  revert i; induction l as [|a [|b l] IH]; intros i Hi; simpl in *; try lia.
  destruct i as [|i]; [reflexivity|].
  apply IH; lia.
Qed.

End ListFacts.

Lemma shift_length (s : Series) : List.length (shift s) = List.length s.
Proof.
  destruct s as [|x s]; [reflexivity|].
  unfold shift. cbn [List.length]. rewrite removelast_length. reflexivity.
Qed.

Lemma shift_head (s : Series) : s <> [] -> nth_error (shift s) 0 = Some NaN.
Proof. destruct s; [congruence | reflexivity]. Qed.

Lemma shift_nth_error (s : Series) (i : nat) :
  (S i < List.length s)%nat -> nth_error (shift s) (S i) = nth_error s i.
Proof.
  intros Hi. destruct s as [|x s]; [simpl in Hi; lia|].
  unfold shift. cbn [nth_error]. now apply removelast_nth_error.
Qed.

(** ** The scenario of the specification *)

(** C1, as stated, fails: on prices 100, 110, 99, 99 with positions 0, 1, 1, 0
    and cost 0 the reconstructor does not emit a single Long trade entered at
    price 100. *)
Lemma scenario_trade_not_entered_at_100 :
  ~ exists t, identify_trades scenario_frame = [t] /\ expected_scenario_trade t.
Proof.
  intros [t [Ht [_ [Hprice _]]]].
  vm_compute in Ht. injection Ht as <-. discriminate Hprice.
Qed.

(** C1, amended: on that input, whatever the four timestamps, exactly one
    trade is emitted; it is Long, entered at the close of the bar where the
    position first is 1 (price 110, second timestamp), exited at price 99 at
    the fourth timestamp, with pnl (99 - 110) / 110 = -0.1. *)
Theorem scenario_trade_entered_at_close (t0 t1 t2 t3 : Timestamp) :
  identify_trades
    (derive_columns [t0; t1; t2; t3]
                    [Fin 100; Fin 110; Fin 99; Fin 99]
                    [Fin 0; Fin 1; Fin 1; Fin 0] None (Fin 0))
  = [ {| entry_time := t1; exit_time := t3;
         entry_price := Fin 110; exit_price := Fin 99;
         direction := Long; pnl := Fin (-1 # 10) |} ].
Proof. reflexivity. Qed.

(** ** The one-bar lag of the effective position *)

Lemma exposure_nth_error pos size i :
  exposure pos size i = nth_error (exposures pos size) i.
Proof.
  destruct size as [sz|]; [|reflexivity].
  unfold exposure, exposures, Series.mul. now rewrite map2_nth_error.
Qed.

Lemma exposure_length pos size :
  sizes_fit pos size -> List.length (exposures pos size) = List.length pos.
Proof.
  destruct size as [sz|]; simpl; [|reflexivity].
  intros H. unfold Series.mul. rewrite map2_length, H. apply Nat.min_id.
Qed.

(** C3, as stated, fails: the effective position of the first bar is the
    missing value, not zero. *)
Lemma effective_position_first_is_not_zero :
  nth_error (effective_position scenario_frame) 0 = Some NaN /\
  ~ nth_error (effective_position scenario_frame) 0 = Some (Fin 0).
Proof. split; [reflexivity | discriminate]. Qed.

(** C3, amended: for every table whose columns have equal length, the
    effective position at bar [i+1] is the position of bar [i] times the size
    of bar [i] (the position alone without a size column); at the first bar the
    effective position and the strategy return are missing ([NaN]), not zero;
    and at every bar the strategy return is the effective position times the
    period return of that bar. *)
Theorem effective_position_is_lagged idx close pos size cost :
  List.length close = List.length pos ->
  sizes_fit pos size ->
  let df := derive_columns idx close pos size cost in
  (pos <> [] ->
     nth_error (effective_position df) 0 = Some NaN /\
     nth_error (strategy_returns df) 0 = Some NaN) /\
  (forall i, (S i < List.length pos)%nat ->
     nth_error (effective_position df) (S i) = exposure pos size i /\
     exposure pos size i <> None) /\
  (forall i, (i < List.length pos)%nat ->
     exists e r,
       nth_error (effective_position df) i = Some e /\
       nth_error (returns df) i = Some r /\
       nth_error (strategy_returns df) i = Some (e * r)%F).
Proof.
  intros Hclose Hsize df.
  set (ex := exposures pos size).
  assert (Hlen : List.length ex = List.length pos) by now apply exposure_length.
  assert (Heff : effective_position df = shift ex)
    by (subst df ex; destruct size; reflexivity).
  assert (Hret : List.length (returns df) = List.length pos).
  { subst df. simpl. unfold pct_change.
    rewrite map2_length, shift_length, Hclose. apply Nat.min_id. }
  assert (Hstrat : forall i, nth_error (strategy_returns df) i =
            match nth_error (effective_position df) i, nth_error (returns df) i with
            | Some e, Some r => Some (e * r)%F
            | _, _ => None
            end).
  { intros i. subst df. simpl. unfold Series.mul at 1. apply map2_nth_error. }
  assert (Hsome : forall (l : Series) i, (i < List.length l)%nat ->
            exists x, nth_error l i = Some x).
  { intros l i Hi. destruct (nth_error l i) eqn:E; [eauto|].
    apply nth_error_None in E. lia. }
  split; [|split].
  - intros Hne.
    assert (Hex : ex <> []) by (destruct ex, pos; simpl in *; congruence).
    assert (H0 : nth_error (effective_position df) 0 = Some NaN)
      by (rewrite Heff; now apply shift_head).
    split; [exact H0|].
    rewrite Hstrat, H0.
    destruct (Hsome (returns df) 0%nat) as [r ->]; [|reflexivity].
    rewrite Hret. destruct pos; [congruence | simpl; lia].
  - intros i Hi. rewrite Heff, shift_nth_error by lia.
    rewrite exposure_nth_error. split; [reflexivity|].
    intros E. change (nth_error ex i = None) in E.
    destruct (Hsome ex i) as [x Hx]; [lia | congruence].
  - intros i Hi.
    destruct (Hsome (effective_position df) i) as [e He].
    { rewrite Heff, shift_length. lia. }
    destruct (Hsome (returns df) i) as [r Hr]; [lia|].
    exists e, r. rewrite Hstrat, He, Hr. auto.
Qed.

Lemma effective_position_is_lagged_witness :
  nth_error
    (effective_position
       (derive_columns [day 0; day 1; day 2] [Fin 100; Fin 110; Fin 99]
                       [Fin 1; Fin (-1); Fin 0]
                       (Some [Fin (1 # 2); Fin 1; Fin 1]) (Fin 0))) 1
  = Some (Fin (1 # 2)).
Proof.
  pose proof (@effective_position_is_lagged
                [day 0; day 1; day 2] [Fin 100; Fin 110; Fin 99]
                [Fin 1; Fin (-1); Fin 0]
                (Some [Fin (1 # 2); Fin 1; Fin 1]) (Fin 0)
                eq_refl eq_refl) as [_ [H _]].
  destruct (H 0%nat) as [E _]; [simpl; lia|].
  exact E.
Defined.

(** ** [backtest] returns a report for every table of at least two rows *)

Lemma cumprod_from_length acc s : List.length (cumprod_from acc s) = List.length s.
Proof.
  revert acc; induction s as [|x s IH]; intros acc; simpl; [reflexivity|].
  destruct (is_nan x); simpl; now rewrite IH.
Qed.

Lemma cumprod_length s : List.length (cumprod s) = List.length s.
Proof.
  destruct s as [|x s]; simpl; [reflexivity|].
  destruct (is_nan x); simpl; now rewrite cumprod_from_length.
Qed.

Lemma build_equity_length net : List.length (build_equity net) = List.length net.
Proof.
  unfold build_equity, fillna.
  now rewrite length_map, cumprod_length, length_map.
Qed.

Lemma derived_net_length idx close pos size cost :
  List.length close = List.length pos ->
  sizes_fit pos size ->
  List.length (net_returns (derive_columns idx close pos size cost))
  = List.length pos.
Proof.
  intros Hc Hs. simpl.
  pose proof (exposure_length pos size Hs) as He.
  unfold Series.sub, Series.mul at 1, scale, Series.abs, diff, pct_change.
  rewrite !map2_length, !length_map, !map2_length, !shift_length.
  destruct size as [sz|]; rewrite shift_length; simpl in He; lia.
Qed.

Section Totality.

Variable qsqrt : Q -> Q.

Lemma insert_key_In y a l : In y (insert_key a l) -> y = a \/ In y l.
Proof.
  induction l as [|z l IH]; simpl.
  - intros [<-|[]]; auto.
  - destruct (a <? z)%Z; [simpl; intuition|].
    destruct (a =? z)%Z; [simpl; intuition|].
    simpl. intros [<-|H]; [auto|]. destruct (IH H); auto.
Qed.

Lemma group_keys_In y s : In y (group_keys s) -> In y (years_of s).
Proof.
  unfold group_keys. fold (years_of s).
  induction (years_of s) as [|a l IH]; simpl; [auto|].
  intros H. destruct (insert_key_In _ _ _ H); auto.
Qed.

Lemma year_slice_present y s : In y (years_of s) -> year_slice s y <> [].
Proof.
  unfold year_slice, years_of.
  induction s as [|[t v] s IH]; simpl; [tauto|].
  intros [E|H].
  - rewrite E, Z.eqb_refl. discriminate.
  - destruct (year t =? y)%Z; [discriminate | auto].
Qed.

Lemma get_group_present y s :
  In y (years_of s) -> List.length s <> 1%nat ->
  exists g, get_group s y = Ok g /\ g <> [] /\ g = year_slice s y.
Proof.
  intros H Hl. apply year_slice_present in H. unfold get_group.
  apply Nat.eqb_neq in Hl. rewrite Hl.
  destruct (year_slice s y) as [|x g]; [congruence|].
  eexists; repeat split; discriminate.
Qed.

Lemma year_stat_returns year_returns year_equity ppy :
  year_equity <> [] ->
  exists st, year_stat qsqrt year_returns year_equity ppy = Ok st /\
             yearly_max_dd st = Series.min (drawdown_series year_equity).
Proof.
  intros H. destruct year_equity as [|x r]; [congruence|].
  unfold year_stat. simpl. eexists; split; reflexivity.
Qed.

Lemma yearly_loop_returns years rets equity ppy :
  (forall y, In y years -> In y (years_of rets)) ->
  years_of rets = years_of equity ->
  List.length rets <> 1%nat ->
  exists m, yearly_loop qsqrt years rets equity ppy = Ok m.
Proof.
  intros Hin Hsame Hl.
  assert (Hl' : List.length equity <> 1%nat).
  { apply (f_equal (@List.length _)) in Hsame. unfold years_of in Hsame.
    rewrite !length_map in Hsame. congruence. }
  induction years as [|y later IH]; simpl.
  - eexists; reflexivity.
  - destruct (get_group_present y rets) as [g [-> _]];
      [apply Hin; now left | assumption |].
    destruct (get_group_present y equity) as [e [-> [He _]]];
      [rewrite <- Hsame; apply Hin; now left | assumption |].
    simpl.
    destruct (year_stat_returns g ppy He) as [st [-> _]]. simpl.
    destruct IH as [m ->]; [intros; apply Hin; now right|].
    simpl. eexists; reflexivity.
Qed.

Lemma years_of_combine (idx : list Timestamp) (s t : Series) :
  List.length s = List.length t ->
  years_of (combine idx s) = years_of (combine idx t).
Proof.
  unfold years_of. revert s t.
  induction idx as [|i idx IH]; intros [|a s] [|b t] H; simpl in *;
    try discriminate; try reflexivity.
  f_equal. apply IH. lia.
Qed.

Lemma calculate_all_metrics_returns data net cost :
  net <> [] ->
  List.length (combine (df_index data) net) <> 1%nat ->
  exists m, calculate_all_metrics qsqrt data net cost = Ok m /\
            equity_curve m = build_equity net /\
            trades m = identify_trades data.
Proof.
  intros Hne Hrows. unfold calculate_all_metrics.
  assert (He : build_equity net <> []).
  { intros E. apply (f_equal (@List.length _)) in E.
    rewrite build_equity_length in E. destruct net; [congruence | discriminate]. }
  unfold calculate_total_return.
  destruct (build_equity net) as [|e0 er] eqn:Eq; [congruence|].
  cbn [iloc_last bind].
  destruct (yearly_loop_returns
              (group_keys (combine (df_index data) net))
              (combine (df_index data) net)
              (combine (df_index data) (e0 :: er))
              (infer_frequency (df_index data))) as [ym Hym].
  - intros y. apply group_keys_In.
  - apply years_of_combine. rewrite <- Eq, build_equity_length. reflexivity.
  - exact Hrows.
  - unfold calculate_yearly_metrics. rewrite Hym. cbn [bind].
    eexists; repeat split; reflexivity.
Qed.

Lemma backtest_returns data close pos cost :
  Close data = Some close ->
  position data = Some pos ->
  well_formed data ->
  (2 <= List.length (index data))%nat ->
  exists m, backtest qsqrt data cost = Ok m /\
    equity_curve m =
      build_equity
        (net_returns (derive_columns (index data) close pos (position_size data) cost)) /\
    trades m =
      identify_trades (derive_columns (index data) close pos (position_size data) cost).
Proof.
  intros Hc Hp [Wc [Wp Ws]] Hidx.
  unfold backtest. rewrite Hc, Hp.
  rewrite Hc in Wc. rewrite Hp in Wp. simpl in Wc, Wp.
  assert (Hn : List.length
                 (net_returns (derive_columns (index data) close pos
                                 (position_size data) cost))
               = List.length (index data)).
  { rewrite derived_net_length; [congruence | congruence |].
    unfold sizes_fit. destruct (position_size data); simpl in *; congruence. }
  apply calculate_all_metrics_returns.
  - intros E. rewrite E in Hn. simpl in Hn. lia.
  - rewrite length_combine, Hn. cbn [df_index derive_columns]. lia.
Qed.

End Totality.

(** ** Input validation *)

Section Validation.

Variable qsqrt : Q -> Q.



End Validation.




(** ** Finite values *)

Lemma fadd_finite x y : finite x -> finite y -> finite (x + y)%F.
Proof. destruct x, y; simpl; auto; discriminate. Qed.

Lemma fsub_finite x y : finite x -> finite y -> finite (x - y)%F.
Proof. destruct x, y; simpl; auto; discriminate. Qed.

Lemma fmul_finite x y : finite x -> finite y -> finite (x * y)%F.
Proof. destruct x, y; simpl; auto; discriminate. Qed.

Lemma fabs_finite x : finite x -> finite (fabs x).
Proof. destruct x; simpl; auto. Qed.

Lemma Qeq_bool_pos q : 0 < q -> Qeq_bool q 0 = false.
Proof.
  intros H. destruct (Qeq_bool q 0) eqn:E; [|reflexivity].
  apply Qeq_bool_iff in E. lra.
Qed.

Lemma fdiv_finite x y : finite x -> positive_price y -> finite (x / y)%F.
Proof.
  destruct x, y; simpl; try discriminate; try tauto.
  intros _ H. now rewrite (Qeq_bool_pos H).
Qed.

Lemma positive_price_finite x : positive_price x -> finite x.
Proof. destruct x; simpl; tauto || reflexivity. Qed.

Lemma valid_position_finite p : valid_position p -> finite p.
Proof. intros [->|[->| ->]]; reflexivity. Qed.

Lemma valid_size_finite s : valid_size s -> finite s.
Proof. destruct s; simpl; tauto || reflexivity. Qed.

Lemma finite_not_nan x : finite x -> is_nan x = false.
Proof. destruct x; simpl; auto; discriminate. Qed.

Section ForallFacts.

Context {A B C : Type}.

Lemma Forall_map2 (P : A -> Prop) (Q : B -> Prop) (R : C -> Prop)
    (f : A -> B -> C) (l : list A) (m : list B) :
  (forall a b, P a -> Q b -> R (f a b)) ->
  Forall P l -> Forall Q m -> Forall R (map2 f l m).
Proof.
  intros Hf Hl. revert m.
  induction Hl as [|a l Ha Hl IH]; intros m Hm; simpl; [constructor|].
  destruct Hm as [|b m Hb Hm]; constructor; auto.
Qed.

Lemma Forall_removelast (P : A -> Prop) (l : list A) :
  Forall P l -> Forall P (removelast l).
Proof.
  induction 1 as [|a l Ha Hl IH]; simpl; [constructor|].
  destruct l; [constructor | constructor; auto].
Qed.

Lemma Forall_take (P : A -> Prop) (n : nat) (l : list A) :
  Forall P l -> Forall P (firstn n l).
Proof.
  intros H. revert n. induction H as [|a l Ha Hl IH]; intros [|n]; simpl;
    constructor; auto.
Qed.

Lemma map2_removelast (f : A -> B -> C) (l : list A) (x : B) (r : list B) :
  (List.length l <= List.length r)%nat ->
  map2 f l (removelast (x :: r)) = map2 f l (x :: r).
Proof.
  revert x r; induction l as [|a l IH]; intros x r H; [reflexivity|].
  destruct r as [|y r]; [simpl in H; lia|].
  change (removelast (x :: y :: r)) with (x :: removelast (y :: r)).
  simpl map2. f_equal. apply IH. simpl in H; lia.
Qed.

End ForallFacts.

(** ** Shape of the derived columns *)

Lemma shift_cons x (s : Series) : shift (x :: s) = NaN :: removelast (x :: s).
Proof. reflexivity. Qed.

Lemma fdiv_nan_r x : (x / NaN)%F = NaN.
Proof. now destruct x. Qed.

Lemma fsub_nan_r x : (x - NaN)%F = NaN.
Proof. now destruct x. Qed.

Lemma fmul_nan_r x : (x * NaN)%F = NaN.
Proof. now destruct x. Qed.

Lemma pct_change_cons x (s : Series) :
  pct_change (x :: s) =
  NaN :: map2 (fun cur prev => cur / prev - Fin 1)%F s (x :: s).
Proof.
  unfold pct_change. rewrite shift_cons. cbn [map2].
  rewrite fdiv_nan_r. f_equal. apply map2_removelast. lia.
Qed.

Lemma diff_cons x (s : Series) :
  diff (x :: s) = NaN :: map2 (fun cur prev => cur - prev)%F s (x :: s).
Proof.
  unfold diff. rewrite shift_cons. cbn [map2].
  rewrite fsub_nan_r. f_equal. apply map2_removelast. lia.
Qed.

Lemma derived_net_returns idx close pos size cost :
  net_returns (derive_columns idx close pos size cost) =
  Series.sub
    (Series.mul (shift (exposures pos size)) (pct_change close))
    (scale (Series.abs (diff pos)) cost).
Proof. unfold exposures. destruct size; reflexivity. Qed.

(** The first net return of a derived frame is always missing. *)
Lemma derived_net_returns_head idx close pos size cost :
  net_returns (derive_columns idx close pos size cost) = [] \/
  exists rest, net_returns (derive_columns idx close pos size cost) = NaN :: rest.
Proof.
  rewrite derived_net_returns.
  destruct (exposures pos size) as [|e0 er]; [left; reflexivity|].
  destruct close as [|c0 cr]; [left; reflexivity|].
  destruct pos as [|p0 pr].
  { left; reflexivity. }
  right. rewrite shift_cons, pct_change_cons, diff_cons.
  unfold Series.sub, Series.mul, scale, Series.abs. cbn [map map2 fabs fmul fsub].
  eexists; reflexivity.
Qed.

Lemma derived_net_returns_finite idx close pos size cost :
  Forall positive_price close ->
  Forall finite pos ->
  (forall sz, size = Some sz -> Forall finite sz) ->
  finite cost ->
  pos <> [] -> List.length close = List.length pos -> sizes_fit pos size ->
  exists rest,
    net_returns (derive_columns idx close pos size cost) = NaN :: rest /\
    Forall finite rest.
Proof.
  intros Hc Hp Hs Hcost Hne Hlen Hfit.
  rewrite derived_net_returns.
  assert (He : Forall finite (exposures pos size)).
  { unfold exposures. destruct size as [sz|]; [|assumption].
    apply Forall_map2 with (P := finite) (Q := finite);
      [apply fmul_finite | assumption | now apply Hs]. }
  assert (Hel : List.length (exposures pos size) = List.length pos)
    by now apply exposure_length.
  destruct pos as [|p0 pr]; [congruence|].
  destruct close as [|c0 cr]; [discriminate|].
  destruct (exposures (p0 :: pr) size) as [|e0 er]; [discriminate|].
  rewrite shift_cons, pct_change_cons, diff_cons.
  unfold Series.sub, Series.mul, scale, Series.abs. cbn [map map2 fabs fmul fsub].
  eexists; split; [reflexivity|].
  apply Forall_map2 with (P := finite) (Q := finite); [apply fsub_finite | |].
  - apply Forall_map2 with (P := finite) (Q := finite); [apply fmul_finite | |].
    + now apply Forall_removelast.
    + inversion Hc as [|? ? Hc0 Hcr]; subst.
      apply Forall_map2 with (P := finite) (Q := positive_price).
      * intros a b Ha Hb. apply fsub_finite; [|reflexivity].
        now apply fdiv_finite.
      * eapply Forall_impl; [|exact Hcr]. apply positive_price_finite.
      * assumption.
  - apply Forall_forall. intros x Hx.
    apply in_map_iff in Hx as [y [<- Hy]].
    apply in_map_iff in Hy as [z [<- Hz]].
    apply fmul_finite; [|assumption]. apply fabs_finite.
    revert z Hz. apply Forall_forall.
    inversion Hp as [|? ? Hp0 Hpr]; subst.
    apply Forall_map2 with (P := finite) (Q := finite);
      [apply fsub_finite | assumption | assumption].
Qed.

(** ** The equity curve *)

Lemma fold_fmul_finite l acc :
  finite acc -> Forall finite l -> finite (fold_left fmul l acc).
Proof.
  intros Ha Hl. revert acc Ha.
  induction Hl as [|x l Hx Hl IH]; intros acc Ha; simpl; [assumption|].
  apply IH. now apply fmul_finite.
Qed.

Lemma cumprod_from_nth_error l acc i :
  finite acc -> Forall finite l -> (i < List.length l)%nat ->
  nth_error (cumprod_from acc l) i = Some (fold_left fmul (firstn (S i) l) acc).
Proof.
  intros Ha Hl. revert acc Ha i.
  induction Hl as [|x l Hx Hl IH]; intros acc Ha i Hi; [simpl in Hi; lia|].
  cbn [cumprod_from]. rewrite (finite_not_nan Hx).
  destruct i as [|i]; [reflexivity|].
  cbn [nth_error]. rewrite IH; [reflexivity | now apply fmul_finite | simpl in Hi; lia].
Qed.

Lemma fillna_nth_error v s i x :
  nth_error s i = Some x -> finite x -> nth_error (fillna v s) i = Some x.
Proof.
  intros H Hx. unfold fillna. rewrite nth_error_map, H. simpl.
  now rewrite (finite_not_nan Hx).
Qed.

Lemma build_equity_cons rest :
  build_equity (NaN :: rest) =
  Fin 1 :: fillna (Fin 1) (cumprod_from (Fin 1) (map (fadd (Fin 1)) rest)).
Proof. reflexivity. Qed.

Lemma build_equity_running_product rest i :
  Forall finite rest -> (i <= List.length rest)%nat ->
  nth_error (build_equity (NaN :: rest)) i =
  Some (product (map (fadd (Fin 1)) (firstn i rest))).
Proof.
  intros Hr Hi. rewrite build_equity_cons.
  destruct i as [|i]; [reflexivity|].
  cbn [nth_error].
  assert (Hm : Forall finite (map (fadd (Fin 1)) rest)).
  { apply Forall_forall. intros x Hx. apply in_map_iff in Hx as [y [<- Hy]].
    apply fadd_finite; [reflexivity|]. revert y Hy. now apply Forall_forall. }
  unfold product. rewrite <- firstn_map.
  apply fillna_nth_error.
  - apply cumprod_from_nth_error; [reflexivity | assumption|].
    rewrite length_map. lia.
  - apply fold_fmul_finite; [reflexivity|]. now apply Forall_take.
Qed.

Section Report.

Variable qsqrt : Q -> Q.

Lemma calculate_all_metrics_Ok data net cost m :
  calculate_all_metrics qsqrt data net cost = Ok m ->
  equity_curve m = build_equity net /\ trades m = identify_trades data /\ net <> [].
Proof.
  unfold calculate_all_metrics, calculate_total_return.
  destruct (iloc_last (build_equity net)) as [last_value|] eqn:E; simpl;
    [|discriminate].
  destruct (calculate_yearly_metrics _ _ _ _); simpl; [|discriminate].
  intros [= <-]. simpl. repeat split.
  intros ->. discriminate E.
Qed.

Lemma backtest_Ok data close pos cost m :
  backtest qsqrt data cost = Ok m ->
  Close data = Some close -> position data = Some pos ->
  let df := derive_columns (index data) close pos (position_size data) cost in
  equity_curve m = build_equity (net_returns df) /\
  trades m = identify_trades df /\
  net_returns df <> [].
Proof.
  intros H Hc Hp. unfold backtest in H. rewrite Hc, Hp in H.
  now apply calculate_all_metrics_Ok in H.
Qed.

(** C4: in every report the equity curve starts at exactly 1, whatever the
    input; and for a valid input with a finite cost the value at bar [i] is
    the product of [1 + net_return] over the bars 1 to [i], the first net
    return (which is missing) contributing nothing. *)
Theorem equity_curve_is_running_product data close pos cost m :
  backtest qsqrt data cost = Ok m ->
  Close data = Some close -> position data = Some pos ->
  let net :=
    net_returns (derive_columns (index data) close pos (position_size data) cost) in
  nth_error (equity_curve m) 0 = Some (Fin 1) /\
  (valid_input data close pos -> finite cost ->
   List.length (equity_curve m) = List.length (index data) /\
   forall i, (i < List.length (index data))%nat ->
     nth_error (equity_curve m) i =
     Some (product (map (fadd (Fin 1)) (firstn i (tl net))))).
Proof.
  intros H Hc Hp net.
  destruct (@backtest_Ok data close pos cost m H Hc Hp) as [He [_ Hne]]. fold net in He, Hne.
  rewrite He. split.
  - destruct (derived_net_returns_head (index data) close pos (position_size data) cost)
      as [E|[rest E]]; fold net in E; [congruence|].
    rewrite E. reflexivity.
  - intros [[Wc [Wp Ws]] _ [_ Vc] [_ Vp] Vs] Hcost.
    rewrite Hc in Wc. rewrite Hp in Wp. simpl in Wc, Wp.
    assert (Hfit : sizes_fit pos (position_size data)).
    { unfold sizes_fit. destruct (position_size data); simpl in *; congruence. }
    assert (Hlen : List.length net = List.length pos).
    { apply derived_net_length; congruence. }
    destruct (@derived_net_returns_finite (index data) close pos (position_size data) cost)
      as [rest [E Hrest]]; auto.
    + eapply Forall_impl; [|exact Vp]. apply valid_position_finite.
    + intros sz Hsz. eapply Forall_impl; [|exact (Vs sz Hsz)]. apply valid_size_finite.
    + intros ->. apply Hne. now destruct net.
    + congruence.
    + fold net in E. rewrite build_equity_length, Hlen. split; [congruence|].
      intros i Hi. rewrite E. cbn [tl].
      apply build_equity_running_product; [assumption|].
      rewrite E in Hlen. simpl in Hlen. lia.
Qed.

End Report.

Lemma equity_curve_is_running_product_witness :
  exists m,
    backtest sqrt_of_squares scenario_input (Fin 0) = Ok m /\
    nth_error (equity_curve m) 0 = Some (Fin 1) /\
    nth_error (equity_curve m) 2 = Some (Fin (9 # 10)).
Proof.
  destruct (backtest sqrt_of_squares scenario_input (Fin 0)) as [m|e] eqn:E;
    [|vm_compute in E; discriminate E].
  exists m. split; [reflexivity|].
  destruct (@equity_curve_is_running_product sqrt_of_squares scenario_input
              _ _ (Fin 0) m E eq_refl eq_refl) as [H0 H].
  split; [exact H0|].
  assert (V : valid_input scenario_input
                [Fin 100; Fin 110; Fin 99; Fin 99] [Fin 0; Fin 1; Fin 1; Fin 0]).
  { constructor.
    - repeat split.
    - reflexivity.
    - split; [reflexivity|]. repeat constructor.
    - split; [reflexivity|].
      repeat (constructor; [unfold valid_position; auto|]). constructor.
    - discriminate. }
  destruct (H V eq_refl) as [_ Hi].
  rewrite (Hi 2%nat); [reflexivity | simpl; lia].
Defined.

(** ** The trade reconstructor *)

Lemma scan_snoc rows row : scan (rows ++ [row]) = step (scan rows) row.
Proof. unfold scan. now rewrite fold_left_app. Qed.

Lemma firstn_snoc {A : Type} (l : list A) (i : nat) (x : A) :
  nth_error l i = Some x -> firstn (S i) l = firstn i l ++ [x].
Proof.
  revert i; induction l as [|a l IH]; intros [|i] H; simpl in *; try discriminate.
  - now injection H as ->.
  - f_equal. now apply IH.
Qed.

Lemma step_appends st row :
  exists new, snd (step st row) = snd st ++ new /\ (List.length new <= 1)%nat.
Proof.
  unfold step. destruct (fst st) as [e|].
  - destruct (exits e (row_position row)).
    + exists [close_trade e row].
      destruct (row_position row != Fin 0)%F; simpl; auto.
    + exists []. rewrite app_nil_r. auto.
  - exists []. rewrite app_nil_r.
    destruct (row_position row != Fin 0)%F; simpl; auto.
Qed.

Lemma run_appends rows st :
  exists new, snd (fold_left step rows st) = snd st ++ new.
Proof.
  revert st; induction rows as [|row rows IH]; intros st; simpl.
  - exists []. now rewrite app_nil_r.
  - destruct (IH (step st row)) as [new ->].
    destruct (step_appends st row) as [one [-> _]].
    exists (one ++ new). now rewrite app_assoc.
Qed.

(** The first trade closed after an entry carries that entry. *)
Lemma run_from_entry rows e ts :
  exists new,
    snd (fold_left step rows (Some e, ts)) = ts ++ new /\
    forall t, hd_error new = Some t ->
      entry_time t = at_time e /\ entry_price t = at_price e /\
      direction t = side (at_direction e).
Proof.
  revert ts; induction rows as [|row rows IH]; intros ts; simpl.
  - exists []. rewrite app_nil_r. split; [reflexivity | discriminate].
  - unfold step at 2. cbn [fst snd].
    destruct (exits e (row_position row)); [|apply IH].
    destruct (row_position row != Fin 0)%F;
      match goal with
      | |- context [fold_left step rows ?st'] =>
          destruct (run_appends rows st') as [new Hnew];
          exists (close_trade e row :: new); split;
          [ rewrite Hnew; simpl; now rewrite <- app_assoc
          | intros t [= <-]; repeat split ]
      end.
Qed.

Lemma step_tracks st p row :
  tracks st p -> valid_position p -> valid_position (row_position row) ->
  tracks (step st row) (row_position row) /\
  List.length (snd (step st row)) =
  (List.length (snd st) + if closes_position p (row_position row) then 1 else 0)%nat.
Proof.
  unfold tracks, step. destruct row as [ri rc rp].
  destruct st as [[e|] ts]; cbn [fst snd row_position].
  - intros [Hd Hp] Vp Vc. unfold exits. rewrite Hd.
    destruct Vp as [->|[->| ->]]; [|congruence|];
      destruct Vc as [->|[->| ->]]; cbn; rewrite ?Hd, ?length_app; cbn;
      (split; [try split; try reflexivity; try discriminate | lia]).
  - intros -> _ Vc.
    destruct Vc as [->|[->| ->]]; cbn;
      (split; [try split; try reflexivity; try discriminate | lia]).
Qed.

Lemma run_counts rows st p :
  tracks st p -> valid_position p ->
  Forall valid_position (map row_position rows) ->
  List.length (snd (fold_left step rows st)) =
  (List.length (snd st) + closing_transitions (p :: map row_position rows))%nat.
Proof.
  revert st p; induction rows as [|row rows IH]; intros st p Ht Vp Vr.
  - simpl. lia.
  - inversion Vr as [|? ? Vc Vrest]; subst.
    destruct (@step_tracks st p row Ht Vp Vc) as [Ht' Hlen].
    cbn [fold_left map]. rewrite (IH _ _ Ht' Vc Vrest), Hlen.
    change (closing_transitions (p :: row_position row :: map row_position rows))
      with ((if closes_position p (row_position row) then 1 else 0)
            + closing_transitions (row_position row :: map row_position rows))%nat.
    lia.
Qed.

Lemma scan_tracks rows :
  Forall valid_position (map row_position rows) ->
  tracks (scan rows) (last (map row_position rows) (Fin 0)) /\
  valid_position (last (map row_position rows) (Fin 0)).
Proof.
  induction rows as [|row rows IH] using rev_ind; intros V.
  - split; [reflexivity | right; left; reflexivity].
  - rewrite map_app in V. apply Forall_app in V as [Vr Vc].
    inversion Vc as [|? ? Vrow _]; subst.
    destruct (IH Vr) as [Ht Vp].
    rewrite scan_snoc, map_app. cbn [map]. rewrite last_last. split; [|assumption].
    now apply (@step_tracks _ _ row Ht Vp Vrow).
Qed.

Lemma iterrows_nth_error data i row :
  nth_error (iterrows data) i = Some row ->
  nth_error (df_index data) i = Some (row_idx row) /\
  nth_error (df_Close data) i = Some (row_Close row) /\
  nth_error (df_position data) i = Some (row_position row).
Proof.
  unfold iterrows. rewrite !map2_nth_error.
  destruct (nth_error (df_index data) i); [|discriminate].
  destruct (nth_error (df_Close data) i); [|discriminate].
  destruct (nth_error (df_position data) i); [|discriminate].
  intros [= <-]. auto.
Qed.

Lemma rows_positions (idx : list Timestamp) (close pos : Series) :
  List.length idx = List.length close -> List.length close = List.length pos ->
  map row_position
      (map2 (fun i cp => {| row_idx := i; row_Close := fst cp; row_position := snd cp |})
            idx (map2 pair close pos)) = pos.
Proof.
  revert close pos; induction idx as [|i idx IH]; intros [|c close] [|p pos] H1 H2;
    simpl in *; try discriminate; try reflexivity.
  f_equal. apply IH; lia.
Qed.

Lemma iterrows_positions idx close pos size cost :
  List.length idx = List.length close -> List.length close = List.length pos ->
  map row_position (iterrows (derive_columns idx close pos size cost)) = pos.
Proof. intros. unfold iterrows. simpl. now apply rows_positions. Qed.

Lemma position_change_nth_error idx close pos size cost i a b :
  nth_error pos i = Some a -> nth_error pos (S i) = Some b ->
  nth_error (position_change (derive_columns idx close pos size cost)) (S i)
  = Some (fabs (b - a)%F).
Proof.
  intros Ha Hb.
  change (position_change (derive_columns idx close pos size cost))
    with (Series.abs (diff pos)).
  unfold Series.abs, diff.
  rewrite nth_error_map, map2_nth_error, Hb, shift_nth_error, Ha; [reflexivity|].
  apply nth_error_Some. congruence.
Qed.

Lemma change_points_present data i c :
  nth_error (position_change data) i = Some c -> (c >? Fin 0)%F = true ->
  (List.length (change_points data) =? 0)%nat = false.
Proof.
  intros H Hc. apply nth_error_In in H.
  assert (Hin : In c (change_points data)) by (apply filter_In; auto).
  destruct (change_points data); [destruct Hin | reflexivity].
Qed.

(** C5: when the position goes directly from long to short (or from short to
    long) between two consecutive bars, the scan of the flip bar appends exactly
    one trade to the log; that trade closes the old direction at the flip
    bar's price and timestamp, and the state after the bar is an open position
    in the new direction entered at that same price and timestamp, so that the
    next trade of the final log, if there is one, was entered at the flip bar. *)
Theorem flip_closes_and_reopens idx close pos size cost i prev cur :
  List.length idx = List.length close -> List.length close = List.length pos ->
  Forall valid_position pos ->
  let data := derive_columns idx close pos size cost in
  nth_error (iterrows data) i = Some prev ->
  nth_error (iterrows data) (S i) = Some cur ->
  flip (row_position prev) (row_position cur) ->
  exists e before later,
    scan (firstn (S i) (iterrows data)) = (Some e, before) /\
    at_direction e = row_position prev /\
    scan (firstn (S (S i)) (iterrows data))
      = (Some (enter cur), before ++ [close_trade e cur]) /\
    identify_trades data = before ++ close_trade e cur :: later /\
    exit_time (close_trade e cur) = row_idx cur /\
    exit_price (close_trade e cur) = row_Close cur /\
    direction (close_trade e cur) = side (row_position prev) /\
    at_time (enter cur) = row_idx cur /\
    at_price (enter cur) = row_Close cur /\
    at_direction (enter cur) = row_position cur /\
    (forall t, hd_error later = Some t ->
       entry_time t = row_idx cur /\ entry_price t = row_Close cur /\
       direction t = side (row_position cur)).
Proof.
  intros H1 H2 V data Hprev Hcur Hflip.
  set (rows := iterrows data) in *.
  assert (Hpos : map row_position rows = pos) by now apply iterrows_positions.
  (* the state before the flip bar *)
  assert (Vfirst : Forall valid_position (map row_position (firstn i rows))).
  { rewrite <- firstn_map, Hpos. now apply Forall_take. }
  assert (Vprev : valid_position (row_position prev)).
  { destruct Hflip as [[-> _]|[-> _]]; unfold valid_position; auto. }
  destruct (scan_tracks _ Vfirst) as [Ht Vp].
  destruct (@step_tracks _ _ prev Ht Vp Vprev) as [Ht' _].
  rewrite <- scan_snoc, <- (firstn_snoc _ _ Hprev) in Ht'.
  destruct (scan (firstn (S i) rows)) as [[e|] before] eqn:Escan;
    unfold tracks in Ht'; cbn [fst] in Ht'.
  2:{ destruct Hflip as [[E _]|[E _]]; rewrite E in Ht'; discriminate. }
  destruct Ht' as [Hdir Hnz].
  (* the flip bar *)
  assert (Hstep : scan (firstn (S (S i)) rows)
                  = (Some (enter cur), before ++ [close_trade e cur])).
  { rewrite (firstn_snoc _ _ Hcur), scan_snoc, Escan.
    unfold step, exits. cbn [fst snd]. rewrite Hdir.
    destruct Hflip as [[-> ->]|[-> ->]]; reflexivity. }
  (* the rest of the series *)
  destruct (iterrows_nth_error _ _ Hprev) as [_ [_ Pa]].
  destruct (iterrows_nth_error _ _ Hcur) as [_ [_ Pb]].
  assert (Hid : identify_trades data = snd (scan rows)).
  { unfold identify_trades.
    rewrite (@change_points_present data (S i)
               (fabs (row_position cur - row_position prev)%F)); [reflexivity| |].
    - now apply position_change_nth_error.
    - destruct Hflip as [[-> ->]|[-> ->]]; reflexivity. }
  destruct (run_from_entry (skipn (S (S i)) rows) (enter cur)
              (before ++ [close_trade e cur])) as [later [Hrun Hnext]].
  exists e, before, later.
  repeat split; try assumption; try (now apply Hnext); try reflexivity.
  - rewrite Hid. rewrite <- (firstn_skipn (S (S i)) rows) at 1.
    unfold scan in *. rewrite fold_left_app, Hstep, Hrun.
    now rewrite <- app_assoc.
  - unfold close_trade, side. cbn [direction]. now rewrite Hdir.
Qed.

Lemma flip_closes_and_reopens_witness :
  exists later,
    identify_trades flip_frame =
    {| entry_time := day 0; exit_time := day 2;
       entry_price := Fin 100; exit_price := Fin 100;
       direction := Long; pnl := Fin 0 |} :: later.
Proof.
  destruct (@flip_closes_and_reopens
              [day 0; day 1; day 2; day 3]
              [Fin 100; Fin 100; Fin 100; Fin 100]
              [Fin 1; Fin 1; Fin (-1); Fin (-1)] None (Fin 0) 1
              {| row_idx := day 1; row_Close := Fin 100; row_position := Fin 1 |}
              {| row_idx := day 2; row_Close := Fin 100; row_position := Fin (-1) |})
    as [e [before [later [Hscan [_ [_ [Hid _]]]]]]].
  - reflexivity.
  - reflexivity.
  - repeat (constructor; [unfold valid_position; auto|]). constructor.
  - reflexivity.
  - reflexivity.
  - left. split; reflexivity.
  - vm_compute in Hscan. injection Hscan as <- <-.
    exists later. exact Hid.
Defined.

(** No change point means no closing transition. *)
Lemma closing_transitions_cons a b r :
  closing_transitions (a :: b :: r) =
  ((if closes_position a b then 1 else 0) + closing_transitions (b :: r))%nat.
Proof. reflexivity. Qed.

Lemma no_change_no_close p0 r :
  filter (fun c => c >? Fin 0)%F
         (map fabs (map2 (fun cur prev => cur - prev)%F r (p0 :: r))) = [] ->
  Forall valid_position (p0 :: r) ->
  closing_transitions (p0 :: r) = 0%nat.
Proof.
  revert p0; induction r as [|p1 r IH]; intros p0 Hf V; [reflexivity|].
  inversion V as [|? ? V0 V']; subst.
  inversion V' as [|? ? V1 _]; subst.
  cbn [map2 map filter] in Hf.
  destruct (fabs (p1 - p0) >? Fin 0)%F eqn:E; [discriminate|].
  rewrite closing_transitions_cons, (IH p1 Hf V').
  destruct V0 as [->|[->| ->]], V1 as [->|[->| ->]];
    solve [reflexivity | discriminate E].
Qed.

Lemma change_points_derived idx close p0 r size cost :
  change_points (derive_columns idx close (p0 :: r) size cost) =
  filter (fun c => c >? Fin 0)%F
         (map fabs (map2 (fun cur prev => cur - prev)%F r (p0 :: r))).
Proof.
  unfold change_points.
  change (position_change (derive_columns idx close (p0 :: r) size cost))
    with (Series.abs (diff (p0 :: r))).
  rewrite diff_cons. reflexivity.
Qed.

(** C6: for positions in {-1, 0, 1} the number of trades in the log equals
    the number of bars at which a position is closed (the position becomes
    flat, or flips to the other direction).  A position that is still open at
    the last bar adds nothing, and a series whose position never changes has
    an empty log. *)
Theorem trades_count_closing_transitions idx close pos size cost :
  List.length idx = List.length close -> List.length close = List.length pos ->
  Forall valid_position pos ->
  let data := derive_columns idx close pos size cost in
  List.length (identify_trades data) = closing_transitions pos /\
  ((forall p, In p pos -> p = hd (Fin 0) pos) -> identify_trades data = []).
Proof.
  intros H1 H2 V data.
  assert (Hcount : List.length (identify_trades data) = closing_transitions pos).
  { unfold identify_trades.
    destruct (List.length (change_points data) =? 0)%nat eqn:E.
    - destruct pos as [|p0 r]; [reflexivity|].
      apply Nat.eqb_eq in E. subst data.
      rewrite change_points_derived in E.
      symmetry. apply no_change_no_close; [|assumption].
      now destruct (filter _ _).
    - unfold scan.
      rewrite (@run_counts (iterrows data) (None, []) (Fin 0)).
      + subst data. rewrite iterrows_positions by assumption.
        destruct pos as [|p0 r]; reflexivity.
      + reflexivity.
      + right; left; reflexivity.
      + subst data. now rewrite iterrows_positions. }
  split; [exact Hcount|].
  intros Hconst.
  assert (Hz : closing_transitions pos = 0%nat).
  { clear - Hconst V. destruct pos as [|p0 r]; [reflexivity|].
    simpl in Hconst.
    assert (Hr : forall p, In p r -> p = p0) by (intros; apply Hconst; now right).
    inversion V as [|? ? V0 _]; subst. clear Hconst V.
    induction r as [|p1 r IH]; [reflexivity|].
    rewrite (Hr p1) in * by now left.
    rewrite closing_transitions_cons, IH by (intros; apply Hr; now right).
    destruct V0 as [->|[->| ->]]; reflexivity. }
  rewrite Hz in Hcount. now destruct (identify_trades data).
Qed.

Lemma trades_count_closing_transitions_witness :
  List.length
    (identify_trades
       (derive_columns [day 0; day 1; day 2; day 3; day 4]
                       [Fin 100; Fin 110; Fin 99; Fin 99; Fin 120]
                       [Fin 1; Fin (-1); Fin 0; Fin 1; Fin 1] None (Fin 0)))
  = 2%nat.
Proof.
  apply (@trades_count_closing_transitions
           [day 0; day 1; day 2; day 3; day 4]
           [Fin 100; Fin 110; Fin 99; Fin 99; Fin 120]
           [Fin 1; Fin (-1); Fin 0; Fin 1; Fin 1] None (Fin 0)).
  - reflexivity.
  - reflexivity.
  - repeat (constructor; [unfold valid_position; auto|]). constructor.
Defined.

(** ** The trade log does not depend on the position size *)

Lemma close_trade_bare e row : bare_price_ratio (close_trade e row).
Proof.
  unfold bare_price_ratio, close_trade. cbn [pnl direction entry_price exit_price].
  destruct (at_direction e == Fin 1)%F; reflexivity.
Qed.

Lemma step_bare st row :
  Forall bare_price_ratio (snd st) -> Forall bare_price_ratio (snd (step st row)).
Proof.
  intros H. unfold step. destruct (fst st) as [e|].
  - destruct (exits e (row_position row)); [|assumption].
    assert (Forall bare_price_ratio (snd st ++ [close_trade e row])).
    { apply Forall_app. split; [assumption|].
      constructor; [apply close_trade_bare | constructor]. }
    destruct (row_position row != Fin 0)%F; assumption.
  - destruct (row_position row != Fin 0)%F; assumption.
Qed.

Lemma run_bare rows st :
  Forall bare_price_ratio (snd st) ->
  Forall bare_price_ratio (snd (fold_left step rows st)).
Proof.
  revert st; induction rows as [|row rows IH]; intros st H; simpl; [assumption|].
  apply IH. now apply step_bare.
Qed.

Lemma identify_trades_bare data : Forall bare_price_ratio (identify_trades data).
Proof.
  unfold identify_trades.
  destruct (List.length (change_points data) =? 0)%nat; [constructor|].
  apply run_bare. constructor.
Qed.

Lemma identify_trades_ignores_size idx close pos size1 size2 cost1 cost2 :
  identify_trades (derive_columns idx close pos size1 cost1) =
  identify_trades (derive_columns idx close pos size2 cost2).
Proof. reflexivity. Qed.

(** C10: two well-formed tables of at least two rows with the same
    timestamps, prices and positions, whatever their size columns, both get a
    report, and the two reports carry the same trade log; the pnl of every
    trade in it is the price move from entry to exit divided by the entry
    price (sign reversed for a short trade), in which no size occurs. *)
Theorem trade_log_ignores_position_size qsqrt d1 d2 cost :
  same_but_size d1 d2 ->
  well_formed d1 -> well_formed d2 ->
  Close d1 <> None -> position d1 <> None ->
  (2 <= List.length (index d1))%nat ->
  exists m1 m2,
    backtest qsqrt d1 cost = Ok m1 /\
    backtest qsqrt d2 cost = Ok m2 /\
    trades m1 = trades m2 /\
    Forall bare_price_ratio (trades m1).
Proof.
  intros [Hi [Hc Hp]] W1 W2 Nc Np Ni.
  destruct (Close d1) as [close|] eqn:Ec; [|congruence].
  destruct (position d1) as [pos|] eqn:Ep; [|congruence].
  destruct (@backtest_returns qsqrt d1 close pos cost Ec Ep W1 Ni) as [m1 [B1 [_ T1]]].
  destruct (@backtest_returns qsqrt d2 close pos cost) as [m2 [B2 [_ T2]]];
    try congruence.
  exists m1, m2. repeat split; try assumption.
  - rewrite T1, T2, Hi. apply identify_trades_ignores_size.
  - rewrite T1. apply identify_trades_bare.
Qed.

Lemma trade_log_ignores_position_size_witness :
  exists m1 m2,
    backtest sqrt_of_squares scenario_input (Fin 0) = Ok m1 /\
    backtest sqrt_of_squares half_sized_input (Fin 0) = Ok m2 /\
    trades m1 = trades m2 /\
    Forall bare_price_ratio (trades m1).
Proof.
  apply (@trade_log_ignores_position_size sqrt_of_squares
           scenario_input half_sized_input (Fin 0)).
  - repeat split.
  - repeat split.
  - repeat split.
  - discriminate.
  - discriminate.
  - simpl. lia.
Defined.

(** ** Profit factor *)

Lemma positive_cases x :
  positive x <-> x = PInf \/ exists q, x = Fin q /\ 0 < q.
Proof.
  unfold positive, fgtb, fltb. destruct x as [q| | |]; simpl.
  - rewrite negb_true_iff. split.
    + intros H. right. exists q. split; [reflexivity|].
      destruct (Qlt_le_dec 0 q) as [L|L]; [assumption|].
      apply Qle_bool_iff in L. congruence.
    + intros [E|[q' [[= <-] L]]]; [discriminate|].
      destruct (Qle_bool q 0) eqn:E; [|reflexivity].
      apply Qle_bool_iff in E. lra.
  - split; auto.
  - split; [discriminate|]. intros [E|[q [E _]]]; discriminate.
  - split; [discriminate|]. intros [E|[q [E _]]]; discriminate.
Qed.

Lemma negative_cases x :
  negative x <-> x = NInf \/ exists q, x = Fin q /\ q < 0.
Proof.
  unfold negative, fltb. destruct x as [q| | |]; simpl.
  - rewrite negb_true_iff. split.
    + intros H. right. exists q. split; [reflexivity|].
      destruct (Qlt_le_dec q 0) as [L|L]; [assumption|].
      apply Qle_bool_iff in L. congruence.
    + intros [E|[q' [[= <-] L]]]; [discriminate|].
      destruct (Qle_bool 0 q) eqn:E; [|reflexivity].
      apply Qle_bool_iff in E. lra.
  - split; [discriminate|]. intros [E|[q [E _]]]; discriminate.
  - split; auto.
  - split; [discriminate|]. intros [E|[q [E _]]]; discriminate.
Qed.

Lemma fadd_positive a b :
  (a = Fin 0 \/ positive a) -> positive b -> positive (a + b)%F.
Proof.
  intros Ha Hb. apply positive_cases in Hb.
  assert (Ha' : a = PInf \/ exists q, a = Fin q /\ 0 <= q).
  { destruct Ha as [->|Ha]; [right; exists 0; split; [reflexivity | lra]|].
    apply positive_cases in Ha as [->|[q [-> L]]]; [auto|].
    right. exists q. split; [reflexivity | lra]. }
  apply positive_cases.
  destruct Ha' as [->|[x [-> Lx]]], Hb as [->|[y [-> Ly]]]; cbn [fadd]; auto.
  right. eexists; split; [reflexivity|].
  pose proof (Qred_correct (x + y)). lra.
Qed.

Lemma fadd_negative a b :
  (a = Fin 0 \/ negative a) -> negative b -> negative (a + b)%F.
Proof.
  intros Ha Hb. apply negative_cases in Hb.
  assert (Ha' : a = NInf \/ exists q, a = Fin q /\ q <= 0).
  { destruct Ha as [->|Ha]; [right; exists 0; split; [reflexivity | lra]|].
    apply negative_cases in Ha as [->|[q [-> L]]]; [auto|].
    right. exists q. split; [reflexivity | lra]. }
  apply negative_cases.
  destruct Ha' as [->|[x [-> Lx]]], Hb as [->|[y [-> Ly]]]; cbn [fadd]; auto.
  right. eexists; split; [reflexivity|].
  pose proof (Qred_correct (x + y)). lra.
Qed.

Lemma fold_fadd_positive l acc :
  positive acc -> Forall positive l -> positive (fold_left fadd l acc).
Proof.
  intros Ha Hl. revert acc Ha.
  induction Hl as [|x l Hx Hl IH]; intros acc Ha; simpl; [assumption|].
  apply IH. apply fadd_positive; auto.
Qed.

Lemma fold_fadd_negative l acc :
  negative acc -> Forall negative l -> negative (fold_left fadd l acc).
Proof.
  intros Ha Hl. revert acc Ha.
  induction Hl as [|x l Hx Hl IH]; intros acc Ha; simpl; [assumption|].
  apply IH. apply fadd_negative; auto.
Qed.

Lemma dropna_keeps (l : Series) :
  Forall (fun x => is_nan x = false) l -> dropna l = l.
Proof.
  induction 1 as [|x l Hx Hl IH]; simpl; [reflexivity|].
  now rewrite Hx, IH.
Qed.

Lemma sum_positive l : l <> [] -> Forall positive l -> positive (Series.sum l).
Proof.
  intros Hne Hl. unfold Series.sum. rewrite dropna_keeps.
  - destruct Hl as [|x l Hx Hl]; [congruence|]. cbn [fold_left].
    apply fold_fadd_positive; [|assumption]. apply fadd_positive; auto.
  - eapply Forall_impl; [|exact Hl]. intros x Hx. now destruct x.
Qed.

Lemma sum_negative l : l <> [] -> Forall negative l -> negative (Series.sum l).
Proof.
  intros Hne Hl. unfold Series.sum. rewrite dropna_keeps.
  - destruct Hl as [|x l Hx Hl]; [congruence|]. cbn [fold_left].
    apply fold_fadd_negative; [|assumption]. apply fadd_negative; auto.
  - eapply Forall_impl; [|exact Hl]. intros x Hx. now destruct x.
Qed.

Lemma winning_positive trades_df : Forall positive (winning trades_df).
Proof. apply Forall_forall. intros x Hx. now apply filter_In in Hx. Qed.

Lemma losing_negative trades_df : Forall negative (losing trades_df).
Proof. apply Forall_forall. intros x Hx. now apply filter_In in Hx. Qed.

Lemma fabs_negative_nonzero x : negative x -> (fabs x == Fin 0)%F = false.
Proof.
  intros H. apply negative_cases in H as [->|[q [-> L]]]; [reflexivity|].
  cbn [fabs feqb]. destruct (Qeq_bool _ 0) eqn:E; [|reflexivity].
  apply Qeq_bool_iff in E.
  pose proof (Qred_correct (Qabs q)). pose proof (Qabs_neg q). lra.
Qed.

(** C8: the profit factor is 0 for an empty trade log; with no losing trade it
    is +infinity when some trade wins and 0 when none does; and with at least
    one losing trade it is the sum of the positive pnl divided by the absolute
    value of the sum of the negative pnl.  The function is total: it yields a
    value on every trade log. *)
Theorem profit_factor_policy trades_df :
  (trades_df = [] -> calculate_profit_factor trades_df = Fin 0) /\
  (losing trades_df = [] -> winning trades_df <> [] ->
     calculate_profit_factor trades_df = PInf) /\
  (losing trades_df = [] -> winning trades_df = [] ->
     calculate_profit_factor trades_df = Fin 0) /\
  (losing trades_df <> [] ->
     calculate_profit_factor trades_df =
     (Series.sum (winning trades_df) / fabs (Series.sum (losing trades_df)))%F).
Proof.
  unfold calculate_profit_factor. repeat split.
  - intros ->. reflexivity.
  - intros Hl Hw. rewrite Hl.
    destruct trades_df as [|t r]; [now destruct Hw|]. cbn [List.length Nat.eqb].
    change (fabs (Series.sum []) == Fin 0)%F with true. cbn iota.
    now rewrite (sum_positive Hw (winning_positive (t :: r))).
  - intros Hl Hw. rewrite Hl, Hw. now destruct trades_df.
  - intros Hl.
    destruct trades_df as [|t r]; [now destruct Hl|]. cbn [List.length Nat.eqb].
    now rewrite (fabs_negative_nonzero (sum_negative Hl (losing_negative (t :: r)))).
Qed.

Lemma profit_factor_policy_witness :
  calculate_profit_factor sample_log = Fin 3.
Proof.
  destruct (profit_factor_policy sample_log) as [_ [_ [_ H]]].
  rewrite H; [reflexivity | discriminate].
Defined.

(** ** Sharpe ratio *)

(** The three branches of [calculate_sharpe_ratio]: a returns series with
    fewer than two entries has Sharpe ratio exactly 0, and so has a series
    whose standard deviation is zero; in every other case the ratio is
    [mean / std * sqrt periods_per_year].  The entries are counted as [len]
    counts them, the missing first return included. *)
Lemma sharpe_ratio_policy qsqrt rets periods_per_year :
  ((List.length rets < 2)%nat ->
     calculate_sharpe_ratio qsqrt rets periods_per_year = Fin 0) /\
  ((std qsqrt rets == Fin 0)%F = true ->
     calculate_sharpe_ratio qsqrt rets periods_per_year = Fin 0) /\
  ((2 <= List.length rets)%nat -> (std qsqrt rets == Fin 0)%F = false ->
     calculate_sharpe_ratio qsqrt rets periods_per_year =
     ((mean rets / std qsqrt rets) * np_sqrt qsqrt (of_Z periods_per_year))%F).
Proof.
  unfold calculate_sharpe_ratio. repeat split.
  - intros H. apply Nat.ltb_lt in H. now rewrite H.
  - intros H. rewrite H. now destruct (List.length rets <? 2)%nat.
  - intros Hlen H. rewrite H.
    destruct (List.length rets <? 2)%nat eqn:E; [|reflexivity].
    apply Nat.ltb_lt in E. lia.
Qed.

Lemma sharpe_ratio_policy_witness :
  calculate_sharpe_ratio sqrt_of_squares [NaN] 365 = Fin 0 /\
  calculate_sharpe_ratio sqrt_of_squares [NaN; Fin (1 # 100); Fin (1 # 100)] 365 = Fin 0 /\
  calculate_sharpe_ratio sqrt_of_squares [NaN; Fin 0; Fin (1 # 100); Fin (2 # 100)] 4
  = Fin 2.
Proof.
  split; [|split].
  - destruct (sharpe_ratio_policy sqrt_of_squares [NaN] 365) as [H _].
    apply H. simpl. lia.
  - destruct (sharpe_ratio_policy sqrt_of_squares
                [NaN; Fin (1 # 100); Fin (1 # 100)] 365) as [_ [H _]].
    apply H. reflexivity.
  - destruct (sharpe_ratio_policy sqrt_of_squares
                [NaN; Fin 0; Fin (1 # 100); Fin (2 # 100)] 4) as [_ [_ H]].
    rewrite H; [reflexivity | simpl; lia | reflexivity].
Defined.

(** C7 fails in the code: the net returns of a table of two bars are the
    missing first return and a single real return [r].  That is one return
    observation, fewer than two, yet [len] counts two entries, the guard is
    passed, the standard deviation is missing, the test [std == 0] is false
    for a missing value, and the Sharpe ratio comes out as [NaN], not 0.
    The yearly Sharpe ratio of the same returns is 0: its guard [std > 0]
    sends a missing standard deviation to 0. *)
Theorem sharpe_ratio_of_a_single_return qsqrt r periods_per_year :
  Series.count [NaN; Fin r] = 1%nat /\
  std qsqrt [NaN; Fin r] = NaN /\
  calculate_sharpe_ratio qsqrt [NaN; Fin r] periods_per_year = NaN /\
  calculate_sharpe_ratio qsqrt [NaN; Fin r] periods_per_year <> Fin 0 /\
  forall e0 er, exists st,
    year_stat qsqrt [NaN; Fin r] (e0 :: er) periods_per_year = Ok st /\
    yearly_sharpe_of st = Fin 0.
Proof.
  assert (E : calculate_sharpe_ratio qsqrt [NaN; Fin r] periods_per_year = NaN).
  { unfold calculate_sharpe_ratio. cbn [List.length Nat.ltb Nat.leb].
    change (std qsqrt [NaN; Fin r]) with NaN. cbn [feqb].
    now rewrite fdiv_nan_r. }
  repeat split; try assumption; try reflexivity.
  - rewrite E. discriminate.
  - intros e0 er. eexists. split; reflexivity.
Qed.

(** ** Yearly drawdown *)

Lemma cummax_from_nth_error l mx i :
  nth_error (cummax_from mx l) i =
  match nth_error l i with
  | Some e =>
      Some (if is_nan e then NaN
            else fold_left fmax (dropna (firstn (S i) l)) mx)
  | None => None
  end.
Proof.
  revert mx i; induction l as [|x l IH]; intros mx [|i]; try reflexivity.
  - cbn [cummax_from nth_error firstn dropna filter].
    destruct (is_nan x); reflexivity.
  - cbn [cummax_from].
    destruct (is_nan x) eqn:E; cbn [nth_error]; rewrite IH;
      destruct (nth_error l i); try reflexivity;
      change (firstn (S (S i)) (x :: l)) with (x :: firstn (S i) l);
      unfold dropna; cbn [filter]; rewrite E; reflexivity.
Qed.

Lemma drawdown_series_nth_error l i :
  nth_error (drawdown_series l) i =
  match nth_error l i with
  | Some e => Some (drawdown_within l i)
  | None => None
  end.
Proof.
  unfold drawdown_series, Series.div, Series.sub, cummax.
  rewrite !map2_nth_error, cummax_from_nth_error.
  destruct (nth_error l i) as [e|] eqn:E; [|reflexivity].
  unfold drawdown_within, peak_within.
  rewrite (nth_error_nth _ _ NaN E).
  destruct (is_nan e) eqn:N; [|reflexivity].
  destruct e; try discriminate.
  now destruct (fold_left fmax _ NInf).
Qed.

(** The drawdown that the code computes from the cumulative maximum is the
    drawdown against the peak of the slice itself. *)
Lemma drawdown_series_within l :
  drawdown_series l = map (drawdown_within l) (seq 0 (List.length l)).
Proof.
  apply nth_error_ext. intros i.
  rewrite drawdown_series_nth_error, nth_error_map, nth_error_seq.
  destruct (nth_error l i) eqn:E.
  - assert (Hi : (i < List.length l)%nat) by (apply nth_error_Some; congruence).
    apply Nat.ltb_lt in Hi. now rewrite Hi.
  - apply nth_error_None in E.
    destruct (i <? List.length l)%nat eqn:Hi; [|reflexivity].
    apply Nat.ltb_lt in Hi. lia.
Qed.

Lemma max_drawdown_within l :
  Series.min (drawdown_series l) = slice_max_drawdown l.
Proof. unfold slice_max_drawdown. now rewrite drawdown_series_within. Qed.

Lemma fltb_Fin a b : (Fin a <? Fin b)%F = false <-> b <= a.
Proof.
  unfold fltb. rewrite negb_false_iff. apply Qle_bool_iff.
Qed.

Lemma Qred_zero q : q == 0 -> Qred q = 0.
Proof. intros H. now rewrite (Qred_complete _ _ H). Qed.

Lemma zero_drawdown q c : 0 < c -> q == c -> ((Fin q - Fin c) / Fin c)%F = Fin 0.
Proof.
  intros Hc Hq. cbn [fsub fdiv]. rewrite (Qeq_bool_pos Hc). f_equal.
  apply Qred_zero. pose proof (Qred_correct (q - c)) as E.
  rewrite E. field_simplify_eq; lra.
Qed.

Lemma flat_drawdown l mx :
  Forall positive_price l -> never_declines l ->
  (mx = NInf \/ exists m, mx = Fin m) ->
  Forall (fun b => (b <? mx)%F = false) l ->
  Series.div (Series.sub l (cummax_from mx l)) (cummax_from mx l)
  = map (fun _ => Fin 0) l.
Proof.
  intros Hp. revert mx.
  induction Hp as [|x l Hx Hp IH]; intros mx Hd Hmx Hb; [reflexivity|].
  destruct x as [q| | |]; try contradiction. cbn [positive_price] in Hx.
  destruct Hd as [Hxl Hd].
  inversion Hb as [|? ? Hbx Hbl]; subst.
  assert (Hc : exists c, fmax mx (Fin q) = Fin c /\ q == c).
  { unfold fmax. destruct (mx <? Fin q)%F eqn:E.
    - exists q. split; reflexivity.
    - destruct Hmx as [->|[m ->]]; [discriminate E|].
      exists m. split; [reflexivity|].
      apply fltb_Fin in E. apply fltb_Fin in Hbx. lra. }
  destruct Hc as [c [Ec Hqc]].
  cbn [cummax_from is_nan]. rewrite Ec.
  unfold Series.div, Series.sub in *. cbn [map2 map].
  rewrite zero_drawdown by lra. f_equal.
  apply IH; [assumption | right; eauto|].
  clear - Hxl Hp Hqc.
  induction Hp as [|b l Hb Hp IH]; [constructor|].
  inversion Hxl as [|? ? Hbq Hl]; subst.
  constructor; [|now apply IH].
  destruct b as [b| | |]; try contradiction.
  apply fltb_Fin in Hbq. apply fltb_Fin. lra.
Qed.

Lemma min_of_zeros (l : Series) :
  l <> [] -> Series.min (map (fun _ => Fin 0) l) = Fin 0.
Proof.
  intros Hne. destruct l as [|x l]; [congruence|].
  unfold Series.min. cbn [map dropna filter is_nan negb]. clear Hne.
  induction l as [|y l IH]; [reflexivity|].
  cbn [map filter is_nan negb fold_left]. exact IH.
Qed.

Lemma never_declining_slice l :
  l <> [] -> Forall positive_price l -> never_declines l ->
  Series.min (drawdown_series l) = Fin 0.
Proof.
  intros Hne Hp Hd. unfold drawdown_series, cummax.
  rewrite flat_drawdown; auto.
  - now apply min_of_zeros.
  - eapply Forall_impl; [|exact Hp]. intros [b| | |] Hb; try contradiction.
    reflexivity.
Qed.

Lemma insert_key_intro y a l : y = a \/ In y l -> In y (insert_key a l).
Proof.
  induction l as [|z l IH]; simpl.
  - intros [->|[]]; now left.
  - destruct (a <? z)%Z eqn:L; [simpl; intuition|].
    destruct (a =? z)%Z eqn:E.
    + apply Z.eqb_eq in E. subst z. simpl. intuition.
    + simpl. intros [->|[->|H]]; auto.
Qed.

Lemma group_keys_complete y s : In y (years_of s) -> In y (group_keys s).
Proof.
  unfold group_keys. fold (years_of s).
  induction (years_of s) as [|a l IH]; simpl; [auto|].
  intros [->|H]; apply insert_key_intro; auto.
Qed.

Section Yearly.

Variable qsqrt : Q -> Q.

Lemma year_stat_Ok year_returns year_equity ppy st :
  year_stat qsqrt year_returns year_equity ppy = Ok st ->
  yearly_max_dd st = Series.min (drawdown_series year_equity).
Proof.
  unfold year_stat. destruct year_equity as [|x r]; [discriminate|].
  cbn [iloc_first iloc_last bind]. now intros [= <-].
Qed.

Lemma get_group_Ok s y g : get_group s y = Ok g -> g = year_slice s y /\ g <> [].
Proof.
  unfold get_group. destruct (List.length s =? 1)%nat; [discriminate|].
  destruct (year_slice s y); [discriminate|].
  intros [= <-]. split; [reflexivity | discriminate].
Qed.

Lemma yearly_loop_lookup years rets equity ppy m y :
  yearly_loop qsqrt years rets equity ppy = Ok m ->
  In y years ->
  year_slice equity y <> [] /\
  lookup_year y (yearly_max_drawdown m)
  = Some (Series.min (drawdown_series (year_slice equity y))).
Proof.
  revert m; induction years as [|y0 later IH]; intros m H Hin; [destruct Hin|].
  cbn [yearly_loop] in H.
  destruct (get_group rets y0) as [g|]; [|discriminate].
  destruct (get_group equity y0) as [e|] eqn:Ge; [|discriminate].
  cbn [bind] in H.
  destruct (year_stat qsqrt g e ppy) as [st|] eqn:Es; [|discriminate].
  destruct (yearly_loop qsqrt later rets equity ppy) as [rest|]; [|discriminate].
  cbn [bind] in H. injection H as <-.
  apply get_group_Ok in Ge as [-> Hne]. apply year_stat_Ok in Es.
  unfold lookup_year. cbn [record_year yearly_max_drawdown find fst].
  destruct (y0 =? y)%Z eqn:E.
  - apply Z.eqb_eq in E. subst y0. cbn [option_map snd]. now rewrite Es.
  - apply IH; [reflexivity|]. destruct Hin as [->|Hin]; [|assumption].
    rewrite Z.eqb_refl in E. discriminate.
Qed.

(** C9, amended: the yearly metrics are computed whenever the two series
    share their index and have at least two rows, and for every calendar
    year present the yearly max drawdown is the minimum of the drawdown taken
    against the running peak of that year's own equity values (the peak
    restarts with the year).  A year whose equity is positive and never falls
    below a value it had earlier in that year has yearly max drawdown 0. *)
Theorem yearly_drawdown_within_year rets equity ppy :
  years_of rets = years_of equity ->
  (2 <= List.length rets)%nat ->
  exists m,
    calculate_yearly_metrics qsqrt rets equity ppy = Ok m /\
    forall y, In y (years_of equity) ->
      lookup_year y (yearly_max_drawdown m)
        = Some (slice_max_drawdown (year_slice equity y)) /\
      (Forall positive_price (year_slice equity y) ->
       never_declines (year_slice equity y) ->
       lookup_year y (yearly_max_drawdown m) = Some (Fin 0)).
Proof.
  intros Hsame Hrows. unfold calculate_yearly_metrics.
  destruct (@yearly_loop_returns qsqrt (group_keys rets) rets equity ppy)
    as [m Hm]; [intros y0; apply group_keys_In | assumption | lia |].
  exists m. split; [assumption|].
  intros y Hy.
  destruct (@yearly_loop_lookup _ _ _ _ _ y Hm) as [Hne Hl].
  { apply group_keys_complete. now rewrite Hsame. }
  rewrite Hl. split.
  - now rewrite max_drawdown_within.
  - intros Hp Hd. now rewrite never_declining_slice.
Qed.

End Yearly.

Lemma yearly_drawdown_within_year_witness :
  exists m,
    calculate_yearly_metrics sqrt_of_squares two_years_returns two_years 365 = Ok m /\
    lookup_year 1970 (yearly_max_drawdown m) = Some (Fin 0) /\
    lookup_year 1971 (yearly_max_drawdown m) = Some (Fin 0).
Proof.
  destruct (@yearly_drawdown_within_year sqrt_of_squares
              two_years_returns two_years 365 eq_refl) as [m [Hm H]];
    [simpl; lia|].
  exists m. split; [exact Hm|].
  split.
  - apply (H 1970%Z).
    + vm_compute. auto.
    + repeat constructor.
    + repeat constructor.
  - apply (H 1971%Z).
    + vm_compute. auto.
    + repeat constructor.
    + repeat constructor.
Defined.

(** C9, as stated, fails in its last part: in a year whose equity goes from 1
    to 2 and then to 1.5 the equity never dips below the value the year
    started with, and the yearly max drawdown is -0.25, not 0. *)
Lemma rise_then_fall_has_drawdown :
  never_below_start (year_slice rise_then_fall 1970) /\
  (forall qsqrt, exists m,
     calculate_yearly_metrics qsqrt rise_then_fall_returns rise_then_fall 365 = Ok m /\
     lookup_year 1970 (yearly_max_drawdown m) = Some (Fin (-1 # 4))) /\
  ~ (forall qsqrt rets equity ppy m y,
       calculate_yearly_metrics qsqrt rets equity ppy = Ok m ->
       In y (years_of equity) ->
       never_below_start (year_slice equity y) ->
       lookup_year y (yearly_max_drawdown m) = Some (Fin 0)).
Proof.
  assert (S : never_below_start (year_slice rise_then_fall 1970))
    by (repeat constructor).
  assert (D : forall qsqrt, exists m,
     calculate_yearly_metrics qsqrt rise_then_fall_returns rise_then_fall 365 = Ok m /\
     lookup_year 1970 (yearly_max_drawdown m) = Some (Fin (-1 # 4))).
  { intros qsqrt. eexists. split; reflexivity. }
  repeat split; try assumption.
  intros H. destruct (D sqrt_of_squares) as [m [Hm Hl]].
  specialize (H sqrt_of_squares _ _ _ m 1970%Z Hm).
  rewrite H in Hl; [discriminate Hl | vm_compute; auto | exact S].
Qed.

(** * Further properties of the code *)

(** ** Ratios over the trade log *)

Lemma of_nat_Fin n : of_nat n = Fin (inject_Z (Z.of_nat n)).
Proof. reflexivity. Qed.

Lemma inject_nat_pos n : (0 < n)%nat -> 0 < inject_Z (Z.of_nat n).
Proof.
  intros H. change 0 with (inject_Z 0). rewrite <- Zlt_Qlt. lia.
Qed.

Lemma fdiv_Fin a b : 0 < b -> (Fin a / Fin b)%F = Fin (Qred (a / b)).
Proof. intros H. cbn [fdiv]. now rewrite (Qeq_bool_pos H). Qed.

Lemma winning_length trades_df :
  (List.length (winning trades_df) <= List.length trades_df)%nat.
Proof.
  unfold winning, pnls.
  etransitivity; [apply filter_length_le|]. now rewrite length_map.
Qed.

Lemma ratio_is_zero w n : 0 < n -> (w / n == 0 <-> w == 0).
Proof.
  intros Hn. assert (Hn' : ~ n == 0) by lra. split; intros H.
  - rewrite <- (Qmult_div_r w n Hn'), H. ring.
  - unfold Qdiv. rewrite H. ring.
Qed.

Lemma ratio_is_one w n : 0 < n -> (w / n == 1 <-> w == n).
Proof.
  intros Hn. assert (Hn' : ~ n == 0) by lra. split; intros H.
  - rewrite <- (Qmult_div_r w n Hn'), H. ring.
  - rewrite H. unfold Qdiv. now apply Qmult_inv_r.
Qed.

Lemma ratio_sign a b :
  0 < b ->
  (0 < a / b <-> 0 < a) /\ (a / b == 0 <-> a == 0) /\ (a / b < 0 <-> a < 0).
Proof.
  intros Hb.
  assert (P : 0 < a -> 0 < a / b) by (intros; apply Qlt_shift_div_l; lra).
  assert (Z : a == 0 -> a / b == 0) by (intros; now apply ratio_is_zero).
  assert (N : a < 0 -> a / b < 0) by (intros; apply Qlt_shift_div_r; lra).
  revert P Z N. generalize (a / b). intros r P Z N.
  destruct (Q_dec a 0) as [[L|G]|E].
  - specialize (N L). repeat split; intros; lra.
  - specialize (P G). repeat split; intros; lra.
  - specialize (Z E). repeat split; intros; lra.
Qed.

(** X1: The win rate of an empty trade log is 0.  On every trade log it is a
    finite number between 0 and 1, which is 0 exactly when no trade has a
    positive pnl and 1 exactly when the log is not empty and every trade has
    a positive pnl. *)
Theorem win_rate_between_0_and_1 trades_df :
  (trades_df = [] -> calculate_win_rate trades_df = Fin 0) /\
  finite_with
    (fun q => 0 <= q <= 1 /\
              (q == 0 <-> winning trades_df = []) /\
              (q == 1 <-> trades_df <> [] /\
                          List.length (winning trades_df) = List.length trades_df))
    (calculate_win_rate trades_df).
Proof.
  split; [now intros ->|].
  unfold calculate_win_rate, finite_with.
  destruct (List.length trades_df =? 0)%nat eqn:E.
  - apply Nat.eqb_eq in E. destruct trades_df; [|discriminate E].
    exists 0. split; [reflexivity|]. repeat split; try lra; try reflexivity.
    intros [H _]. congruence.
  - apply Nat.eqb_neq in E.
    pose proof (winning_length trades_df) as Hw.
    rewrite !of_nat_Fin.
    assert (Hnil : winning trades_df = [] <-> List.length (winning trades_df) = 0%nat).
    { destruct (winning trades_df); simpl; split; congruence. }
    assert (Hne : trades_df <> []) by (destruct trades_df; [now destruct E | discriminate]).
    set (w := List.length (winning trades_df)) in *.
    set (n := List.length trades_df) in *.
    assert (Hn : 0 < inject_Z (Z.of_nat n)) by (apply inject_nat_pos; lia).
    assert (H0 : 0 <= inject_Z (Z.of_nat w)).
    { change 0 with (inject_Z 0). rewrite <- Zle_Qle. lia. }
    assert (H1 : inject_Z (Z.of_nat w) <= inject_Z (Z.of_nat n)).
    { rewrite <- Zle_Qle. lia. }
    rewrite (fdiv_Fin _ Hn). eexists. split; [reflexivity|].
    rewrite Qred_correct. repeat split.
    + apply Qle_shift_div_l; [assumption | lra].
    + apply Qle_shift_div_r; [assumption | lra].
    + intros H. apply (proj1 (@ratio_is_zero _ _ Hn)) in H. apply Hnil.
      unfold Qeq in H. cbn in H. lia.
    + intros H. apply (proj2 (@ratio_is_zero _ _ Hn)). apply Hnil in H.
      now rewrite H.
    + assumption.
    + apply (proj1 (@ratio_is_one _ _ Hn)) in H.
      unfold Qeq in H. cbn in H. lia.
    + intros [_ H]. apply (proj2 (@ratio_is_one _ _ Hn)). now rewrite H.
Qed.

Lemma win_rate_between_0_and_1_witness :
  calculate_win_rate [] = Fin 0 /\
  calculate_win_rate mixed_log = Fin (1 # 2).
Proof.
  split; [|reflexivity].
  destruct (win_rate_between_0_and_1 []) as [H _]. now apply H.
Defined.

Lemma fold_fadd_finite l acc :
  finite acc -> Forall finite l -> finite (fold_left fadd l acc).
Proof.
  intros Ha Hl. revert acc Ha.
  induction Hl as [|x l Hx Hl IH]; intros acc Ha; simpl; [assumption|].
  apply IH. now apply fadd_finite.
Qed.

Lemma Forall_filter {A : Type} (P : A -> Prop) (f : A -> bool) (l : list A) :
  Forall P l -> Forall P (filter f l).
Proof.
  intros H. apply Forall_forall. intros x Hx. apply filter_In in Hx as [Hx _].
  revert x Hx. now apply Forall_forall.
Qed.

Lemma sum_finite l : Forall finite l -> finite (Series.sum l).
Proof.
  intros H. unfold Series.sum. apply fold_fadd_finite; [reflexivity|].
  now apply Forall_filter.
Qed.

Lemma finite_positive x : finite x -> positive x -> finite_with (fun q => 0 < q) x.
Proof.
  intros Hf Hp. apply positive_cases in Hp as [->|[q [-> L]]]; [discriminate Hf|].
  exists q. auto.
Qed.

Lemma finite_negative x : finite x -> negative x -> finite_with (fun q => q < 0) x.
Proof.
  intros Hf Hp. apply negative_cases in Hp as [->|[q [-> L]]]; [discriminate Hf|].
  exists q. auto.
Qed.

Lemma fabs_of_negative x :
  finite_with (fun q => q < 0) x -> finite_with (fun q => 0 < q) (fabs x).
Proof.
  intros [q [-> L]]. cbn [fabs]. eexists. split; [reflexivity|].
  pose proof (Qred_correct (Qabs q)). pose proof (Qabs_neg q). lra.
Qed.

Lemma fdiv_of_positive x y :
  finite_with (fun q => 0 <= q) x -> finite_with (fun q => 0 < q) y ->
  finite_with (fun q => 0 <= q) (x / y)%F.
Proof.
  intros [a [-> La]] [b [-> Lb]]. rewrite (fdiv_Fin _ Lb).
  eexists. split; [reflexivity|]. rewrite Qred_correct.
  apply Qle_shift_div_l; [assumption | lra].
Qed.

Lemma fdiv_of_strictly_positive x y :
  finite_with (fun q => 0 < q) x -> finite_with (fun q => 0 < q) y ->
  finite_with (fun q => 0 < q) (x / y)%F.
Proof.
  intros [a [-> La]] [b [-> Lb]]. rewrite (fdiv_Fin _ Lb).
  eexists. split; [reflexivity|]. rewrite Qred_correct.
  apply Qlt_shift_div_l; [assumption | lra].
Qed.

Lemma fdiv_of_negative x y :
  finite_with (fun q => q < 0) x -> finite_with (fun q => 0 < q) y ->
  finite_with (fun q => q < 0) (x / y)%F.
Proof.
  intros [a [-> La]] [b [-> Lb]]. rewrite (fdiv_Fin _ Lb).
  eexists. split; [reflexivity|]. rewrite Qred_correct.
  apply Qlt_shift_div_r; [assumption | lra].
Qed.

Lemma winning_finite trades_df :
  Forall finite (pnls trades_df) -> Forall finite (winning trades_df).
Proof. apply Forall_filter. Qed.

Lemma losing_finite trades_df :
  Forall finite (pnls trades_df) -> Forall finite (losing trades_df).
Proof. apply Forall_filter. Qed.

Lemma gross_profit_nonnegative trades_df :
  Forall finite (pnls trades_df) ->
  finite_with (fun q => 0 <= q) (Series.sum (winning trades_df)).
Proof.
  intros Hf. destruct (winning trades_df) as [|x l] eqn:E.
  - exists 0. split; [reflexivity | lra].
  - rewrite <- E.
    destruct (@finite_positive (Series.sum (winning trades_df))) as [q [Hq L]].
    + apply sum_finite. now apply winning_finite.
    + apply sum_positive; [rewrite E; discriminate | apply winning_positive].
    + exists q. split; [assumption | lra].
Qed.

(** X2: With finite pnl values the profit factor is +infinity or a finite number
    that is not negative; it is never negative and never missing. *)
Theorem profit_factor_not_negative trades_df :
  Forall finite (pnls trades_df) ->
  calculate_profit_factor trades_df = PInf \/
  finite_with (fun q => 0 <= q) (calculate_profit_factor trades_df).
Proof.
  intros Hf. unfold calculate_profit_factor.
  destruct (List.length trades_df =? 0)%nat.
  { right. exists 0. split; [reflexivity | lra]. }
  destruct (fabs (Series.sum (losing trades_df)) == Fin 0)%F eqn:E.
  { destruct (Series.sum (winning trades_df) >? Fin 0)%F; [now left|].
    right. exists 0. split; [reflexivity | lra]. }
  right. apply fdiv_of_positive; [now apply gross_profit_nonnegative|].
  destruct (losing trades_df) as [|x l] eqn:El; [discriminate E|].
  rewrite <- El in *. apply fabs_of_negative, finite_negative.
  - apply sum_finite. now apply losing_finite.
  - apply sum_negative; [rewrite El; discriminate | apply losing_negative].
Qed.

Lemma profit_factor_not_negative_witness :
  calculate_profit_factor mixed_log = PInf \/
  finite_with (fun q => 0 <= q) (calculate_profit_factor mixed_log).
Proof.
  apply profit_factor_not_negative. repeat constructor.
Defined.

Lemma count_keeps (l : Series) :
  Forall finite l -> Series.count l = List.length l.
Proof.
  intros H. unfold Series.count. rewrite dropna_keeps; [reflexivity|].
  eapply Forall_impl; [|exact H]. apply finite_not_nan.
Qed.

Lemma mean_positive l :
  l <> [] -> Forall finite l -> Forall positive l ->
  finite_with (fun q => 0 < q) (mean l).
Proof.
  intros Hne Hf Hp. unfold mean. apply fdiv_of_strictly_positive.
  - apply finite_positive; [now apply sum_finite | now apply sum_positive].
  - rewrite (count_keeps Hf). eexists. split; [reflexivity|].
    apply inject_nat_pos. destruct l; [congruence | simpl; lia].
Qed.

Lemma mean_negative l :
  l <> [] -> Forall finite l -> Forall negative l ->
  finite_with (fun q => q < 0) (mean l).
Proof.
  intros Hne Hf Hp. unfold mean. apply fdiv_of_negative.
  - apply finite_negative; [now apply sum_finite | now apply sum_negative].
  - rewrite (count_keeps Hf). eexists. split; [reflexivity|].
    apply inject_nat_pos. destruct l; [congruence | simpl; lia].
Qed.

(** X3: The average win/loss ratio is 0 as soon as the log has no winning trade
    or no losing trade; with at least one of each, and finite pnl values, it
    is a finite, strictly positive number. *)
Theorem avg_win_loss_ratio_sign trades_df :
  (winning trades_df = [] \/ losing trades_df = [] ->
     calculate_avg_win_loss_ratio trades_df = Fin 0) /\
  (Forall finite (pnls trades_df) ->
   winning trades_df <> [] -> losing trades_df <> [] ->
     finite_with (fun q => 0 < q) (calculate_avg_win_loss_ratio trades_df)).
Proof.
  unfold calculate_avg_win_loss_ratio. split.
  - intros H. destruct (List.length trades_df =? 0)%nat; [reflexivity|].
    destruct H as [-> | ->]; [reflexivity|].
    now rewrite orb_true_r.
  - intros Hf Hw Hl.
    destruct trades_df as [|t r]; [now destruct Hw|]. cbn [List.length Nat.eqb].
    destruct (winning (t :: r)) as [|w ws] eqn:Ew; [congruence|].
    destruct (losing (t :: r)) as [|l ls] eqn:El; [congruence|].
    cbn [List.length Nat.eqb orb]. rewrite <- Ew, <- El.
    apply fdiv_of_strictly_positive.
    + apply mean_positive;
        [congruence | now apply winning_finite | apply winning_positive].
    + apply fabs_of_negative, mean_negative;
        [congruence | now apply losing_finite | apply losing_negative].
Qed.

Lemma avg_win_loss_ratio_sign_witness :
  calculate_avg_win_loss_ratio sample_log = Fin (3 # 2) /\
  finite_with (fun q => 0 < q) (calculate_avg_win_loss_ratio mixed_log).
Proof.
  split; [reflexivity|].
  apply (avg_win_loss_ratio_sign mixed_log).
  - repeat constructor.
  - discriminate.
  - discriminate.
Defined.

(** ** Drawdown and Calmar ratio *)

Lemma drawdown_step q c :
  0 < q -> q <= c -> drawdown_value ((Fin q - Fin c) / Fin c)%F.
Proof.
  intros Hq Hc. cbn [fsub]. rewrite fdiv_Fin by lra.
  eexists. split; [reflexivity|].
  rewrite !Qred_correct. split.
  - apply Qle_shift_div_l; lra.
  - apply Qle_shift_div_r; lra.
Qed.

Lemma drawdown_from_bounds l mx :
  Forall positive_price l ->
  (mx = NInf \/ finite_with (fun m => 0 < m) mx) ->
  Forall drawdown_value
         (Series.div (Series.sub l (cummax_from mx l)) (cummax_from mx l)).
Proof.
  intros Hp. revert mx.
  induction Hp as [|x l Hx Hp IH]; intros mx Hmx; [constructor|].
  destruct x as [q| | |]; try contradiction. cbn [positive_price] in Hx.
  assert (Hc : exists c, fmax mx (Fin q) = Fin c /\ q <= c).
  { unfold fmax. destruct (mx <? Fin q)%F eqn:E.
    - exists q. split; [reflexivity | lra].
    - destruct Hmx as [->|[m [-> Hm]]]; [discriminate E|].
      exists m. split; [reflexivity|]. now apply fltb_Fin in E. }
  destruct Hc as [c [Ec Hqc]].
  cbn [cummax_from is_nan]. rewrite Ec.
  unfold Series.div, Series.sub in *. cbn [map2].
  constructor; [now apply drawdown_step|].
  apply IH. right. exists c. split; [reflexivity | lra].
Qed.

Lemma fold_fmin_In r x : In (fold_left fmin r x) (x :: r).
Proof.
  revert x; induction r as [|y r IH]; intros x; [now left|].
  cbn [fold_left]. destruct (IH (fmin x y)) as [E|E].
  - rewrite <- E. unfold fmin. destruct (y <? x)%F; [right; now left | now left].
  - right. now right.
Qed.

Lemma min_In (l : Series) :
  l <> [] -> Forall finite l -> In (Series.min l) l.
Proof.
  intros Hne Hf. unfold Series.min. rewrite dropna_keeps.
  - destruct l as [|x r]; [congruence | apply fold_fmin_In].
  - eapply Forall_impl; [|exact Hf]. apply finite_not_nan.
Qed.

Lemma drawdown_value_finite x : drawdown_value x -> finite x.
Proof. now intros [q [-> _]]. Qed.

(** X4: On an equity curve of positive values every drawdown is a finite number
    from -1 to 0, the first one is 0, and so the max drawdown of a non-empty
    curve lies between -1 and 0 too: it is never positive and never missing. *)
Theorem drawdown_between_minus_1_and_0 equity :
  Forall positive_price equity ->
  Forall drawdown_value (drawdown_series equity) /\
  (equity <> [] ->
     nth_error (drawdown_series equity) 0 = Some (Fin 0) /\
     drawdown_value (calculate_max_drawdown equity)).
Proof.
  intros Hp.
  assert (Hall : Forall drawdown_value (drawdown_series equity)).
  { unfold drawdown_series, cummax. apply drawdown_from_bounds; auto. }
  split; [exact Hall|]. intros Hne. split.
  - destruct equity as [|x r]; [congruence|].
    inversion Hp as [|? ? Hx _]; subst.
    destruct x as [q| | |]; try contradiction.
    unfold drawdown_series, cummax, Series.div, Series.sub.
    cbn [cummax_from is_nan fmax fltb map2 nth_error].
    f_equal. apply zero_drawdown; [exact Hx | reflexivity].
  - unfold calculate_max_drawdown.
    assert (Hd : drawdown_series equity <> []).
    { intros E. apply (f_equal (@List.length _)) in E.
      unfold drawdown_series, Series.div, Series.sub, cummax in E.
      rewrite !map2_length in E.
      assert (Hl : forall mx l, List.length (cummax_from mx l) = List.length l).
      { intros mx l; revert mx; induction l as [|y l IH]; intros mx; simpl;
          [reflexivity|]. destruct (is_nan y); simpl; now rewrite IH. }
      rewrite Hl in E. destruct equity; [congruence | simpl in E; lia]. }
    assert (Hf : Forall finite (drawdown_series equity)).
    { eapply Forall_impl; [|exact Hall]. apply drawdown_value_finite. }
    pose proof (min_In Hd Hf) as Hin.
    revert Hin. generalize (Series.min (drawdown_series equity)).
    now apply Forall_forall.
Qed.

Lemma drawdown_between_minus_1_and_0_witness :
  drawdown_value (calculate_max_drawdown [Fin 1; Fin 2; Fin (3 # 2)]).
Proof.
  destruct (@drawdown_between_minus_1_and_0 [Fin 1; Fin 2; Fin (3 # 2)]) as [_ H].
  - repeat constructor.
  - apply H. discriminate.
Defined.

(** X5: The Calmar ratio is 0 when the max drawdown is 0; for a negative finite
    max drawdown it is a finite number with the sign of the total return. *)
Theorem calmar_ratio_sign total max_dd :
  ((max_dd == Fin 0)%F = true -> calculate_calmar_ratio total max_dd = Fin 0) /\
  (finite_with (fun q => q < 0) max_dd ->
     (finite_with (fun q => 0 <= q) total ->
        finite_with (fun q => 0 <= q) (calculate_calmar_ratio total max_dd)) /\
     (finite_with (fun q => q < 0) total ->
        finite_with (fun q => q < 0) (calculate_calmar_ratio total max_dd))).
Proof.
  unfold calculate_calmar_ratio. split.
  - intros H. now rewrite H.
  - intros Hd.
    assert (E : (max_dd == Fin 0)%F = false).
    { destruct Hd as [q [-> L]]. cbn [feqb].
      destruct (Qeq_bool q 0) eqn:E; [|reflexivity].
      apply Qeq_bool_iff in E. lra. }
    rewrite E. split; intros Ht.
    + apply fdiv_of_positive; [assumption | now apply fabs_of_negative].
    + apply fdiv_of_negative; [assumption | now apply fabs_of_negative].
Qed.

Lemma calmar_ratio_sign_witness :
  calculate_calmar_ratio (Fin (1 # 2)) (Fin 0) = Fin 0 /\
  finite_with (fun q => q < 0)
              (calculate_calmar_ratio (Fin (-1 # 5)) (Fin (-1 # 4))).
Proof.
  split.
  - apply (calmar_ratio_sign (Fin (1 # 2)) (Fin 0)). reflexivity.
  - destruct (calmar_ratio_sign (Fin (-1 # 5)) (Fin (-1 # 4))) as [_ H].
    apply H.
    + exists (-1 # 4). split; [reflexivity | reflexivity].
    + exists (-1 # 5). split; [reflexivity | reflexivity].
Defined.

(** ** Frequency inference *)

Lemma time_diffs_regular start step n :
  time_diffs (regular_index start step (S n)) = repeat step n.
Proof.
  cbn [regular_index].
  revert start; induction n as [|n IH]; intros start; [reflexivity|].
  cbn [regular_index].
  change (time_diffs (start :: (start + step)%Z
                      :: regular_index (start + step + step) step n))
    with ((start + step - start)%Z
          :: time_diffs ((start + step)%Z
                         :: regular_index (start + step + step) step n)).
  rewrite IH. cbn [repeat]. f_equal. lia.
Qed.

Lemma sort_repeat d n : sort (repeat d n) = repeat d n.
Proof.
  induction n as [|n IH]; [reflexivity|].
  unfold sort in *. cbn [repeat fold_right]. rewrite IH.
  destruct n; cbn [repeat insert_sorted]; [reflexivity|].
  now rewrite Z.leb_refl.
Qed.

Lemma nth_of_repeat (d : Z) n i : (i < n)%nat -> nth i (repeat d n) 0%Z = d.
Proof.
  revert i; induction n as [|n IH]; intros i Hi; [lia|].
  destruct i; [reflexivity|]. cbn [repeat nth]. apply IH. lia.
Qed.

Lemma median_repeat d n : (0 < n)%nat -> median (repeat d n) == inject_Z d.
Proof.
  intros Hn. unfold median. rewrite sort_repeat, repeat_length.
  assert (Hhalf : (n / 2 < n)%nat) by (apply Nat.div_lt; lia).
  destruct (Nat.even n).
  - rewrite !nth_of_repeat by lia. field.
  - rewrite nth_of_repeat by lia. reflexivity.
Qed.

Lemma hours_le m d c :
  m == inject_Z d -> Qle_bool (m / 3600) (inject_Z c) = (d <=? 3600 * c)%Z.
Proof.
  intros Hm. destruct (d <=? 3600 * c)%Z eqn:E.
  - apply Z.leb_le in E. apply Qle_bool_iff. rewrite Hm.
    apply Qle_shift_div_r; [reflexivity|].
    rewrite Zle_Qle in E. rewrite inject_Z_mult in E.
    change (inject_Z 3600) with 3600 in E. lra.
  - apply Z.leb_gt in E.
    destruct (Qle_bool (m / 3600) (inject_Z c)) eqn:B; [|reflexivity].
    apply Qle_bool_iff in B. rewrite Hm in B.
    assert (H : inject_Z d <= inject_Z c * 3600).
    { apply (Qmult_le_compat_r _ _ 3600) in B; [|discriminate].
      assert (F : inject_Z d / 3600 * 3600 == inject_Z d) by field.
      lra. }
    rewrite Zlt_Qlt, inject_Z_mult in E.
    change (inject_Z 3600) with 3600 in E. lra.
Qed.

(** X6: The annualization factor is always one of 8760, 2190, 365, 52 and 12; it
    is 365 for an index of fewer than two timestamps; and for an index of at
    least two timestamps that are [step] seconds apart it is the factor of
    that step: 8760 up to an hour, 2190 up to four hours, 365 up to a day,
    52 up to a week, and 12 beyond. *)
Theorem infer_frequency_of_regular_index :
  (forall idx, In (infer_frequency idx) [8760; 2190; 365; 52; 12]%Z) /\
  (forall idx, (List.length idx < 2)%nat -> infer_frequency idx = 365%Z) /\
  (forall start step n, (2 <= n)%nat ->
     infer_frequency (regular_index start step n) = factor_of_step step).
Proof.
  split; [|split].
  - intros idx. unfold infer_frequency.
    destruct (List.length idx <? 2)%nat; [simpl; tauto|].
    repeat match goal with
           | |- context [if ?b then _ else _] => destruct b
           end; simpl; tauto.
  - intros idx H. unfold infer_frequency.
    apply Nat.ltb_lt in H. now rewrite H.
  - intros start step n Hn. unfold infer_frequency.
    assert (Hlen : forall s k, List.length (regular_index s step k) = k).
    { intros s k; revert s; induction k as [|k IH]; intros s; simpl;
        [reflexivity | now rewrite IH]. }
    rewrite Hlen.
    destruct (n <? 2)%nat eqn:E; [apply Nat.ltb_lt in E; lia|].
    destruct n as [|n]; [lia|].
    rewrite time_diffs_regular.
    assert (Hm : median (repeat step n) == inject_Z step)
      by (apply median_repeat; lia).
    change 1 with (inject_Z 1). change 4 with (inject_Z 4).
    change 24 with (inject_Z 24). change 168 with (inject_Z 168).
    rewrite !(hours_le _ Hm). reflexivity.
Qed.

Lemma infer_frequency_of_regular_index_witness :
  infer_frequency [day 0] = 365%Z /\
  infer_frequency (regular_index 0 3600 24) = 8760%Z /\
  infer_frequency (regular_index 0 604800 10) = 52%Z.
Proof.
  destruct infer_frequency_of_regular_index as [_ [Hshort Hreg]].
  split; [|split].
  - apply Hshort. simpl. lia.
  - rewrite Hreg; [reflexivity | lia].
  - rewrite Hreg; [reflexivity | lia].
Defined.

(** ** The report as a whole *)

Section ReportFields.

Variable qsqrt : Q -> Q.

(** Every field of a returned report, in terms of the functions that fill it. *)
Lemma calculate_all_metrics_fields data net cost m :
  calculate_all_metrics qsqrt data net cost = Ok m ->
  let equity := build_equity net in
  let log := identify_trades data in
  let ppy := infer_frequency (df_index data) in
  equity_curve m = equity /\
  trades m = log /\
  calculate_total_return equity = Ok (total_return m) /\
  sharpe_ratio m = calculate_sharpe_ratio qsqrt net ppy /\
  max_drawdown m = calculate_max_drawdown equity /\
  win_rate m = calculate_win_rate log /\
  num_trades m = List.length log /\
  avg_win_loss_ratio m = calculate_avg_win_loss_ratio log /\
  profit_factor m = calculate_profit_factor log /\
  calmar_ratio m = calculate_calmar_ratio (total_return m) (max_drawdown m) /\
  cost_percent m = cost /\
  calculate_yearly_metrics qsqrt (combine (df_index data) net)
                           (combine (df_index data) equity) ppy = Ok (yearly m).
Proof.
  unfold calculate_all_metrics.
  destruct (calculate_total_return (build_equity net)) as [tr|]; [|discriminate].
  cbn [bind].
  destruct (calculate_yearly_metrics _ _ _ _) as [ym|]; [|discriminate].
  cbn [bind]. intros [= <-]. cbn. repeat split.
Qed.

Lemma backtest_fields data close pos cost m :
  backtest qsqrt data cost = Ok m ->
  Close data = Some close -> position data = Some pos ->
  let df := derive_columns (index data) close pos (position_size data) cost in
  calculate_all_metrics qsqrt df (net_returns df) cost = Ok m.
Proof.
  intros H Hc Hp. unfold backtest in H. now rewrite Hc, Hp in H.
Qed.

(** X7: A well-formed table that has both required columns gets a report
    exactly when it has at least two rows.  With no row [backtest] raises
    [IndexError] (the last equity value is asked for), with exactly one row
    it raises [KeyError] (the yearly grouping refuses the year), and it
    raises nothing else. *)
Theorem backtest_needs_two_rows data cost :
  Close data <> None -> position data <> None -> well_formed data ->
  (index data = [] <-> backtest qsqrt data cost = Raise IndexError) /\
  (List.length (index data) = 1%nat <-> backtest qsqrt data cost = Raise KeyError) /\
  ((2 <= List.length (index data))%nat <-> exists m, backtest qsqrt data cost = Ok m) /\
  (forall e, backtest qsqrt data cost = Raise e -> e = IndexError \/ e = KeyError).
Proof.
  intros Nc Np W.
  destruct (Close data) as [close|] eqn:Ec; [|congruence].
  destruct (position data) as [pos|] eqn:Ep; [|congruence].
  assert (Hempty : index data = [] -> backtest qsqrt data cost = Raise IndexError).
  { intros Hi. destruct W as [Wc [Wp _]].
    rewrite Ec in Wc. rewrite Ep in Wp. rewrite Hi in Wc, Wp. simpl in Wc, Wp.
    destruct close; [|discriminate]. destruct pos; [|discriminate].
    unfold backtest. rewrite Ec, Ep, Hi.
    destruct (position_size data); reflexivity. }
  assert (Hone : List.length (index data) = 1%nat ->
                 backtest qsqrt data cost = Raise KeyError).
  { intros Hi. destruct W as [Wc [Wp Ws]].
    rewrite Ec in Wc. rewrite Ep in Wp. simpl in Wc, Wp.
    destruct (index data) as [|t [|]] eqn:Ei; try discriminate Hi.
    destruct close as [|c [|]]; try discriminate Wc.
    destruct pos as [|p [|]]; try discriminate Wp.
    unfold backtest. rewrite Ec, Ep, Ei.
    destruct (position_size data) as [[|s [|]]|]; try discriminate Ws;
      reflexivity. }
  assert (Hrows : (2 <= List.length (index data))%nat ->
                  exists m, backtest qsqrt data cost = Ok m).
  { intros Hi.
    destruct (@backtest_returns qsqrt data close pos cost Ec Ep W Hi) as [m [Hm _]].
    eauto. }
  assert (Hcases : index data = [] \/ List.length (index data) = 1%nat \/
                   (2 <= List.length (index data))%nat).
  { destruct (index data) as [|t [|]]; simpl; auto. right; right; lia. }
  repeat split; try assumption.
  - intros H. destruct Hcases as [Hi|[Hi|Hi]]; [assumption | |].
    + rewrite (Hone Hi) in H. discriminate.
    + destruct (Hrows Hi) as [m Hm]. congruence.
  - intros H. destruct Hcases as [Hi|[Hi|Hi]]; [| assumption |].
    + rewrite (Hempty Hi) in H. discriminate.
    + destruct (Hrows Hi) as [m Hm]. congruence.
  - intros [m H]. destruct Hcases as [Hi|[Hi|Hi]]; [| | assumption].
    + rewrite (Hempty Hi) in H. discriminate.
    + rewrite (Hone Hi) in H. discriminate.
  - intros e H. destruct Hcases as [Hi|[Hi|Hi]].
    + rewrite (Hempty Hi) in H. injection H as <-. now left.
    + rewrite (Hone Hi) in H. injection H as <-. now right.
    + destruct (Hrows Hi) as [m Hm]. congruence.
Qed.

End ReportFields.

Lemma backtest_needs_two_rows_witness :
  backtest sqrt_of_squares empty_input (Fin 0) = Raise IndexError /\
  backtest sqrt_of_squares one_bar_input (Fin 0) = Raise KeyError /\
  exists m, backtest sqrt_of_squares two_bar_input (Fin 0) = Ok m.
Proof.
  split; [|split].
  - destruct (@backtest_needs_two_rows sqrt_of_squares empty_input (Fin 0))
      as [[H _] _]; [discriminate | discriminate | repeat split |].
    apply H. reflexivity.
  - destruct (@backtest_needs_two_rows sqrt_of_squares one_bar_input (Fin 0))
      as [_ [[H _] _]]; [discriminate | discriminate | repeat split |].
    apply H. reflexivity.
  - destruct (@backtest_needs_two_rows sqrt_of_squares two_bar_input (Fin 0))
      as [_ [_ [[H _] _]]]; [discriminate | discriminate | repeat split |].
    apply H. simpl. lia.
Defined.

(** ** Sharpe ratio when the standard deviation is missing *)

Lemma fmul_nan_l x : (NaN * x)%F = NaN.
Proof. reflexivity. Qed.

Section MissingStd.

Variable qsqrt : Q -> Q.

Lemma std_missing rets : (Series.count rets <= 1)%nat -> std qsqrt rets = NaN.
Proof.
  intros H. unfold std, Series.var.
  apply Nat.leb_le in H. now rewrite H.
Qed.

(** X8: A returns series of at least two entries of which fewer than two are
    present has a missing standard deviation, and its Sharpe ratio is [NaN],
    not 0.  This is the case of every report on a table of exactly two bars,
    whose only net return beside the missing first one is the second. *)
Theorem sharpe_ratio_missing_for_one_return :
  (forall rets ppy,
     (2 <= List.length rets)%nat -> (Series.count rets <= 1)%nat ->
     calculate_sharpe_ratio qsqrt rets ppy = NaN) /\
  (forall data cost m,
     well_formed data -> List.length (index data) = 2%nat ->
     backtest qsqrt data cost = Ok m ->
     sharpe_ratio m = NaN).
Proof.
  assert (A : forall rets ppy,
     (2 <= List.length rets)%nat -> (Series.count rets <= 1)%nat ->
     calculate_sharpe_ratio qsqrt rets ppy = NaN).
  { intros rets ppy Hlen Hcount. unfold calculate_sharpe_ratio.
    destruct (List.length rets <? 2)%nat eqn:E; [apply Nat.ltb_lt in E; lia|].
    rewrite (std_missing _ Hcount). cbn [feqb].
    now rewrite fdiv_nan_r. }
  split; [exact A|].
  intros data cost m [Wc [Wp Ws]] Hlen H.
  destruct (Close data) as [close|] eqn:Ec;
    [|unfold backtest in H; rewrite Ec in H; discriminate].
  destruct (position data) as [pos|] eqn:Ep;
    [|unfold backtest in H; rewrite Ec, Ep in H; discriminate].
  pose proof (@backtest_fields qsqrt data close pos cost m H Ec Ep) as F.
  apply calculate_all_metrics_fields in F.
  destruct F as [_ [_ [_ [-> _]]]].
  simpl in Wc, Wp.
  assert (Hn : List.length
                 (net_returns (derive_columns (index data) close pos
                                              (position_size data) cost)) = 2%nat).
  { rewrite derived_net_length; [congruence | congruence|].
    unfold sizes_fit. destruct (position_size data); simpl in *; congruence. }
  destruct (derived_net_returns_head (index data) close pos (position_size data) cost)
    as [E|[rest E]]; rewrite E in *; [discriminate Hn|].
  apply A; [simpl in *; lia|].
  destruct rest as [|x [|y r]]; try discriminate Hn.
  unfold Series.count, dropna. cbn [filter is_nan negb].
  destruct (negb (is_nan x)); simpl; lia.
Qed.

End MissingStd.

Lemma sharpe_ratio_missing_for_one_return_witness :
  calculate_sharpe_ratio sqrt_of_squares [NaN; Fin (1 # 10)] 365 = NaN /\
  exists m, backtest sqrt_of_squares two_bar_input (Fin 0) = Ok m /\
            sharpe_ratio m = NaN.
Proof.
  destruct (sharpe_ratio_missing_for_one_return sqrt_of_squares) as [A B].
  split.
  - apply A; vm_compute; lia.
  - destruct (backtest sqrt_of_squares two_bar_input (Fin 0)) as [m|e] eqn:E;
      [|vm_compute in E; discriminate E].
    exists m. split; [reflexivity|].
    apply (B two_bar_input (Fin 0) m); [repeat split | reflexivity | exact E].
Defined.

(** ** The yearly breakdown *)

Lemma insert_key_above a y l :
  (a < y)%Z -> strictly_increasing (a :: l) = true ->
  strictly_increasing (a :: insert_key y l) = true.
Proof.
  revert a; induction l as [|z r IH]; intros a Hay H.
  - cbn. apply Z.ltb_lt in Hay. now rewrite Hay.
  - cbn [strictly_increasing] in H. apply andb_true_iff in H as [Haz Hr].
    cbn [insert_key]. destruct (y <? z)%Z eqn:Lyz.
    + cbn [strictly_increasing]. apply Z.ltb_lt in Hay.
      now rewrite Hay, Lyz, Hr.
    + destruct (y =? z)%Z eqn:Eyz.
      * cbn [strictly_increasing]. now rewrite Haz, Hr.
      * change (strictly_increasing (a :: z :: insert_key y r))
          with ((a <? z)%Z && strictly_increasing (z :: insert_key y r)).
        rewrite Haz. cbn [andb]. apply IH; [|exact Hr].
        apply Z.ltb_ge in Lyz. apply Z.eqb_neq in Eyz. lia.
Qed.

Lemma insert_key_sorted y l :
  strictly_increasing l = true -> strictly_increasing (insert_key y l) = true.
Proof.
  destruct l as [|z r]; [reflexivity|]. intros H.
  cbn [insert_key]. destruct (y <? z)%Z eqn:Lyz.
  - change (strictly_increasing (y :: z :: r))
      with ((y <? z)%Z && strictly_increasing (z :: r)).
    now rewrite Lyz, H.
  - destruct (y =? z)%Z eqn:Eyz; [exact H|].
    apply insert_key_above; [|exact H].
    apply Z.ltb_ge in Lyz. apply Z.eqb_neq in Eyz. lia.
Qed.

Lemma group_keys_sorted s : strictly_increasing (group_keys s) = true.
Proof.
  unfold group_keys. induction (map _ s) as [|y l IH]; [reflexivity|].
  cbn [fold_right]. now apply insert_key_sorted.
Qed.

Section YearlyBreakdown.

Variable qsqrt : Q -> Q.

Lemma yearly_loop_keys years rets equity ppy m :
  yearly_loop qsqrt years rets equity ppy = Ok m ->
  map fst (yearly_returns m) = years /\
  map fst (yearly_sharpe m) = years /\
  map fst (yearly_max_drawdown m) = years.
Proof.
  revert m; induction years as [|y later IH]; intros m H.
  - injection H as <-. repeat split.
  - cbn [yearly_loop] in H.
    destruct (get_group rets y) as [g|]; [|discriminate].
    destruct (get_group equity y) as [e|]; [|discriminate].
    cbn [bind] in H.
    destruct (year_stat qsqrt g e ppy) as [st|]; [|discriminate].
    destruct (yearly_loop qsqrt later rets equity ppy) as [rest|]; [|discriminate].
    cbn [bind] in H. injection H as <-.
    destruct (IH rest eq_refl) as [H1 [H2 H3]].
    cbn. now rewrite H1, H2, H3.
Qed.

Lemma yearly_loop_stats years rets equity ppy m y :
  yearly_loop qsqrt years rets equity ppy = Ok m ->
  In y years ->
  exists st,
    year_stat qsqrt (year_slice rets y) (year_slice equity y) ppy = Ok st /\
    year_slice equity y <> [] /\
    lookup_year y (yearly_returns m) = Some (yearly_return st) /\
    lookup_year y (yearly_sharpe m) = Some (yearly_sharpe_of st) /\
    lookup_year y (yearly_max_drawdown m) = Some (yearly_max_dd st).
Proof.
  revert m; induction years as [|y0 later IH]; intros m H Hin; [destruct Hin|].
  cbn [yearly_loop] in H.
  destruct (get_group rets y0) as [g|] eqn:Gr; [|discriminate].
  destruct (get_group equity y0) as [e|] eqn:Ge; [|discriminate].
  cbn [bind] in H.
  destruct (year_stat qsqrt g e ppy) as [st|] eqn:Es; [|discriminate].
  destruct (yearly_loop qsqrt later rets equity ppy) as [rest|]; [|discriminate].
  cbn [bind] in H. injection H as <-.
  apply get_group_Ok in Gr as [-> _]. apply get_group_Ok in Ge as [-> Hne].
  unfold lookup_year.
  cbn [record_year yearly_returns yearly_sharpe yearly_max_drawdown find fst].
  destruct (y0 =? y)%Z eqn:E.
  - apply Z.eqb_eq in E. subst y0. exists st. repeat split; assumption.
  - apply IH; [reflexivity|]. destruct Hin as [->|Hin]; [|assumption].
    rewrite Z.eqb_refl in E. discriminate.
Qed.

(** X9: The three yearly dictionaries of a result have the same keys: the
    calendar years that occur in the index, each once, in ascending order. *)
Theorem yearly_keys_are_the_years_ascending rets equity ppy m :
  calculate_yearly_metrics qsqrt rets equity ppy = Ok m ->
  map fst (yearly_returns m) = map fst (yearly_sharpe m) /\
  map fst (yearly_sharpe m) = map fst (yearly_max_drawdown m) /\
  strictly_increasing (map fst (yearly_returns m)) = true /\
  (forall y, In y (map fst (yearly_returns m)) <-> In y (years_of rets)).
Proof.
  intros H. unfold calculate_yearly_metrics in H.
  apply yearly_loop_keys in H as [H1 [H2 H3]].
  rewrite H1, H2, H3. repeat split.
  - apply group_keys_sorted.
  - apply group_keys_In.
  - apply group_keys_complete.
Qed.

(** X10: A calendar year that holds at most one return has yearly Sharpe ratio 0:
    its standard deviation is missing and the yearly guard [std > 0] sends that
    case to 0. *)
Theorem yearly_sharpe_zero_for_one_return rets equity ppy m y :
  calculate_yearly_metrics qsqrt rets equity ppy = Ok m ->
  In y (years_of rets) ->
  (Series.count (year_slice rets y) <= 1)%nat ->
  lookup_year y (yearly_sharpe m) = Some (Fin 0).
Proof.
  intros H Hy Hc. unfold calculate_yearly_metrics in H.
  destruct (@yearly_loop_stats _ _ _ _ _ y H) as [st [Hst [Hne [_ [Hs _]]]]].
  { now apply group_keys_complete. }
  rewrite Hs. f_equal.
  unfold year_stat in Hst.
  destruct (year_slice equity y) as [|e0 er]; [congruence|].
  cbn [iloc_first iloc_last bind] in Hst. injection Hst as <-.
  cbn [yearly_sharpe_of]. now rewrite (std_missing qsqrt _ Hc).
Qed.

(** X11: The yearly return of a year whose equity values are positive is the
    year's last equity value less its first one, divided by the first one.
    It is a finite number that is positive exactly when the year ends above
    where it started, zero exactly when it ends where it started, negative
    exactly when it ends below, and it is never below -1. *)
Theorem yearly_return_sign rets equity ppy m y first others :
  calculate_yearly_metrics qsqrt rets equity ppy = Ok m ->
  In y (years_of rets) ->
  year_slice equity y = Fin first :: others ->
  Forall positive_price (year_slice equity y) ->
  exists final,
    last others (Fin first) = Fin final /\
    lookup_year y (yearly_returns m)
      = Some ((Fin final - Fin first) / Fin first)%F /\
    finite_with
      (fun r => (0 < r <-> first < final) /\
                (r == 0 <-> final == first) /\
                (r < 0 <-> final < first) /\
                -1 <= r)
      ((Fin final - Fin first) / Fin first)%F.
Proof.
  intros H Hy Hs Hp. unfold calculate_yearly_metrics in H.
  destruct (@yearly_loop_stats _ _ _ _ _ y H) as [st [Hst [_ [Hr _]]]].
  { now apply group_keys_complete. }
  rewrite Hr. rewrite Hs in Hst, Hp.
  unfold year_stat in Hst. cbn [iloc_first iloc_last bind] in Hst.
  injection Hst as <-. cbn [yearly_return].
  inversion Hp as [|? ? Hfirst Hrest]; subst. cbn [positive_price] in Hfirst.
  assert (Hlast : positive_price (last others (Fin first))).
  { clear - Hfirst Hrest. revert first Hfirst.
    induction Hrest as [|x l Hx Hl IH]; intros first Hfirst; [exact Hfirst|].
    destruct l as [|z l']; [exact Hx|].
    destruct x as [q| | |]; try contradiction.
    change (last (Fin q :: z :: l') (Fin first)) with (last (z :: l') (Fin first)).
    specialize (IH first Hfirst). exact IH. }
  destruct (last others (Fin first)) as [final| | |]; try contradiction.
  cbn [positive_price] in Hlast.
  exists final. split; [reflexivity|]. split; [reflexivity|].
  cbn [fsub]. rewrite fdiv_Fin by assumption.
  eexists. split; [reflexivity|].
  destruct (@ratio_sign (Qred (final - first)) first Hfirst) as [Sp [Sz Sn]].
  pose proof (Qred_correct (final - first)) as Ed.
  pose proof (Qred_correct (Qred (final - first) / first)) as Er.
  assert (Hlow : -1 <= Qred (final - first) / first).
  { apply Qle_shift_div_l; [assumption | lra]. }
  revert Sp Sz Sn Er Hlow.
  generalize (Qred (Qred (final - first) / first)).
  generalize (Qred (final - first) / first).
  revert Ed. generalize (Qred (final - first)).
  intros d Ed q r [Sp1 Sp2] [Sz1 Sz2] [Sn1 Sn2] Er Hlow.
  cbv beta.
  split; [split; intros Hx | split; [split; intros Hx | split; [split; intros Hx|]]].
  - assert (H1 : 0 < q) by lra. apply Sp1 in H1. lra.
  - assert (H1 : 0 < d) by lra. apply Sp2 in H1. lra.
  - assert (H1 : q == 0) by lra. apply Sz1 in H1. lra.
  - assert (H1 : d == 0) by lra. apply Sz2 in H1. lra.
  - assert (H1 : q < 0) by lra. apply Sn1 in H1. lra.
  - assert (H1 : d < 0) by lra. apply Sn2 in H1. lra.
  - lra.
Qed.

End YearlyBreakdown.

Lemma yearly_keys_are_the_years_ascending_witness :
  exists m,
    calculate_yearly_metrics sqrt_of_squares two_years_returns two_years 365 = Ok m /\
    map fst (yearly_returns m) = [1970; 1971]%Z /\
    strictly_increasing (map fst (yearly_max_drawdown m)) = true.
Proof.
  destruct (calculate_yearly_metrics sqrt_of_squares two_years_returns two_years 365)
    as [m|e] eqn:E; [|vm_compute in E; discriminate E].
  exists m. split; [reflexivity|].
  destruct (@yearly_keys_are_the_years_ascending sqrt_of_squares _ _ _ m E)
    as [H1 [H2 [H3 _]]].
  split.
  - vm_compute in E. injection E as <-. reflexivity.
  - now rewrite <- H2, <- H1.
Defined.

Lemma yearly_sharpe_zero_for_one_return_witness :
  exists m,
    calculate_yearly_metrics sqrt_of_squares two_years_returns two_years 365 = Ok m /\
    lookup_year 1970 (yearly_sharpe m) = Some (Fin 0).
Proof.
  destruct (calculate_yearly_metrics sqrt_of_squares two_years_returns two_years 365)
    as [m|e] eqn:E; [|vm_compute in E; discriminate E].
  exists m. split; [reflexivity|].
  apply (@yearly_sharpe_zero_for_one_return sqrt_of_squares _ _ _ m 1970%Z E).
  - vm_compute. auto.
  - vm_compute. lia.
Defined.

Lemma yearly_return_sign_witness :
  exists m,
    calculate_yearly_metrics sqrt_of_squares rise_then_fall_returns rise_then_fall 365
      = Ok m /\
    lookup_year 1970 (yearly_returns m) = Some ((Fin (3 # 2) - Fin 1) / Fin 1)%F.
Proof.
  destruct (calculate_yearly_metrics sqrt_of_squares rise_then_fall_returns
                                     rise_then_fall 365)
    as [m|e] eqn:E; [|vm_compute in E; discriminate E].
  destruct (@yearly_return_sign sqrt_of_squares _ _ _ m 1970%Z
              1 [Fin 2; Fin (3 # 2)] E) as [final [Hl [Hr Hv]]].
  - vm_compute. auto.
  - reflexivity.
  - repeat constructor.
  - exists m. split; [reflexivity|].
    cbn [last] in Hl. injection Hl as <-. exact Hr.
Defined.

(** ** Holding the asset: the benchmark equity of [plot_results] *)

Lemma Fin_Qred_eq a b : a == b -> Fin (Qred a) = Fin (Qred b).
Proof. intros H. f_equal. now apply Qred_complete. Qed.

Lemma build_equity_of_nan_cons rest :
  Forall finite rest ->
  build_equity (NaN :: rest) =
  Fin 1 :: cumprod_from (Fin 1) (map (fadd (Fin 1)) rest).
Proof.
  intros Hr. rewrite build_equity_cons. f_equal.
  assert (H : forall l acc, finite acc -> Forall finite l ->
            fillna (Fin 1) (cumprod_from acc l) = cumprod_from acc l).
  { intros l acc Ha Hl. revert acc Ha.
    induction Hl as [|x l Hx Hl IH]; intros acc Ha; [reflexivity|].
    cbn [cumprod_from]. rewrite (finite_not_nan Hx).
    unfold fillna in *. cbn [map].
    rewrite (finite_not_nan (fmul_finite Ha Hx)). f_equal.
    apply IH. now apply fmul_finite. }
  apply H; [reflexivity|].
  apply Forall_forall. intros x Hx. apply in_map_iff in Hx as [y [<- Hy]].
  apply fadd_finite; [reflexivity|]. revert y Hy. now apply Forall_forall.
Qed.

Lemma price_ratios_finite l prev :
  Forall positive_price l -> positive_price prev ->
  Forall finite (map2 (fun cur before => cur / before - Fin 1)%F l (prev :: l)).
Proof.
  intros Hl. revert prev. induction Hl as [|x l Hx Hl IH]; intros prev Hp;
    [constructor|].
  cbn [map2]. constructor.
  - apply fsub_finite; [|reflexivity].
    apply fdiv_finite; [now apply positive_price_finite | assumption].
  - now apply IH.
Qed.

Lemma price_ratios_length (cr : Series) c0 :
  List.length (map2 (fun cur prev => cur / prev - Fin 1)%F cr (c0 :: cr))
  = List.length cr.
Proof. rewrite map2_length. simpl. lia. Qed.

Lemma benchmark_equity_cons c0 cr :
  benchmark_equity (c0 :: cr) =
  build_equity (NaN :: map2 (fun cur before => cur / before - Fin 1)%F cr (c0 :: cr)).
Proof.
  change (benchmark_equity (c0 :: cr)) with (build_equity (pct_change (c0 :: cr))).
  now rewrite pct_change_cons.
Qed.

(** Where the price does not fall from one bar to the next, the factor
    [1 + return] of that bar is at least 1. *)
Lemma rising_price_factors l prev :
  Forall positive_price (prev :: l) -> never_declines (prev :: l) ->
  Forall (finite_with (fun g => 1 <= g))
         (map (fadd (Fin 1))
              (map2 (fun cur before => cur / before - Fin 1)%F l (prev :: l))).
Proof.
  revert prev. induction l as [|x l IH]; intros prev Hp Hd; [constructor|].
  inversion Hp as [|? ? Hprev Hrest]; subst.
  inversion Hrest as [|? ? Hx _]; subst.
  destruct Hd as [Hge Hd]. inversion Hge as [|? ? Hxp _]; subst.
  destruct prev as [p| | |]; try contradiction.
  destruct x as [q| | |]; try contradiction.
  cbn [positive_price] in Hprev, Hx. apply fltb_Fin in Hxp.
  cbn [map2 map]. constructor; [|now apply IH].
  rewrite fdiv_Fin by assumption. cbn [fsub fadd].
  eexists. split; [reflexivity|].
  rewrite !Qred_correct.
  assert (1 <= q / p) by (apply Qle_shift_div_l; lra). lra.
Qed.

(** A running product of factors that are all at least 1, started from a
    positive value, never falls. *)
Lemma cumprod_from_never_declines l a :
  0 < a -> Forall (finite_with (fun g => 1 <= g)) l ->
  Forall (finite_with (fun q => a <= q)) (cumprod_from (Fin a) l) /\
  never_declines (Fin a :: cumprod_from (Fin a) l).
Proof.
  intros Ha Hl. revert a Ha.
  induction Hl as [|x l [g [-> Hg]] _ IH]; intros a Ha.
  - split; [constructor | repeat constructor].
  - cbn [cumprod_from is_nan fmul].
    assert (Hstep : a <= Qred (a * g)).
    { rewrite Qred_correct.
      setoid_replace a with (a * 1) at 1 by ring.
      apply Qmult_le_l; assumption. }
    destruct (IH (Qred (a * g))) as [Hall Hnd]; [lra|].
    assert (Hfrom : Forall (finite_with (fun q => a <= q))
                           (Fin (Qred (a * g)) :: cumprod_from (Fin (Qred (a * g))) l)).
    { constructor; [eexists; split; [reflexivity | exact Hstep]|].
      eapply Forall_impl; [|exact Hall].
      intros y [q [-> Hq]]. exists q. split; [reflexivity | lra]. }
    split; [exact Hfrom|].
    split; [|exact Hnd].
    eapply Forall_impl; [|exact Hfrom].
    intros y [q [-> Hq]]. now apply fltb_Fin.
Qed.

(** X12: For positive prices the benchmark equity that [plot_results] draws has
    one value per bar and starts at 1; its value at bar [i] is the product,
    taken from left to right, of [1 + return] over the price returns of the
    bars 1 to [i]; and when the price never falls from a bar to a later one,
    neither does the benchmark equity. *)
Theorem benchmark_equity_compounds_price_returns close :
  Forall positive_price close ->
  List.length (benchmark_equity close) = List.length close /\
  (close <> [] -> nth_error (benchmark_equity close) 0 = Some (Fin 1)) /\
  (forall i, (i < List.length close)%nat ->
     nth_error (benchmark_equity close) i =
     Some (product (map (fadd (Fin 1)) (firstn i (tl (pct_change close)))))) /\
  (never_declines close -> never_declines (benchmark_equity close)).
Proof.
  intros Hp. destruct close as [|c0 cr].
  { repeat split; try reflexivity; try congruence. intros i Hi. simpl in Hi. lia. }
  inversion Hp as [|? ? H0 Hr]; subst.
  pose proof (@price_ratios_finite cr c0 Hr H0) as Hfin.
  rewrite benchmark_equity_cons, pct_change_cons. cbn [tl].
  split; [|split; [|split]].
  - rewrite build_equity_length. cbn [List.length].
    now rewrite price_ratios_length.
  - reflexivity.
  - intros i Hi. apply build_equity_running_product; [exact Hfin|].
    rewrite price_ratios_length. simpl in Hi. lia.
  - intros Hd. rewrite build_equity_of_nan_cons by exact Hfin.
    apply cumprod_from_never_declines; [lra|].
    now apply rising_price_factors.
Qed.

Lemma benchmark_equity_compounds_price_returns_witness :
  List.length (benchmark_equity [Fin 100; Fin 110; Fin 121]) = 3%nat /\
  never_declines (benchmark_equity [Fin 100; Fin 110; Fin 121]).
Proof.
  destruct (@benchmark_equity_compounds_price_returns [Fin 100; Fin 110; Fin 121])
    as [Hl [_ [_ Hd]]].
  - repeat constructor.
  - split; [exact Hl|]. apply Hd. repeat constructor.
Defined.

(** ** A position that never changes *)

Section ConstantLists.

Context {A B C : Type}.

Lemma map2_constant_l (f : A -> B -> C) (a : A) (l : list A) (m : list B) :
  Forall (eq a) l -> List.length l = List.length m ->
  map2 f l m = map (f a) m.
Proof.
  intros H. revert m. induction H as [|x l <- _ IH]; intros [|b m] Hlen;
    try discriminate; [reflexivity|].
  cbn [map2 map]. f_equal. apply IH. simpl in Hlen. lia.
Qed.

Lemma map2_constant_r (f : A -> B -> C) (b : B) (l : list A) (m : list B) :
  Forall (eq b) m -> List.length l = List.length m ->
  map2 f l m = map (fun x => f x b) l.
Proof.
  intros H. revert l. induction H as [|x m <- _ IH]; intros [|a l] Hlen;
    try discriminate; [reflexivity|].
  cbn [map2 map]. f_equal. apply IH. simpl in Hlen. lia.
Qed.

End ConstantLists.

Lemma zero_times x : finite x -> (Fin 0 * x)%F = Fin 0.
Proof.
  destruct x as [q| | |]; try discriminate. intros _. cbn [fmul].
  change (Fin 0) with (Fin (Qred 0)). apply Fin_Qred_eq. ring.
Qed.

Lemma derived_net_returns_tail idx c0 cr p0 pr size cost :
  exposures (p0 :: pr) size <> [] ->
  net_returns (derive_columns idx (c0 :: cr) (p0 :: pr) size cost) =
  NaN :: Series.sub
           (Series.mul (removelast (exposures (p0 :: pr) size))
                       (map2 (fun cur prev => cur / prev - Fin 1)%F cr (c0 :: cr)))
           (scale (Series.abs (map2 (fun cur prev => cur - prev)%F pr (p0 :: pr)))
                  cost).
Proof.
  intros He. rewrite derived_net_returns.
  destruct (exposures (p0 :: pr) size) as [|e0 er]; [congruence|].
  rewrite shift_cons, pct_change_cons, diff_cons.
  unfold Series.sub, Series.mul, scale, Series.abs. cbn [map map2 fabs fmul fsub].
  reflexivity.
Qed.

(** A constant finite position has no position change after the first bar,
    so it is charged no cost and leaves no change point. *)
Lemma constant_position_costs v p0 pr cost :
  constant (Fin v) (p0 :: pr) -> finite cost ->
  constant (Fin 0)
    (scale (Series.abs (map2 (fun cur prev => cur - prev)%F pr (p0 :: pr))) cost) /\
  filter (fun c => c >? Fin 0)%F
         (map fabs (map2 (fun cur prev => cur - prev)%F pr (p0 :: pr))) = [].
Proof.
  intros Hc Hcost.
  assert (Hd : constant (Fin 0)
                 (map fabs (map2 (fun cur prev => cur - prev)%F pr (p0 :: pr)))).
  { inversion Hc as [|? ? _ Hr]; subst.
    apply Forall_forall. intros x Hx. apply in_map_iff in Hx as [y [<- Hy]].
    assert (Hy0 : Fin 0 = y).
    { revert y Hy. apply Forall_forall.
      apply Forall_map2 with (P := eq (Fin v)) (Q := eq (Fin v)); try assumption.
      intros a b <- <-. cbn [fsub].
      change (Fin 0) with (Fin (Qred 0)). apply Fin_Qred_eq. ring. }
    now rewrite <- Hy0. }
  split.
  - apply Forall_forall. intros x Hx. apply in_map_iff in Hx as [y [<- Hy]].
    assert (Fin 0 = y) as <- by (revert y Hy; now apply Forall_forall).
    symmetry. now apply zero_times.
  - induction Hd as [|x l <- _ IH]; [reflexivity | exact IH].
Qed.

Lemma constant_position_no_trades idx close pos size cost v :
  constant (Fin v) pos ->
  identify_trades (derive_columns idx close pos size cost) = [].
Proof.
  intros Hc. unfold identify_trades.
  destruct pos as [|p0 pr]; [reflexivity|].
  rewrite change_points_derived.
  destruct (constant_position_costs (cost := Fin 0) Hc eq_refl) as [_ ->].
  reflexivity.
Qed.

Lemma removelast_constant {A : Type} (v : A) (l : list A) :
  Forall (eq v) l -> Forall (eq v) (removelast l).
Proof. apply Forall_removelast. Qed.

Lemma position_steps_length (pr : Series) p0 :
  List.length (map2 (fun cur prev => cur - prev)%F pr (p0 :: pr))
  = List.length pr.
Proof. rewrite map2_length. simpl. lia. Qed.

(** Net returns of a strategy that is long on every bar, without a size
    column: after the first bar they add 1 to the same values as the price
    returns do. *)
Lemma always_long_net_returns idx c0 cr p0 pr cost :
  Forall positive_price (c0 :: cr) -> constant (Fin 1) (p0 :: pr) ->
  List.length cr = List.length pr -> finite cost ->
  exists rest,
    net_returns (derive_columns idx (c0 :: cr) (p0 :: pr) None cost) = NaN :: rest /\
    Forall finite rest /\
    map (fadd (Fin 1)) rest =
    map (fadd (Fin 1)) (map2 (fun cur prev => cur / prev - Fin 1)%F cr (c0 :: cr)).
Proof.
  intros Hp Hc Hlen Hcost.
  rewrite derived_net_returns_tail by discriminate.
  set (rets := map2 (fun cur prev => cur / prev - Fin 1)%F cr (c0 :: cr)).
  assert (Hrets : Forall finite rets).
  { inversion Hp; subst. now apply price_ratios_finite. }
  destruct (constant_position_costs Hc Hcost) as [Htc _].
  set (tc := scale _ cost) in *.
  assert (Hl1 : List.length (removelast (p0 :: pr)) = List.length rets).
  { rewrite removelast_length. unfold rets. rewrite price_ratios_length.
    simpl. lia. }
  assert (Hl2 : List.length (map (fmul (Fin 1)) rets) = List.length tc).
  { unfold tc, scale, Series.abs.
    rewrite !length_map, position_steps_length.
    unfold rets. rewrite price_ratios_length. exact Hlen. }
  cbn [exposures]. unfold Series.sub, Series.mul.
  rewrite (@map2_constant_l _ _ _ fmul (Fin 1) (removelast (p0 :: pr)) rets
             (@removelast_constant _ (Fin 1) _ Hc) Hl1).
  rewrite (@map2_constant_r _ _ _ fsub (Fin 0) _ tc Htc Hl2).
  eexists. split; [reflexivity|]. split.
  - apply Forall_forall. intros x Hx.
    apply in_map_iff in Hx as [y [<- Hy]]. apply in_map_iff in Hy as [z [<- Hz]].
    apply fsub_finite; [|reflexivity]. apply fmul_finite; [reflexivity|].
    revert z Hz. now apply Forall_forall.
  - rewrite !map_map. apply map_ext_in. intros r Hr.
    assert (Hf : finite r) by (revert r Hr; now apply Forall_forall).
    destruct r as [q| | |]; try discriminate Hf.
    cbn [fmul fsub fadd]. apply Fin_Qred_eq.
    rewrite !Qred_correct. ring.
Qed.

Section ConstantPosition.

Variable qsqrt : Q -> Q.

(** X13: A strategy that is long on every bar (no size column, positive prices,
    any finite cost) has exactly the equity curve that [plot_results] draws
    for the benchmark.  It pays no cost for the position it holds from the
    first bar on, and its trade log is empty. *)
Theorem always_long_tracks_the_price data close pos cost m :
  backtest qsqrt data cost = Ok m ->
  Close data = Some close -> position data = Some pos ->
  position_size data = None -> well_formed data ->
  Forall positive_price close -> constant (Fin 1) pos -> finite cost ->
  equity_curve m = benchmark_equity close /\
  trades m = [].
Proof.
  intros H Hc Hp Hs [Wc [Wp _]] Vc Vp Hcost.
  destruct (@backtest_Ok qsqrt data close pos cost m H Hc Hp) as [He [Ht Hne]].
  rewrite Hs in *. rewrite Hc in Wc. rewrite Hp in Wp. simpl in Wc, Wp.
  assert (E : equity_curve m = benchmark_equity close).
  { rewrite He.
    destruct close as [|c0 cr], pos as [|p0 pr]; simpl in Wc, Wp;
      try (now destruct Hne); try congruence.
    destruct (@always_long_net_returns (index data) c0 cr p0 pr cost)
      as [rest [-> [Hf Hm]]]; try assumption; [congruence|].
    change (benchmark_equity (c0 :: cr))
      with (build_equity (pct_change (c0 :: cr))).
    rewrite pct_change_cons, !build_equity_cons. now rewrite Hm. }
  split.
  - exact E.
  - rewrite Ht. eapply constant_position_no_trades. exact Vp.
Qed.

End ConstantPosition.

Lemma always_long_tracks_the_price_witness :
  exists m,
    backtest sqrt_of_squares always_long_input (Fin (1 # 100)) = Ok m /\
    equity_curve m = benchmark_equity [Fin 100; Fin 110; Fin 99] /\
    trades m = [].
Proof.
  destruct (backtest sqrt_of_squares always_long_input (Fin (1 # 100)))
    as [m|e] eqn:E; [|vm_compute in E; discriminate E].
  exists m. split; [reflexivity|].
  destruct (@always_long_tracks_the_price sqrt_of_squares always_long_input
              [Fin 100; Fin 110; Fin 99] [Fin 1; Fin 1; Fin 1] (Fin (1 # 100)) m E)
    as [H1 H2]; try reflexivity.
  - repeat split.
  - repeat constructor.
  - repeat constructor.
  - split; [exact H1 | exact H2].
Defined.

(** Net returns of a strategy that is flat on every bar: all zero after the
    missing first one. *)
Lemma always_flat_net_returns idx c0 cr p0 pr size cost :
  Forall positive_price (c0 :: cr) -> constant (Fin 0) (p0 :: pr) ->
  (forall sz, size = Some sz -> Forall finite sz) ->
  sizes_fit (p0 :: pr) size -> finite cost ->
  exists rest,
    net_returns (derive_columns idx (c0 :: cr) (p0 :: pr) size cost) = NaN :: rest /\
    constant (Fin 0) rest.
Proof.
  intros Hp Hc Hs Hfit Hcost.
  assert (Hex : constant (Fin 0) (exposures (p0 :: pr) size)).
  { unfold exposures. destruct size as [sz|]; [|exact Hc].
    apply Forall_map2 with (P := eq (Fin 0)) (Q := finite);
      [|exact Hc | now apply Hs].
    intros a b <- Hb. symmetry. now apply zero_times. }
  assert (Hne : exposures (p0 :: pr) size <> []).
  { pose proof (exposure_length (p0 :: pr) size Hfit) as L.
    destruct (exposures (p0 :: pr) size); [discriminate L | discriminate]. }
  rewrite derived_net_returns_tail by exact Hne.
  eexists. split; [reflexivity|].
  destruct (constant_position_costs Hc Hcost) as [Htc _].
  apply Forall_map2 with (P := eq (Fin 0)) (Q := eq (Fin 0));
    [intros a b <- <-; reflexivity | | exact Htc].
  apply Forall_map2 with (P := eq (Fin 0)) (Q := finite).
  - intros a b <- Hb. symmetry. now apply zero_times.
  - now apply Forall_removelast.
  - inversion Hp; subst. now apply price_ratios_finite.
Qed.

Lemma cumprod_of_zero_returns rest :
  constant (Fin 0) rest ->
  cumprod_from (Fin 1) (map (fadd (Fin 1)) rest) = map (fun _ => Fin 1) rest.
Proof.
  induction 1 as [|x l <- _ IH]; [reflexivity|].
  cbn [map cumprod_from fadd is_nan].
  change (Fin 1 * Fin (Qred (1 + 0)))%F with (Fin 1). now rewrite IH.
Qed.

Lemma constant_last {A : Type} (v : A) (l : list A) :
  Forall (eq v) l -> last l v = v.
Proof.
  induction 1 as [|x l <- _ IH]; [reflexivity|].
  destruct l; [reflexivity | exact IH].
Qed.

Lemma constant_one_never_declines l :
  constant (Fin 1) l -> Forall positive_price l /\ never_declines l.
Proof.
  induction 1 as [|x l <- Hl [IH1 IH2]]; [split; constructor|].
  split; [constructor; [reflexivity | assumption]|].
  split; [|assumption].
  eapply Forall_impl; [|exact Hl]. now intros b <-.
Qed.

Section FlatStrategy.

Variable qsqrt : Q -> Q.

(** X14: A strategy that is flat on every bar (positive prices, finite sizes if
    there is a size column, any finite cost) gets a report in which the
    equity stays at 1, the trade log is empty, and total return, max
    drawdown, win rate, number of trades, average win/loss ratio, profit
    factor and Calmar ratio are all 0. *)
Theorem always_flat_report_is_neutral data close pos cost m :
  backtest qsqrt data cost = Ok m ->
  Close data = Some close -> position data = Some pos ->
  well_formed data ->
  Forall positive_price close -> constant (Fin 0) pos ->
  (forall sz, position_size data = Some sz -> Forall finite sz) ->
  finite cost ->
  constant (Fin 1) (equity_curve m) /\
  trades m = [] /\
  total_return m = Fin 0 /\ max_drawdown m = Fin 0 /\
  win_rate m = Fin 0 /\ num_trades m = 0%nat /\
  avg_win_loss_ratio m = Fin 0 /\ profit_factor m = Fin 0 /\
  calmar_ratio m = Fin 0.
Proof.
  intros H Hc Hp [Wc [Wp Ws]] Vc Vp Vs Hcost.
  pose proof (@backtest_fields qsqrt data close pos cost m H Hc Hp) as F.
  apply calculate_all_metrics_fields in F.
  destruct F as [He [Ht [Htr [_ [Hdd [Hw [Hn [Ha [Hpf [Hcal _]]]]]]]]]].
  rewrite Hc in Wc. rewrite Hp in Wp. simpl in Wc, Wp.
  assert (Hlog : identify_trades
                   (derive_columns (index data) close pos (position_size data) cost)
                 = []).
  { eapply constant_position_no_trades. exact Vp. }
  rewrite Hlog in *.
  assert (Heq : constant (Fin 1) (equity_curve m) /\ equity_curve m <> []).
  { rewrite He.
    destruct close as [|c0 cr], pos as [|p0 pr]; simpl in Wc, Wp; try congruence.
    - destruct (position_size data); discriminate Htr.
    - destruct (@always_flat_net_returns (index data) c0 cr p0 pr
                  (position_size data) cost) as [rest [-> Hz]]; try assumption.
      { unfold sizes_fit. destruct (position_size data); simpl in *; congruence. }
      rewrite build_equity_of_nan_cons.
      + rewrite (cumprod_of_zero_returns Hz). split; [|discriminate].
        constructor; [reflexivity|].
        apply Forall_forall. intros x Hx. apply in_map_iff in Hx as [y [<- _]].
        reflexivity.
      + eapply Forall_impl; [|exact Hz]. now intros a <-. }
  destruct Heq as [Hone Hne].
  assert (Htotal : total_return m = Fin 0).
  { rewrite <- He in Htr. unfold calculate_total_return in Htr.
    destruct (equity_curve m) as [|e0 er]; [congruence|].
    cbn [iloc_last bind] in Htr. injection Htr as <-.
    inversion Hone as [|? ? <- Hr]; subst.
    rewrite (constant_last Hr). reflexivity. }
  assert (Hmax : max_drawdown m = Fin 0).
  { rewrite Hdd, <- He. unfold calculate_max_drawdown.
    destruct (constant_one_never_declines Hone) as [P D].
    now apply never_declining_slice. }
  repeat split; try assumption.
  - now rewrite Hcal, Htotal, Hmax.
Qed.

End FlatStrategy.

Lemma always_flat_report_is_neutral_witness :
  exists m,
    backtest sqrt_of_squares always_flat_input (Fin (1 # 100)) = Ok m /\
    equity_curve m = [Fin 1; Fin 1; Fin 1] /\
    total_return m = Fin 0 /\ profit_factor m = Fin 0.
Proof.
  destruct (backtest sqrt_of_squares always_flat_input (Fin (1 # 100)))
    as [m|e] eqn:E; [|vm_compute in E; discriminate E].
  exists m. split; [reflexivity|].
  destruct (@always_flat_report_is_neutral sqrt_of_squares always_flat_input
              [Fin 100; Fin 110; Fin 99] [Fin 0; Fin 0; Fin 0] (Fin (1 # 100)) m E)
    as [H1 [_ [H3 [_ [_ [_ [_ [H8 _]]]]]]]]; try reflexivity.
  - repeat split.
  - repeat constructor.
  - repeat constructor.
  - intros sz [= <-]. repeat constructor.
  - split; [|split; assumption].
    vm_compute in E. injection E as <-. reflexivity.
Defined.

(** ** Trading cost *)

(** X15: With a non-negative finite cost the net return of a bar is never above
    its strategy return, and with cost 0 the two are equal numbers. *)
Theorem cost_never_raises_a_return idx close pos size c i s n :
  0 <= c ->
  let df := derive_columns idx close pos size (Fin c) in
  nth_error (strategy_returns df) i = Some (Fin s) ->
  nth_error (net_returns df) i = Some (Fin n) ->
  n <= s /\ (c == 0 -> n == s).
Proof.
  intros Hc df Hs Hn.
  assert (E : nth_error (net_returns df) i =
              match nth_error (strategy_returns df) i,
                    nth_error (trade_cost df) i with
              | Some a, Some b => Some (a - b)%F
              | _, _ => None
              end).
  { subst df. cbn [net_returns derive_columns]. unfold Series.sub at 1.
    apply map2_nth_error. }
  assert (T : nth_error (trade_cost df) i =
              option_map (fun x => fabs x * Fin c)%F
                         (nth_error (diff pos) i)).
  { subst df. cbn [trade_cost derive_columns]. unfold scale, Series.abs.
    rewrite map_map, nth_error_map. reflexivity. }
  rewrite E, Hs, T in Hn.
  destruct (nth_error (diff pos) i) as [d|]; [|discriminate].
  destruct d as [q| | |]; cbn [option_map fabs fmul fsub] in Hn;
    try discriminate.
  - apply (f_equal (fun o => match o with Some (Fin x) => x | _ => 0 end)) in Hn.
    cbv beta iota in Hn. subst n.
    pose proof (Qabs_nonneg q) as Ha.
    pose proof (Qred_correct (Qabs q)) as R1.
    pose proof (Qred_correct (Qred (Qabs q) * c)) as R2.
    pose proof (Qred_correct (s - Qred (Qred (Qabs q) * c))) as R3.
    assert (P : 0 <= Qred (Qabs q) * c) by (apply Qmult_le_0_compat; lra).
    split; [lra|]. intros Hz.
    assert (Z0 : Qred (Qabs q) * c == 0) by (rewrite Hz; ring).
    lra.
  - destruct (c ?= 0); discriminate.
  - destruct (c ?= 0); discriminate.
Qed.

Lemma cost_never_raises_a_return_witness :
  nth_error (net_returns
               (derive_columns [day 0; day 1; day 2] [Fin 100; Fin 110; Fin 99]
                               [Fin 0; Fin 1; Fin 0] None (Fin (1 # 100)))) 2
  = Some (Fin (-11 # 100)) /\
  (-11 # 100) <= (-1 # 10).
Proof.
  split; [reflexivity|].
  apply (@cost_never_raises_a_return
           [day 0; day 1; day 2] [Fin 100; Fin 110; Fin 99]
           [Fin 0; Fin 1; Fin 0] None (1 # 100) 2 (-1 # 10) (-11 # 100)).
  - discriminate.
  - reflexivity.
  - reflexivity.
Defined.

(** X16: A change of position is charged in proportion to its size: for positions
    in {-1, 0, 1} the position change of a bar after the first is 0 when the
    position stays, 2 when it flips and 1 otherwise, and the trade cost of the
    bar is that number times the cost.  The first bar has no position change
    at all (it is missing), whatever its position. *)
Theorem position_change_is_0_1_or_2 idx close pos size cost :
  let df := derive_columns idx close pos size cost in
  (pos <> [] -> nth_error (position_change df) 0 = Some NaN) /\
  (forall i a b,
     nth_error pos i = Some a -> nth_error pos (S i) = Some b ->
     valid_position a -> valid_position b ->
     exists k,
       nth_error (position_change df) (S i) = Some (Fin k) /\
       nth_error (trade_cost df) (S i) = Some (Fin k * cost)%F /\
       (k = 0 <-> a = b) /\ (k = 2 <-> flip a b) /\
       (k = 0 \/ k = 1 \/ k = 2)).
Proof.
  intros df. split.
  - intros Hne. destruct pos as [|p0 pr]; [congruence|].
    subst df. cbn [position_change derive_columns].
    rewrite diff_cons. reflexivity.
  - intros i a b Ha Hb Va Vb.
    pose proof (@position_change_nth_error idx close pos size cost i a b Ha Hb) as P.
    fold df in P.
    assert (T : forall k, nth_error (position_change df) (S i) = Some (Fin k) ->
                nth_error (trade_cost df) (S i) = Some (Fin k * cost)%F).
    { intros k Hk.
      change (trade_cost df) with (scale (position_change df) cost).
      unfold scale. now rewrite nth_error_map, Hk. }
    unfold flip.
    destruct Va as [->|[->| ->]], Vb as [->|[->| ->]];
      match type of P with
      | _ = Some ?v =>
          let k := eval vm_compute in
                     (match v with Fin x => x | _ => 0 end) in
          exists k; split; [exact P|]; split; [apply T; exact P|]
      end;
      repeat split; intros; auto;
        try discriminate; try tauto;
        try (match goal with
             | H : _ \/ _ |- _ => destruct H as [[? ?]|[? ?]]; discriminate
             end).
Qed.

Lemma position_change_is_0_1_or_2_witness :
  exists k,
    nth_error (position_change flip_frame) 2 = Some (Fin k) /\ k = 2.
Proof.
  destruct (@position_change_is_0_1_or_2
              [day 0; day 1; day 2; day 3]
              [Fin 100; Fin 100; Fin 100; Fin 100]
              [Fin 1; Fin 1; Fin (-1); Fin (-1)] None (Fin 0)) as [_ H].
  destruct (H 1%nat (Fin 1) (Fin (-1)) eq_refl eq_refl)
    as [k [Hk [_ [_ [Hflip _]]]]].
  - unfold valid_position; auto.
  - unfold valid_position; auto.
  - exists k. split; [exact Hk|].
    apply Hflip. left. split; reflexivity.
Defined.

(** ** Order of the trades *)

Lemma chronological_snoc log x :
  chronological log ->
  Forall (fun a => (exit_time a <= entry_time x)%Z) log ->
  chronological (log ++ [x]).
Proof.
  induction log as [|a l IH]; intros Hc Hf; [exact I|].
  inversion Hf as [|? ? Ha Hl]; subst.
  destruct l as [|b l'].
  - cbn. auto.
  - destruct Hc as [Hab Hc].
    change (chronological ((a :: b :: l') ++ [x]))
      with ((exit_time a <= entry_time b)%Z /\ chronological ((b :: l') ++ [x])).
    split; [assumption | now apply IH].
Qed.

Lemma ordered_before_later t t' st :
  (t <= t')%Z -> ordered_before t st -> ordered_before t' st.
Proof.
  intros Ht [H1 [H2 H3]]. repeat split.
  - eapply Forall_impl; [|exact H1]. intros tr [A B]. split; lia.
  - exact H2.
  - destruct (fst st); [|exact I]. destruct H3 as [A B]. split; [lia | exact B].
Qed.

Lemma step_ordered t' st row :
  ordered_before (row_idx row) st -> (row_idx row < t')%Z ->
  ordered_before t' (step st row).
Proof.
  intros [H1 [H2 H3]] Ht. unfold step.
  assert (Hkeep : Forall (fun tr => (entry_time tr < exit_time tr)%Z /\
                                    (exit_time tr < t')%Z) (snd st)).
  { eapply Forall_impl; [|exact H1]. intros tr [A B]. split; lia. }
  assert (Hle : Forall (fun tr => (exit_time tr <= row_idx row)%Z) (snd st)).
  { eapply Forall_impl; [|exact H1]. intros tr [A B]. lia. }
  destruct (fst st) as [e|] eqn:Est.
  - destruct H3 as [He Hx].
    destruct (exits e (row_position row)).
    + assert (Hall : Forall (fun tr => (entry_time tr < exit_time tr)%Z /\
                                       (exit_time tr < t')%Z)
                            (snd st ++ [close_trade e row])).
      { apply Forall_app. split; [exact Hkeep|].
        constructor; [|constructor]. cbn. split; lia. }
      assert (Hchr : chronological (snd st ++ [close_trade e row])).
      { apply chronological_snoc; assumption. }
      destruct (row_position row != Fin 0)%F; repeat split; cbn [fst snd];
        try assumption; try exact I; try (cbn; lia).
      apply Forall_app. split; [exact Hle|].
      constructor; [cbn; lia | constructor].
    + repeat split; try assumption. rewrite Est. split; [lia | exact Hx].
  - destruct (row_position row != Fin 0)%F; repeat split; cbn [fst snd];
      try assumption; try exact I; try (cbn; lia);
      try (rewrite Est; exact I).
Qed.

Lemma strictly_increasing_tail a l :
  strictly_increasing (a :: l) = true ->
  strictly_increasing l = true /\ Forall (fun b => (a < b)%Z) l.
Proof.
  revert a; induction l as [|b l IH]; intros a H; [split; [reflexivity | constructor]|].
  cbn [strictly_increasing] in H. apply andb_true_iff in H as [Hab Hl].
  apply Z.ltb_lt in Hab. split; [exact Hl|].
  destruct (IH b Hl) as [_ Hb].
  constructor; [exact Hab|].
  eapply Forall_impl; [|exact Hb]. intros c Hc. cbv beta in *. lia.
Qed.

Lemma run_ordered rows st t :
  strictly_increasing (map row_idx rows) = true ->
  Forall (fun r => (t <= row_idx r)%Z) rows ->
  ordered_before t st ->
  exists t', ordered_before t' (fold_left step rows st).
Proof.
  revert st t; induction rows as [|row rows IH]; intros st t Hs Hb Ho.
  - exists t. exact Ho.
  - inversion Hb as [|? ? Hrow Hrest]; subst.
    cbn [map] in Hs. apply strictly_increasing_tail in Hs as [Hs Hgt].
    cbn [fold_left]. apply (IH _ (row_idx row + 1)%Z); [exact Hs| |].
    + apply Forall_forall. intros r Hr.
      assert (row_idx row < row_idx r)%Z; [|lia].
      rewrite Forall_forall in Hgt. apply Hgt. now apply in_map.
    + apply step_ordered; [|lia].
      now apply (ordered_before_later Hrow).
Qed.

Lemma rows_times (idx : list Timestamp) (close pos : Series) :
  List.length idx = List.length close -> List.length close = List.length pos ->
  map row_idx
      (map2 (fun i cp => {| row_idx := i; row_Close := fst cp; row_position := snd cp |})
            idx (map2 pair close pos)) = idx.
Proof.
  revert close pos; induction idx as [|i idx IH]; intros [|c close] [|p pos] H1 H2;
    simpl in *; try discriminate; try reflexivity.
  f_equal. apply IH; lia.
Qed.

Lemma run_length rows st :
  (List.length (snd (fold_left step rows st))
   <= List.length (snd st) + List.length rows)%nat.
Proof.
  revert st; induction rows as [|row rows IH]; intros st; simpl; [lia|].
  specialize (IH (step st row)).
  destruct (step_appends st row) as [new [E L]]. rewrite E, length_app in IH. lia.
Qed.

(** X17: When the timestamps are strictly increasing, whatever the positions are,
    every trade of the log is exited after it was entered, no trade is
    entered before the previous one was exited, and there are fewer trades
    than bars. *)
Theorem trades_are_in_time_order idx close pos size cost :
  List.length idx = List.length close -> List.length close = List.length pos ->
  strictly_increasing idx = true ->
  let log := identify_trades (derive_columns idx close pos size cost) in
  Forall (fun t => (entry_time t < exit_time t)%Z) log /\
  chronological log /\
  (idx <> [] -> (List.length log < List.length idx)%nat).
Proof.
  intros H1 H2 Hs log. subst log. unfold identify_trades.
  destruct (List.length (change_points _) =? 0)%nat.
  { repeat split; [constructor|]. intros Hne. destruct idx; [congruence | simpl; lia]. }
  remember (iterrows (derive_columns idx close pos size cost)) as rows eqn:Er.
  assert (Hidx : map row_idx rows = idx).
  { subst rows. apply rows_times; assumption. }
  clear Er. unfold scan.
  assert (Hord : exists t', ordered_before t' (fold_left step rows (None, []))).
  { destruct rows as [|r0 rows'].
    - exists 0%Z. repeat split; constructor.
    - apply (@run_ordered (r0 :: rows') (None, []) (row_idx r0)).
      + rewrite Hidx. exact Hs.
      + constructor; [lia|].
        rewrite <- Hidx in Hs. cbn [map] in Hs.
        apply strictly_increasing_tail in Hs as [_ Hgt].
        apply Forall_forall. intros r Hr. rewrite Forall_forall in Hgt.
        assert (row_idx r0 < row_idx r)%Z; [|lia]. apply Hgt. now apply in_map.
      + repeat split; constructor. }
  destruct Hord as [t' [A [B _]]].
  repeat split.
  - eapply Forall_impl; [|exact A]. now intros tr [X _].
  - exact B.
  - intros Hne. rewrite <- Hidx, length_map.
    destruct rows as [|r0 rows']; [rewrite <- Hidx in Hne; now destruct Hne|].
    cbn [fold_left List.length].
    assert (E : snd (step (None, []) r0) = []).
    { unfold step. cbn [fst snd]. now destruct (row_position r0 != Fin 0)%F. }
    pose proof (run_length rows' (step (None, []) r0)) as L.
    rewrite E in L. simpl in L. lia.
Qed.

Lemma trades_are_in_time_order_witness :
  chronological
    (identify_trades
       (derive_columns [day 0; day 1; day 2; day 3; day 4]
                       [Fin 100; Fin 110; Fin 99; Fin 99; Fin 120]
                       [Fin 1; Fin (-1); Fin 0; Fin 1; Fin 1] None (Fin 0))).
Proof.
  apply (@trades_are_in_time_order
           [day 0; day 1; day 2; day 3; day 4]
           [Fin 100; Fin 110; Fin 99; Fin 99; Fin 120]
           [Fin 1; Fin (-1); Fin 0; Fin 1; Fin 1] None (Fin 0));
    reflexivity.
Defined.

(** ** Prices and pnl of the trades *)

Lemma positive_Fin q : positive (Fin q) <-> 0 < q.
Proof.
  rewrite positive_cases. split.
  - intros [E|[q' [[= <-] L]]]; [discriminate | exact L].
  - intros L. right. now exists q.
Qed.

Lemma negative_Fin q : negative (Fin q) <-> q < 0.
Proof.
  rewrite negative_cases. split.
  - intros [E|[q' [[= <-] L]]]; [discriminate | exact L].
  - intros L. right. now exists q.
Qed.

(** Sign and range of a price move [d] taken relative to a positive entry
    price [en], as the floats compute it. *)
Lemma relative_move_sign d en :
  0 < en ->
  (positive (Fin (Qred d) / Fin en)%F <-> 0 < d) /\
  (negative (Fin (Qred d) / Fin en)%F <-> d < 0) /\
  (- en <= d -> ((Fin (Qred d) / Fin en)%F <? Fin (-1))%F = false) /\
  (d <= en -> (Fin 1 <? (Fin (Qred d) / Fin en)%F)%F = false).
Proof.
  intros Hen. rewrite fdiv_Fin by assumption.
  rewrite positive_Fin, negative_Fin, !fltb_Fin.
  destruct (@ratio_sign (Qred d) en Hen) as [[Sp1 Sp2] [_ [Sn1 Sn2]]].
  pose proof (Qred_correct d) as Ed.
  pose proof (Qred_correct (Qred d / en)) as Er.
  assert (Hlow : - en <= d -> -1 <= Qred d / en).
  { intros H. apply Qle_shift_div_l; [assumption | lra]. }
  assert (Hhigh : d <= en -> Qred d / en <= 1).
  { intros H. apply Qle_shift_div_r; [assumption | lra]. }
  revert Sp1 Sp2 Sn1 Sn2 Er Hlow Hhigh.
  generalize (Qred (Qred d / en)). generalize (Qred d / en).
  revert Ed. generalize (Qred d).
  intros d' Ed q r Sp1 Sp2 Sn1 Sn2 Er Hlow Hhigh.
  split; [split; intros Hx | split; [split; intros Hx | split; intros Hx]].
  - assert (H1 : 0 < q) by lra. apply Sp1 in H1. lra.
  - assert (H1 : 0 < d') by lra. apply Sp2 in H1. lra.
  - assert (H1 : q < 0) by lra. apply Sn1 in H1. lra.
  - assert (H1 : d' < 0) by lra. apply Sn2 in H1. lra.
  - specialize (Hlow Hx). lra.
  - specialize (Hhigh Hx). lra.
Qed.

Lemma close_trade_priced close e row :
  In (at_price e) close -> positive_price (at_price e) ->
  In (row_Close row) close -> positive_price (row_Close row) ->
  priced_from close (close_trade e row).
Proof.
  intros He Pe Hr Pr.
  split; [exact He|]. split; [exact Hr|]. split; [apply close_trade_bare|].
  unfold close_trade. cbn [entry_price exit_price pnl direction].
  destruct (at_price e) as [en| | |]; try contradiction.
  destruct (row_Close row) as [ex| | |]; try contradiction.
  cbn [positive_price] in Pe, Pr.
  exists en, ex. split; [reflexivity|]. split; [reflexivity|].
  destruct (at_direction e == Fin 1)%F; cbn [fsub].
  - destruct (@relative_move_sign (ex - en) en Pe) as [Hp [Hn [Hl _]]].
    rewrite Hp, Hn. repeat split; intros; try lra. apply Hl. lra.
  - destruct (@relative_move_sign (en - ex) en Pe) as [Hp [Hn [_ Hh]]].
    rewrite Hp, Hn. repeat split; intros; try lra. apply Hh. lra.
Qed.

Lemma run_priced close rows st :
  Forall (fun r => In (row_Close r) close /\ positive_price (row_Close r)) rows ->
  Forall (priced_from close) (snd st) ->
  (forall e, fst st = Some e -> In (at_price e) close /\ positive_price (at_price e)) ->
  Forall (priced_from close) (snd (fold_left step rows st)).
Proof.
  intros Hrows. revert st.
  induction Hrows as [|row rows [Hin Hpos] _ IH]; intros st Hlog Hentry;
    [exact Hlog|].
  cbn [fold_left]. apply IH; unfold step.
  - destruct (fst st) as [e|] eqn:Est.
    + destruct (exits e (row_position row)); [|exact Hlog].
      destruct (Hentry e eq_refl) as [He Pe].
      assert (Forall (priced_from close) (snd st ++ [close_trade e row])).
      { apply Forall_app. split; [exact Hlog|].
        constructor; [now apply close_trade_priced | constructor]. }
      destruct (row_position row != Fin 0)%F; assumption.
    + destruct (row_position row != Fin 0)%F; exact Hlog.
  - intros e' He'.
    destruct (fst st) as [e|] eqn:Est.
    + destruct (exits e (row_position row)).
      * destruct (row_position row != Fin 0)%F; cbn [fst] in He';
          [injection He' as <-; now split | discriminate].
      * rewrite Est in He'. injection He' as <-. now apply Hentry.
    + destruct (row_position row != Fin 0)%F; cbn [fst] in He'.
      * injection He' as <-. now split.
      * rewrite Est in He'. discriminate.
Qed.

Lemma iterrows_close data row :
  In row (iterrows data) -> In (row_Close row) (df_Close data).
Proof.
  intros H. apply In_nth_error in H as [i Hi].
  apply iterrows_nth_error in Hi as [_ [Hc _]].
  eapply nth_error_In. exact Hc.
Qed.

(** X18: With positive prices, whatever the positions are, every trade of the log
    is entered and exited at prices of the [Close] column, and its pnl is the
    price move over the entry price.  A long trade has a positive pnl exactly
    when it exits above its entry price, a negative one exactly when it exits
    below it, and never a pnl below -1; a short trade has a positive pnl
    exactly when it exits below its entry price, a negative one exactly when
    it exits above it, and never a pnl above 1. *)
Theorem trades_are_priced_from_the_closes idx close pos size cost :
  Forall positive_price close ->
  Forall (priced_from close)
         (identify_trades (derive_columns idx close pos size cost)).
Proof.
  intros Hp. unfold identify_trades.
  destruct (List.length (change_points _) =? 0)%nat; [constructor|].
  apply run_priced.
  - apply Forall_forall. intros row Hrow.
    apply iterrows_close in Hrow. cbn [df_Close derive_columns] in Hrow.
    split; [exact Hrow|]. revert Hrow. generalize (row_Close row).
    now apply Forall_forall.
  - constructor.
  - intros e He. discriminate He.
Qed.

Lemma trades_are_priced_from_the_closes_witness :
  Forall (priced_from [Fin 100; Fin 110; Fin 99; Fin 99]) (identify_trades scenario_frame).
Proof.
  apply (@trades_are_priced_from_the_closes
           [day 0; day 1; day 2; day 3]
           [Fin 100; Fin 110; Fin 99; Fin 99]
           [Fin 0; Fin 1; Fin 1; Fin 0] None (Fin 0)).
  repeat constructor.
Defined.

(** ** The size column and the shape of the derived frame *)

Lemma times_one_valid pos :
  Forall valid_position pos -> map (fun p => p * Fin 1)%F pos = pos.
Proof.
  induction 1 as [|p l Hp _ IH]; [reflexivity|].
  cbn [map]. rewrite IH. f_equal.
  destruct Hp as [->|[->| ->]]; reflexivity.
Qed.

Section DefaultSize.

Variable qsqrt : Q -> Q.

(** X19: Leaving the size column out is the same as a size of 1 on every bar: for
    positions in {-1, 0, 1} the derived frame is the same, and so is the
    result of [backtest]. *)
Theorem size_one_is_the_default d1 d2 pos sz cost :
  same_but_size d1 d2 ->
  position d1 = Some pos -> Forall valid_position pos ->
  position_size d1 = Some sz -> constant (Fin 1) sz ->
  List.length sz = List.length pos ->
  position_size d2 = None ->
  (forall close,
     derive_columns (index d1) close pos (Some sz) cost =
     derive_columns (index d2) close pos None cost) /\
  backtest qsqrt d1 cost = backtest qsqrt d2 cost.
Proof.
  intros [Hi [Hc Hp]] Hpos Vp Hs1 Hone Hlen Hs2.
  assert (E : forall close,
     derive_columns (index d1) close pos (Some sz) cost =
     derive_columns (index d2) close pos None cost).
  { intros close. unfold derive_columns. rewrite Hi.
    assert (M : Series.mul pos sz = pos).
    { unfold Series.mul.
      rewrite (@map2_constant_r _ _ _ fmul (Fin 1) pos sz Hone (eq_sym Hlen)).
      now apply times_one_valid. }
    now rewrite M. }
  split; [exact E|].
  unfold backtest. rewrite <- Hc, <- Hp, Hpos, Hs1, Hs2.
  destruct (Close d1) as [close|]; [|reflexivity].
  now rewrite E.
Qed.

End DefaultSize.

Lemma size_one_is_the_default_witness :
  backtest sqrt_of_squares full_sized_input (Fin 0)
  = backtest sqrt_of_squares scenario_input (Fin 0).
Proof.
  apply (@size_one_is_the_default sqrt_of_squares full_sized_input scenario_input
           [Fin 0; Fin 1; Fin 1; Fin 0] [Fin 1; Fin 1; Fin 1; Fin 1] (Fin 0)).
  - repeat split.
  - reflexivity.
  - repeat (constructor; [unfold valid_position; auto|]). constructor.
  - reflexivity.
  - repeat constructor.
  - reflexivity.
  - reflexivity.
Defined.

(** X20: Every column that [backtest] derives is as long as the input columns, so
    the derived frame stays aligned with the index, and the equity curve of
    the report has one value per bar. *)
Theorem derived_columns_are_aligned idx close pos size cost :
  List.length idx = List.length close -> List.length close = List.length pos ->
  sizes_fit pos size ->
  let n := List.length idx in
  let df := derive_columns idx close pos size cost in
  List.length (returns df) = n /\
  List.length (effective_position df) = n /\
  List.length (strategy_returns df) = n /\
  List.length (position_change df) = n /\
  List.length (trade_cost df) = n /\
  List.length (net_returns df) = n /\
  List.length (build_equity (net_returns df)) = n /\
  List.length (iterrows df) = n.
Proof.
  intros H1 H2 Hfit n df.
  pose proof (exposure_length pos size Hfit) as He.
  assert (Le : List.length (effective_position df) = n).
  { subst df n. cbn [effective_position derive_columns].
    unfold exposures in He.
    destruct size as [sz|]; rewrite shift_length; simpl in He; lia. }
  assert (Lr : List.length (returns df) = n).
  { subst df n. cbn [returns derive_columns]. unfold pct_change.
    rewrite map2_length, shift_length. lia. }
  assert (Lp : List.length (position_change df) = n).
  { subst df n. cbn [position_change derive_columns]. unfold Series.abs, diff.
    rewrite length_map, map2_length, shift_length. lia. }
  assert (Ls : List.length (strategy_returns df) = n).
  { change (strategy_returns df)
      with (Series.mul (effective_position df) (returns df)).
    unfold Series.mul. rewrite map2_length. lia. }
  assert (Lt : List.length (trade_cost df) = n).
  { change (trade_cost df) with (scale (position_change df) cost).
    unfold scale. now rewrite length_map. }
  assert (Ln : List.length (net_returns df) = n).
  { change (net_returns df)
      with (Series.sub (strategy_returns df) (trade_cost df)).
    unfold Series.sub. rewrite map2_length. lia. }
  repeat split; try assumption.
  - now rewrite build_equity_length.
  - subst df n. unfold iterrows. cbn [df_index df_Close df_position derive_columns].
    rewrite !map2_length. lia.
Qed.

Lemma derived_columns_are_aligned_witness :
  List.length (net_returns scenario_frame) = 4%nat.
Proof.
  apply (@derived_columns_are_aligned
           [day 0; day 1; day 2; day 3]
           [Fin 100; Fin 110; Fin 99; Fin 99]
           [Fin 0; Fin 1; Fin 1; Fin 0] None (Fin 0));
    reflexivity.
Defined.

(** ** Total return *)

Lemma last_default {A : Type} (l : list A) (d d' : A) :
  l <> [] -> last l d = last l d'.
Proof.
  induction l as [|a l IH]; [congruence|]. intros _.
  destruct l as [|b l]; [reflexivity|].
  change (last (a :: b :: l) d) with (last (b :: l) d).
  change (last (a :: b :: l) d') with (last (b :: l) d').
  apply IH. discriminate.
Qed.

Lemma iloc_last_nth_error (l : Series) x :
  iloc_last l = Ok x -> nth_error l (List.length l - 1) = Some x.
Proof.
  destruct l as [|a r]; [discriminate|]. cbn [iloc_last]. intros [= <-].
  cbn [List.length]. rewrite Nat.sub_1_r. cbn [pred].
  revert a; induction r as [|b r IH]; intros a; [reflexivity|].
  cbn [List.length nth_error]. rewrite IH. f_equal.
  destruct r as [|c r]; [reflexivity|].
  change (last (b :: c :: r) a) with (last (c :: r) a).
  apply last_default. discriminate.
Qed.

Section TotalReturn.

Variable qsqrt : Q -> Q.

(** X21: For a valid input and a finite cost the total return of the report is the
    compounded net return: the product of [1 + net_return] over all bars after
    the first, minus 1. *)
Theorem total_return_compounds_net_returns data close pos cost m :
  backtest qsqrt data cost = Ok m ->
  valid_input data close pos -> finite cost ->
  let net :=
    net_returns (derive_columns (index data) close pos (position_size data) cost) in
  total_return m = (product (map (fadd (Fin 1)) (tl net)) - Fin 1)%F.
Proof.
  intros H V Hcost net.
  destruct V as [[Wc [Wp Ws]] _ [Hc Vc] [Hp Vp] Vs].
  pose proof (@backtest_fields qsqrt data close pos cost m H Hc Hp) as F.
  apply calculate_all_metrics_fields in F.
  destruct F as [_ [_ [Htr _]]]. fold net in Htr.
  rewrite Hc in Wc. rewrite Hp in Wp. simpl in Wc, Wp.
  assert (Hfit : sizes_fit pos (position_size data)).
  { unfold sizes_fit. destruct (position_size data); simpl in *; congruence. }
  assert (Hne : pos <> []).
  { intros ->. destruct close; [|simpl in *; congruence].
    subst net. destruct (position_size data); discriminate Htr. }
  destruct (@derived_net_returns_finite (index data) close pos (position_size data) cost)
    as [rest [E Hrest]]; auto.
  - eapply Forall_impl; [|exact Vp]. apply valid_position_finite.
  - intros sz Hsz. eapply Forall_impl; [|exact (Vs sz Hsz)]. apply valid_size_finite.
  - congruence.
  - fold net in E. rewrite E in *. cbn [tl].
    unfold calculate_total_return in Htr.
    destruct (iloc_last (build_equity (NaN :: rest))) as [x|] eqn:L;
      [|discriminate].
    cbn [bind] in Htr. injection Htr as <-.
    apply iloc_last_nth_error in L.
    rewrite build_equity_length in L. cbn [List.length] in L.
    rewrite Nat.sub_1_r in L. cbn [pred] in L.
    rewrite build_equity_running_product in L by (auto; lia).
    injection L as <-. now rewrite firstn_all.
Qed.

End TotalReturn.

Lemma total_return_compounds_net_returns_witness :
  exists m,
    backtest sqrt_of_squares scenario_input (Fin 0) = Ok m /\
    total_return m = Fin (-1 # 10).
Proof.
  destruct (backtest sqrt_of_squares scenario_input (Fin 0)) as [m|e] eqn:E;
    [|vm_compute in E; discriminate E].
  exists m. split; [reflexivity|].
  rewrite (@total_return_compounds_net_returns sqrt_of_squares scenario_input
             [Fin 100; Fin 110; Fin 99; Fin 99] [Fin 0; Fin 1; Fin 1; Fin 0]
             (Fin 0) m E).
  - reflexivity.
  - constructor.
    + repeat split.
    + reflexivity.
    + split; [reflexivity|]. repeat constructor.
    + split; [reflexivity|].
      repeat (constructor; [unfold valid_position; auto|]). constructor.
    + discriminate.
  - reflexivity.
Defined.

(** ** Sharpe ratio of a strategy that earns nothing *)

Lemma dropna_repeat v k : dropna (repeat (Fin v) k) = repeat (Fin v) k.
Proof.
  apply dropna_keeps. apply Forall_forall. intros x Hx.
  apply repeat_spec in Hx. now subst x.
Qed.

Lemma fold_fadd_zeros k : fold_left fadd (repeat (Fin 0) k) (Fin 0) = Fin 0.
Proof. induction k as [|k IH]; [reflexivity | exact IH]. Qed.

Lemma zero_over_positive n : (0 < n)%Z -> (Fin 0 / of_Z n)%F = Fin 0.
Proof.
  intros H. change (of_Z n) with (Fin (inject_Z n)).
  assert (P : 0 < inject_Z n) by (change 0 with (inject_Z 0); now rewrite <- Zlt_Qlt).
  rewrite (fdiv_Fin _ P). reflexivity.
Qed.

Lemma count_of_zeros k : Series.count (repeat (Fin 0) k) = k.
Proof. unfold Series.count. now rewrite dropna_repeat, repeat_length. Qed.

Lemma mean_of_zeros k : (0 < k)%nat -> mean (repeat (Fin 0) k) = Fin 0.
Proof.
  intros Hk. unfold mean, Series.sum. rewrite count_of_zeros, dropna_repeat.
  rewrite fold_fadd_zeros. apply zero_over_positive. lia.
Qed.

Lemma var_of_zeros k : (2 <= k)%nat -> Series.var (repeat (Fin 0) k) = Fin 0.
Proof.
  intros Hk. unfold Series.var. rewrite count_of_zeros.
  destruct (k <=? 1)%nat eqn:E; [apply Nat.leb_le in E; lia|].
  rewrite mean_of_zeros by lia. rewrite map_repeat.
  change (if is_nan (Fin 0) then Fin 0 else ((Fin 0 - Fin 0) * (Fin 0 - Fin 0))%F)
    with (Fin 0).
  rewrite fold_fadd_zeros. apply zero_over_positive. lia.
Qed.

Lemma var_skips_missing s : Series.var (NaN :: s) = Series.var s.
Proof.
  unfold Series.var, mean, Series.sum, Series.count.
  change (dropna (NaN :: s)) with (dropna s).
  cbn [map is_nan fold_left]. change (Fin 0 + Fin 0)%F with (Fin 0).
  reflexivity.
Qed.

Lemma constant_repeat {A : Type} (v : A) (l : list A) :
  Forall (eq v) l -> l = repeat v (List.length l).
Proof. induction 1 as [|x l <- _ IH]; [reflexivity|]. cbn. now f_equal. Qed.

Lemma sharpe_of_zeros qsqrt k ppy :
  qsqrt 0 == 0 -> (2 <= k)%nat ->
  calculate_sharpe_ratio qsqrt (repeat (Fin 0) k) ppy = Fin 0 /\
  calculate_sharpe_ratio qsqrt (NaN :: repeat (Fin 0) k) ppy = Fin 0.
Proof.
  intros Hq Hk.
  assert (Hs : std qsqrt (repeat (Fin 0) k) = Fin 0).
  { unfold std. rewrite var_of_zeros by assumption.
    cbn [np_sqrt]. change (Qle_bool 0 0) with true. cbn iota.
    f_equal. now apply Qred_zero. }
  assert (Hs' : std qsqrt (NaN :: repeat (Fin 0) k) = Fin 0).
  { unfold std in *. rewrite var_skips_missing. exact Hs. }
  unfold calculate_sharpe_ratio. rewrite Hs, Hs'. cbn [feqb].
  change (Qeq_bool 0 0) with true.
  split.
  - now destruct (List.length (repeat (Fin 0) k) <? 2)%nat.
  - now destruct (List.length (NaN :: repeat (Fin 0) k) <? 2)%nat.
Qed.

(** X22: When the square root of 0 is 0, a returns series whose present values
    are all 0, at least two of them, has standard deviation 0, and its Sharpe
    ratio is exactly 0 by the guard, whatever the annualization factor.  So
    the report of a strategy that is flat on every bar of a table of at least
    three bars has Sharpe ratio 0. *)
Theorem sharpe_ratio_of_zero_returns qsqrt :
  qsqrt 0 == 0 ->
  (forall k ppy, (2 <= k)%nat ->
     calculate_sharpe_ratio qsqrt (repeat (Fin 0) k) ppy = Fin 0 /\
     calculate_sharpe_ratio qsqrt (NaN :: repeat (Fin 0) k) ppy = Fin 0) /\
  (forall data close pos cost m,
     backtest qsqrt data cost = Ok m ->
     Close data = Some close -> position data = Some pos ->
     well_formed data ->
     Forall positive_price close -> constant (Fin 0) pos ->
     (forall sz, position_size data = Some sz -> Forall finite sz) ->
     finite cost ->
     (3 <= List.length (index data))%nat ->
     sharpe_ratio m = Fin 0).
Proof.
  intros Hq. split.
  { intros k ppy Hk. now apply sharpe_of_zeros. }
  intros data close pos cost m H Hc Hp [Wc [Wp Ws]] Vc Vp Vs Hcost Hrows.
  pose proof (@backtest_fields qsqrt data close pos cost m H Hc Hp) as F.
  apply calculate_all_metrics_fields in F.
  destruct F as [_ [_ [_ [-> _]]]].
  rewrite Hc in Wc. rewrite Hp in Wp. simpl in Wc, Wp.
  assert (Hfit : sizes_fit pos (position_size data)).
  { unfold sizes_fit. destruct (position_size data); simpl in *; congruence. }
  assert (Hcp : List.length close = List.length pos) by congruence.
  pose proof (@derived_net_length (index data) close pos (position_size data) cost
                Hcp Hfit) as Hlen.
  destruct close as [|c0 cr], pos as [|p0 pr]; simpl in Wc, Wp; try lia.
  destruct (@always_flat_net_returns (index data) c0 cr p0 pr
              (position_size data) cost) as [rest [E Hz]]; try assumption.
  rewrite E in *. simpl in Hlen.
  rewrite (constant_repeat Hz).
  apply sharpe_of_zeros; [assumption | lia].
Qed.

Lemma sharpe_ratio_of_zero_returns_witness :
  calculate_sharpe_ratio sqrt_of_squares [NaN; Fin 0; Fin 0; Fin 0] 365 = Fin 0 /\
  exists m,
    backtest sqrt_of_squares always_flat_input (Fin (1 # 100)) = Ok m /\
    sharpe_ratio m = Fin 0.
Proof.
  destruct (@sharpe_ratio_of_zero_returns sqrt_of_squares) as [H1 H2];
    [reflexivity|].
  split.
  - apply (H1 3%nat 365%Z). lia.
  - destruct (backtest sqrt_of_squares always_flat_input (Fin (1 # 100)))
      as [m|e] eqn:E; [|vm_compute in E; discriminate E].
    exists m. split; [reflexivity|].
    apply (H2 always_flat_input [Fin 100; Fin 110; Fin 99]
              [Fin 0; Fin 0; Fin 0] (Fin (1 # 100)) m E); try reflexivity.
    + repeat split.
    + repeat constructor.
    + repeat constructor.
    + intros sz [= <-]. repeat constructor.
Defined.
